(** * Release notes: commit classification and note extraction

    A shallow embedding of [script/release-notes/notes.js] and the
    properties of its message parser, note extractor, pool passes and
    renderer.

    Modelling conventions.
    - A JavaScript string is a [string]: a sequence of code units, each of
      them an [ascii] (code units 0..255).  [toLowerCase] is the case
      mapping of Unicode on these code units, and [toLocaleLowerCase] is
      taken in a locale without a case mapping of its own, where it is
      [toLowerCase].  [toUpperCase] leaves the range for two of the code
      units and gives two code units for a third, so a capitalized note,
      and all that is built from it, is a [text]: a sequence of code
      units of any size.
    - [undefined], [null] and a value are kept apart where the script can
      produce more than one of them ([field]); a property that is either
      absent or a value is an [option].
    - A function that can throw returns a [result]; a loop that need not
      end takes the number of turns it may take and returns [None] when
      they do not suffice.
    - The records of a commit are values.  The one place where the script
      writes through a shared object, [commit.pr.branch = ...], is
      modelled with the sharing it has at that point ([set_pr_branch]).
    - Git, the file system, the GitHub API and the semver package are
      parameters of the functions that use them. *)

From Stdlib Require Import String Ascii List NArith Bool Arith Lia.
From Stdlib Require Import Sorting.Sorted Sorting.Permutation DecimalString.
Import ListNotations.
Open Scope string_scope.
Open Scope list_scope.

Set Implicit Arguments.

(* ================================================================== *)
(** * The fragment of the JavaScript runtime the script relies on *)
(* ================================================================== *)

Module JS.

(** ** Absent, null or present *)

Inductive field (A : Type) : Type :=
| undefined : field A
| null : field A
| val : A -> field A.
Arguments undefined {A}.
Arguments null {A}.
Arguments val {A} _.

(** ** Exceptions *)

Inductive result (A : Type) : Type :=
| Ok : A -> result A
| Throw : string -> result A.
Arguments Ok {A} _.
Arguments Throw {A} _.

Definition bind {A B : Type} (m : result A) (f : A -> result B) : result B :=
  match m with
  | Ok a => f a
  | Throw e => Throw e
  end.

(** ** Characters *)

Definition code (c : ascii) : N := N_of_ascii c.

Definition isDigit (c : ascii) : bool := (48 <=? code c)%N && (code c <=? 57)%N.
Definition isUpper (c : ascii) : bool := (65 <=? code c)%N && (code c <=? 90)%N.
Definition isLower (c : ascii) : bool := (97 <=? code c)%N && (code c <=? 122)%N.

(** [\w] is [[A-Za-z0-9_]]. *)
Definition isWord (c : ascii) : bool :=
  isDigit c || isUpper c || isLower c || (code c =? 95)%N.

(** White space and line terminators among the code units below 256: TAB,
    LF, VT, FF, CR, SP and NBSP.  This is what [\s] matches and what
    [trim] removes. *)
Definition isSpace (c : ascii) : bool :=
  ((9 <=? code c)%N && (code c <=? 13)%N) || (code c =? 32)%N || (code c =? 160)%N.

(** [.] matches everything but a line terminator. *)
Definition isLineTerminator (c : ascii) : bool :=
  (code c =? 10)%N || (code c =? 13)%N.

(** The capital letters among the code units 192..222; 215 is the
    multiplication sign. *)
Definition isUpperLatin (c : ascii) : bool :=
  (192 <=? code c)%N && (code c <=? 222)%N && negb (code c =? 215)%N.

(** The small letters among the code units 224..254 whose capital is 32
    below; 247 is the division sign. *)
Definition isLowerLatin (c : ascii) : bool :=
  (224 <=? code c)%N && (code c <=? 254)%N && negb (code c =? 247)%N.

Definition lowerChar (c : ascii) : ascii :=
  if isUpper c || isUpperLatin c then ascii_of_N (code c + 32) else c.

(** A sequence of code units of any size. *)
Definition text : Type := list N.

(** The code units of a string. *)
Definition units (s : string) : text := map code (list_ascii_of_string s).

(** [c.toUpperCase()] for the string of the one code unit [c].  The capital
    of the micro sign (181) is the Greek capital mu, U+039C; the capital
    of the sharp s (223) is 'SS'; the capital of the y with diaeresis (255)
    is U+0178. *)
Definition upperChar (c : ascii) : text :=
  if isLower c || isLowerLatin c then [(code c - 32)%N]
  else if (code c =? 181)%N then [924%N]
  else if (code c =? 223)%N then [83%N; 83%N]
  else if (code c =? 255)%N then [376%N]
  else [code c].

(** ** Strings *)

Fixpoint mapString (f : ascii -> ascii) (s : string) : string :=
  match s with
  | EmptyString => EmptyString
  | String c t => String (f c) (mapString f t)
  end.

Definition toLowerCase : string -> string := mapString lowerChar.

Fixpoint trimStart (s : string) : string :=
  match s with
  | String c t => if isSpace c then trimStart t else s
  | EmptyString => EmptyString
  end.

Fixpoint trimEnd (s : string) : string :=
  match s with
  | String c t =>
      match trimEnd t with
      | EmptyString => if isSpace c then EmptyString else String c EmptyString
      | t' => String c t'
      end
  | EmptyString => EmptyString
  end.

Definition trim (s : string) : string := trimEnd (trimStart s).

Definition startsWith (s p : string) : bool := prefix p s.

Fixpoint endsWith_rev (s p : list ascii) : bool :=
  match p, s with
  | [], _ => true
  | a :: p', b :: s' => Ascii.eqb a b && endsWith_rev s' p'
  | _ :: _, [] => false
  end.

Definition endsWith (s p : string) : bool :=
  endsWith_rev (rev (list_ascii_of_string s)) (rev (list_ascii_of_string p)).

(** [s.indexOf(p)]; [None] stands for -1. *)
Definition indexOf (s p : string) : option nat := index 0 p s.

Definition includes (s p : string) : bool :=
  match indexOf s p with Some _ => true | None => false end.

(** [s.slice(n)] and [s.slice(0, n)] for [0 <= n]. *)
Fixpoint sliceFrom (n : nat) (s : string) : string :=
  match n, s with
  | S k, String _ t => sliceFrom k t
  | _, _ => s
  end.

Fixpoint sliceTo (n : nat) (s : string) : string :=
  match n, s with
  | S k, String c t => String c (sliceTo k t)
  | _, _ => EmptyString
  end.

(** [s.replace(p, by)] with a string pattern: the first occurrence only. *)
Definition replaceString (s p by_ : string) : string :=
  match indexOf s p with
  | Some i => sliceTo i s ++ by_ ++ sliceFrom (i + String.length p) s
  | None => s
  end.

(** [a.join(sep)] on an array of strings. *)
Definition join (sep : string) (l : list string) : string := String.concat sep l.

(** A string is falsy exactly when it is empty. *)
Definition truthyString (s : string) : bool :=
  match s with EmptyString => false | _ => true end.

(** ** Texts *)

(** [startsWith], [endsWith], [===] and the order of [sort()] on texts:
    by code units, a proper prefix first. *)
Module Text.

Fixpoint startsWith (t p : text) {struct p} : bool :=
  match p, t with
  | [], _ => true
  | a :: p', b :: t' => (a =? b)%N && startsWith t' p'
  | _ :: _, [] => false
  end.

Definition endsWith (t p : text) : bool := startsWith (rev t) (rev p).

Fixpoint eqb (a b : text) : bool :=
  match a, b with
  | [], [] => true
  | x :: a', y :: b' => (x =? y)%N && eqb a' b'
  | _, _ => false
  end.

Fixpoint leb (a b : text) : bool :=
  match a, b with
  | [], _ => true
  | _ :: _, [] => false
  | x :: a', y :: b' =>
      if (x <? y)%N then true else if (x =? y)%N then leb a' b' else false
  end.

End Text.

(** ** Numbers *)

(** The values [parseInt] can give: NaN, a non-negative integer that is a
    double, or Infinity. *)
Inductive number : Type :=
| NaN : number
| Num : N -> number
| Infinity : number.

Definition truthyNumber (n : number) : bool :=
  match n with
  | NaN => false
  | Num k => negb (k =? 0)%N
  | Infinity => true
  end.

(** [===] on numbers: NaN is not equal to itself. *)
Definition numberEq (a b : number) : bool :=
  match a, b with
  | Num x, Num y => (x =? y)%N
  | Infinity, Infinity => true
  | _, _ => false
  end.

(** Rounding of a natural number to the nearest double, ties to even. *)
Definition roundToDouble (n : N) : N :=
  if (n <? 2 ^ 53)%N then n
  else
    let e := (N.log2 n - 52)%N in
    let q := N.shiftr n e in
    let r := (n - N.shiftl q e)%N in
    let half := N.shiftl 1 (e - 1) in
    let q' := if (half <? r)%N || ((r =? half)%N && N.odd q) then (q + 1)%N else q in
    N.shiftl q' e.

Definition digitValue (c : ascii) : N := (code c - 48)%N.

(** The leading decimal digits of a string and their value. *)
Fixpoint leadingDigits (s : string) (acc : N) : N :=
  match s with
  | String c t => if isDigit c then leadingDigits t (10 * acc + digitValue c) else acc
  | EmptyString => acc
  end.

(** [parseInt(s)] on a string that holds no sign, no leading white space
    and no hexadecimal prefix: the script only ever passes it the text of
    a [\d+] group. *)
Definition parseInt (s : string) : number :=
  match s with
  | String c _ =>
      if isDigit c then
        let n := roundToDouble (leadingDigits s 0) in
        if (n <? 2 ^ 1024)%N then Num n else Infinity
      else NaN
  | EmptyString => NaN
  end.

(** A value that is a number or a string, as the [number] property of a
    pull request is. *)
Inductive value : Type :=
| NumV : number -> value
| StrV : string -> value.

Definition truthy (v : value) : bool :=
  match v with
  | NumV n => truthyNumber n
  | StrV s => truthyString s
  end.

(** [a === b]: values of different types are never strictly equal. *)
Definition strictEq (a b : value) : bool :=
  match a, b with
  | NumV x, NumV y => numberEq x y
  | StrV x, StrV y => String.eqb x y
  | _, _ => false
  end.

End JS.

(* ================================================================== *)
(** * Regular expressions *)
(* ================================================================== *)

(** A backtracking matcher for the regular-expression syntax the script
    uses (no flags): literals, classes, [.], sequence, alternation, greedy
    repetition, capture groups, [^], [$] and [\b].  A match is searched
    from the leftmost start position, alternatives are tried left to right
    and repetition is greedy, as ECMAScript prescribes. *)

Module RegExp.
Import JS.

Inductive regex : Type :=
| Eps : regex                          (* the empty pattern *)
| Chr : ascii -> regex                 (* one literal character *)
| Cls : (ascii -> bool) -> regex       (* a character class *)
| Cat : regex -> regex -> regex        (* r1 r2 *)
| Alt : regex -> regex -> regex        (* r1|r2 *)
| Star : regex -> regex                (* r* *)
| Grp : nat -> regex -> regex          (* the n-th capture group *)
| Bol : regex                          (* ^ *)
| Eol : regex                          (* $ *)
| Wb : regex.                          (* \b *)

(** The literal text [s]. *)
Fixpoint Lit (s : string) : regex :=
  match s with
  | EmptyString => Eps
  | String c EmptyString => Chr c
  | String c t => Cat (Chr c) (Lit t)
  end.

Definition Plus (r : regex) : regex := Cat r (Star r).     (* r+ *)
Definition Opt (r : regex) : regex := Alt r Eps.           (* r? *)
Fixpoint Rep (n : nat) (r : regex) : regex :=              (* r{n} *)
  match n with
  | 0 => Eps
  | 1 => r
  | S k => Cat r (Rep k r)
  end.

Definition Dot : regex := Cls (fun c => negb (isLineTerminator c)).   (* . *)
Definition Digit : regex := Cls isDigit.                              (* \d *)
Definition Word : regex := Cls isWord.                                (* \w *)
Definition Space : regex := Cls isSpace.                              (* \s *)
Definition OneOf (s : string) : regex :=                              (* [...] *)
  Cls (fun c => existsb (Ascii.eqb c) (list_ascii_of_string s)).

(** The position of the matcher: the character before it (none at index
    0), the text after it, and the groups captured so far, latest first. *)
Record pos : Type := mkPos
  { before : option ascii;
    rest : string;
    caps : list (nat * string) }.

Definition advance (c : ascii) (t : string) (p : pos) : pos :=
  mkPos (Some c) t (caps p).

Definition isWordAt (o : option ascii) : bool :=
  match o with Some c => isWord c | None => false end.

Definition nextChar (s : string) : option ascii :=
  match s with String c _ => Some c | EmptyString => None end.

Definition capture (i : nat) (from to : pos) : pos :=
  mkPos (before to) (rest to)
        ((i, sliceTo (String.length (rest from) - String.length (rest to)) (rest from)) :: caps to).

(** [run r k p]: match [r] at [p], then continue with [k]; the first
    success of the backtracking search. *)
Fixpoint run (r : regex) (k : pos -> option pos) (p : pos) : option pos :=
  match r with
  | Eps => k p
  | Chr c =>
      match rest p with
      | String d t => if Ascii.eqb c d then k (advance d t p) else None
      | EmptyString => None
      end
  | Cls f =>
      match rest p with
      | String d t => if f d then k (advance d t p) else None
      | EmptyString => None
      end
  | Cat r1 r2 => run r1 (run r2 k) p
  | Alt r1 r2 =>
      match run r1 k p with
      | Some q => Some q
      | None => run r2 k p
      end
  | Star r1 =>
      (* greedy; an iteration that consumes nothing is not taken, so at
         most [length (rest p)] iterations are possible *)
      (fix iter (n : nat) (p : pos) {struct n} : option pos :=
         match n with
         | 0 => k p
         | S n' =>
             match run r1 (fun q =>
                             if Nat.ltb (String.length (rest q)) (String.length (rest p))
                             then iter n' q else None) p with
             | Some q => Some q
             | None => k p
             end
         end) (S (String.length (rest p))) p
  | Grp i r1 => run r1 (fun q => k (capture i p q)) p
  | Bol => match before p with None => k p | Some _ => None end
  | Eol => match rest p with EmptyString => k p | String _ _ => None end
  | Wb => if xorb (isWordAt (before p)) (isWordAt (nextChar (rest p))) then k p else None
  end.

(** A match at exactly this position. *)
Definition matchAt (r : regex) (b : option ascii) (s : string) : option pos :=
  run r (fun q => Some q) (mkPos b s []).

(** The result of [RegExp.prototype.exec]: where the match starts, what
    follows it, and the groups. *)
Record found : Type := mkFound
  { index : nat;
    after : string;
    groups : list (nat * string) }.

Fixpoint searchFrom (r : regex) (b : option ascii) (s : string) (i : nat) : option found :=
  match matchAt r b s with
  | Some q => Some (mkFound i (rest q) (caps q))
  | None =>
      match s with
      | String c t => searchFrom r (Some c) t (S i)
      | EmptyString => None
      end
  end.

(** [s.match(r)] for a pattern without the [g] flag. *)
Definition exec (r : regex) (s : string) : option found := searchFrom r None s 0.

Definition test (r : regex) (s : string) : bool :=
  match exec r s with Some _ => true | None => false end.

(** [m[i]] for a group that took part in the match; every group of the
    patterns below does whenever the pattern matches. *)
Fixpoint lookupGroup (i : nat) (g : list (nat * string)) : string :=
  match g with
  | (j, s) :: g' => if Nat.eqb i j then s else lookupGroup i g'
  | [] => EmptyString
  end.

Definition group (m : found) (i : nat) : string := lookupGroup i (groups m).

(** [s.replace(r, by)] for a pattern without the [g] flag and a
    replacement text without [$]: the first match only. *)
Definition replace (r : regex) (by_ : string) (s : string) : string :=
  match exec r s with
  | Some m => sliceTo (index m) s ++ by_ ++ after m
  | None => s
  end.

(** [s.split(r)] for a pattern without groups.  [piece] is the text since
    the end of the last separator; [skip] counts the characters of the
    separator that are still to be passed. *)
Fixpoint splitFrom (r : regex) (b : option ascii) (s : string) (skip : nat)
         (piece : string) : list string :=
  match s with
  | EmptyString => [piece]
  | String c t =>
      match skip with
      | S k => splitFrom r (Some c) t k piece
      | 0 =>
          match matchAt r b s with
          | None => splitFrom r (Some c) t 0 (piece ++ String c EmptyString)
          | Some q =>
              match String.length s - String.length (rest q) with
              | 0 =>
                  (* an empty match: no separator at the start of a piece *)
                  match piece with
                  | EmptyString => splitFrom r (Some c) t 0 (String c EmptyString)
                  | _ => piece :: splitFrom r (Some c) t 0 (String c EmptyString)
                  end
              | S k => piece :: splitFrom r (Some c) t k EmptyString
              end
          end
      end
  end.

Definition split (r : regex) (s : string) : list string :=
  match s with
  | EmptyString =>
      match matchAt r None s with Some _ => [] | None => [EmptyString] end
  | _ => splitFrom r None s 0 EmptyString
  end.

End RegExp.

(* ================================================================== *)
(** * script/release-notes/notes.js *)
(* ================================================================== *)

Module Notes.
Import JS RegExp.

Definition LF : ascii := "010"%char.
Definition CR : ascii := "013"%char.
Definition nl : string := String LF EmptyString.

Definition NO_NOTES : string := "No notes".
Definition FOLLOW_REPOS : list string :=
  [ "electron/electron"; "electron/libchromiumcontent"; "electron/node" ].

Definition breakTypes : list string := [ "breaking-change" ].
Definition docTypes : list string := [ "doc"; "docs" ].
Definition featTypes : list string := [ "feat"; "feature" ].
Definition fixTypes : list string := [ "fix" ].
Definition otherTypes : list string :=
  [ "spec"; "build"; "test"; "chore"; "deps"; "refactor"; "tools"; "vendor";
    "perf"; "style"; "ci" ].
Definition knownTypes : list string :=
  breakTypes ++ docTypes ++ featTypes ++ fixTypes ++ otherTypes.

(** [set.has(s)] and [array.includes(s)] on strings. *)
Definition has (set : list string) (s : string) : bool := existsb (String.eqb s) set.

(** ** The patterns of the script

    Each pattern is preceded by its source text; there, a blank is put
    between a star and a closing parenthesis. *)

Fixpoint Seq (l : list regex) : regex :=
  match l with
  | [] => Eps
  | [r] => r
  | r :: l' => Cat r (Seq l')
  end.

Fixpoint AnyOf (l : list string) : regex :=
  match l with
  | [] => Cls (fun _ => false)
  | [s] => Lit s
  | s :: l' => Alt (Lit s) (AnyOf l')
  end.

(** "/\r?\n\r?\n/" *)
Definition reParagraphs : regex := Seq [Opt (Chr CR); Chr LF; Opt (Chr CR); Chr LF].
(** "/\r?\n/" *)
Definition reNewline : regex := Seq [Opt (Chr CR); Chr LF].
(** "/^[Nn]o[ _-][Nn]otes\.?$/" *)
Definition reNoNotes : regex :=
  Seq [Bol; OneOf "Nn"; Chr "o"; OneOf " _-"; OneOf "Nn"; Lit "otes"; Opt (Chr "."); Eol].
(** "/^[Nn]one\.?$/" *)
Definition reNone : regex := Seq [Bol; OneOf "Nn"; Lit "one"; Opt (Chr "."); Eol].
(** "/^(.* )\s\(#(\d+)\)$/" *)
Definition rePrSuffix : regex :=
  Seq [Bol; Grp 1 (Star Dot); Space; Lit "(#"; Grp 2 (Plus Digit); Chr ")"; Eol].
(** "/^(\w+):\s(.* )$/" *)
Definition reSemantic : regex :=
  Seq [Bol; Grp 1 (Plus Word); Chr ":"; Space; Grp 2 (Star Dot); Eol].
(** "/^Merge pull request #(\d+) from (.* )$/" *)
Definition reMerge : regex :=
  Seq [Bol; Lit "Merge pull request #"; Grp 1 (Plus Digit); Lit " from "; Grp 2 (Star Dot); Eol].
(** "/\bBackport of #(\d+)\b/" *)
Definition reBackportOf : regex :=
  Seq [Wb; Lit "Backport of #"; Grp 1 (Plus Digit); Wb].
(** "/\b(?:close|closes|closed|fix|fixes|fixed|resolve|resolves|resolved|for)\s#(\d+)\b/" *)
Definition reIssue : regex :=
  Seq [Wb;
       AnyOf ["close"; "closes"; "closed"; "fix"; "fixes"; "fixed";
              "resolve"; "resolves"; "resolved"; "for"];
       Space; Chr "#"; Grp 1 (Plus Digit); Wb].
(** "/Fixes \[#(\d+)\]\(https:\/\/github.com\/(\w+)\/(\w+)\/issues\/(\d+)\)/";
    the dot of [github.com] is not escaped. *)
Definition reMarkdownFixes : regex :=
  Seq [Lit "Fixes [#"; Grp 1 (Plus Digit); Lit "](https://github"; Dot; Lit "com/";
       Grp 2 (Plus Word); Chr "/"; Grp 3 (Plus Word); Lit "/issues/";
       Grp 4 (Plus Digit); Chr ")"].
(** "/This reverts commit ([a-f0-9]{40})\./" *)
Definition isHexLower (c : ascii) : bool :=
  ((97 <=? code c)%N && (code c <=? 102)%N) || isDigit c.
Definition reRevert : regex :=
  Seq [Lit "This reverts commit "; Grp 1 (Rep 40 (Cls isHexLower)); Chr "."].
(** "/\b(\w+)\/(\w+)#(\d+)\b/" *)
Definition reRepoPull : regex :=
  Seq [Wb; Grp 1 (Plus Word); Chr "/"; Grp 2 (Plus Word); Chr "#"; Grp 3 (Plus Digit); Wb].
(** "/https:\/\/github\.com\/(\w+)\/(\w+)\/pull\/(\d+)/" *)
Definition rePullLink : regex :=
  Seq [Lit "https://github.com/"; Grp 1 (Plus Word); Chr "/"; Grp 2 (Plus Word);
       Lit "/pull/"; Grp 3 (Plus Digit)].
(** "/\bchore\((\w+)\):/" *)
Definition reChoreScope : regex :=
  Seq [Wb; Lit "chore("; Grp 1 (Plus Word); Lit "):"].
(** "/\b(?:fix|fixes|fixed)/" *)
Definition reFixWord : regex := Seq [Wb; AnyOf ["fix"; "fixes"; "fixed"]].
(** "/\[(?:docs|doc)\]/" *)
Definition reDocsTag : regex := Seq [Chr "["; AnyOf ["docs"; "doc"]; Chr "]"].
(** "/^[Bb]ump v\d+\.\d+\.\d+/" *)
Definition reBump : regex :=
  Seq [Bol; OneOf "Bb"; Lit "ump v"; Plus Digit; Chr "."; Plus Digit; Chr "."; Plus Digit].

(** ** Records *)

(** [commit.pr] and [commit.originalPr]: [{ owner, repo, number, branch }].
    [number] is whatever the rule that recorded it passed on: a number or
    a string. *)
Record pullRequest : Type := mkPullRequest
  { pr_owner : string;
    pr_repo : string;
    pr_number : value;
    pr_branch : option string }.

Record commit : Type := mkCommit
  { email : option string;
    hash : option string;
    owner : option string;
    repo : option string;
    parentHashes : option (list string);
    originalSubject : option string;
    body : option string;
    note : field string;
    pr : field pullRequest;
    originalPr : field pullRequest;
    type : option string;
    issueNumber : option number;
    revertHash : option string;
    subject : option string }.

(** The object literal [{}]. *)
Definition emptyCommit : commit :=
  mkCommit None None None None None None None undefined undefined undefined
           None None None None.

Definition set_originalSubject (v : option string) (c : commit) : commit :=
  mkCommit (email c) (hash c) (owner c) (repo c) (parentHashes c) v (body c) (note c)
           (pr c) (originalPr c) (type c) (issueNumber c) (revertHash c) (subject c).
Definition set_body (v : option string) (c : commit) : commit :=
  mkCommit (email c) (hash c) (owner c) (repo c) (parentHashes c) (originalSubject c) v
           (note c) (pr c) (originalPr c) (type c) (issueNumber c) (revertHash c) (subject c).
Definition set_note (v : field string) (c : commit) : commit :=
  mkCommit (email c) (hash c) (owner c) (repo c) (parentHashes c) (originalSubject c)
           (body c) v (pr c) (originalPr c) (type c) (issueNumber c) (revertHash c)
           (subject c).
Definition set_pr (v : field pullRequest) (c : commit) : commit :=
  mkCommit (email c) (hash c) (owner c) (repo c) (parentHashes c) (originalSubject c)
           (body c) (note c) v (originalPr c) (type c) (issueNumber c) (revertHash c)
           (subject c).
Definition set_originalPr (v : field pullRequest) (c : commit) : commit :=
  mkCommit (email c) (hash c) (owner c) (repo c) (parentHashes c) (originalSubject c)
           (body c) (note c) (pr c) v (type c) (issueNumber c) (revertHash c) (subject c).
Definition set_type (v : option string) (c : commit) : commit :=
  mkCommit (email c) (hash c) (owner c) (repo c) (parentHashes c) (originalSubject c)
           (body c) (note c) (pr c) (originalPr c) v (issueNumber c) (revertHash c)
           (subject c).
Definition set_issueNumber (v : option number) (c : commit) : commit :=
  mkCommit (email c) (hash c) (owner c) (repo c) (parentHashes c) (originalSubject c)
           (body c) (note c) (pr c) (originalPr c) (type c) v (revertHash c) (subject c).
Definition set_revertHash (v : option string) (c : commit) : commit :=
  mkCommit (email c) (hash c) (owner c) (repo c) (parentHashes c) (originalSubject c)
           (body c) (note c) (pr c) (originalPr c) (type c) (issueNumber c) v (subject c).
Definition set_subject (v : option string) (c : commit) : commit :=
  mkCommit (email c) (hash c) (owner c) (repo c) (parentHashes c) (originalSubject c)
           (body c) (note c) (pr c) (originalPr c) (type c) (issueNumber c) (revertHash c) v.

(** ** Truthiness of the properties *)

Definition isSet {A : Type} (f : field A) : bool :=
  match f with val _ => true | _ => false end.

Definition truthyText (o : option string) : bool :=
  match o with Some s => truthyString s | None => false end.

Definition truthyNote (f : field string) : bool :=
  match f with val s => truthyString s | _ => false end.

Definition truthyIssue (o : option number) : bool :=
  match o with Some n => truthyNumber n | None => false end.

(** ** setPullRequest *)

(** The two [if (!commit.originalPr)] lines make [originalPr] the first
    pull request the record ever had: the one it has before the call, or
    else the new one.  In the latter case [pr] and [originalPr] are one
    and the same object. *)
Definition setPullRequest (c : commit) (owner repo : string) (number : value)
  : result commit :=
  if negb (truthyString owner) || negb (truthyString repo) || negb (truthy number)
  then (* the message of the script is the JSON text of the three values *)
       Throw "setPullRequest: owner, repo or number is missing"
  else
    let c1 := if negb (isSet (originalPr c)) then set_originalPr (pr c) c else c in
    let new := mkPullRequest owner repo number None in
    let c2 := set_pr (val new) c1 in
    Ok (if negb (isSet (originalPr c2)) then set_originalPr (val new) c2 else c2).

(** [commit.pr.branch = b], right after a call of [setPullRequest] on
    [before]: the object written to is the one that call created, and
    [originalPr] is that same object exactly when [before] had neither a
    [pr] nor an [originalPr]. *)
Definition set_pr_branch (before : commit) (b : string) (c : commit) : result commit :=
  match pr c with
  | val p =>
      let p' := mkPullRequest (pr_owner p) (pr_repo p) (pr_number p) (Some b) in
      let c' := set_pr (val p') c in
      Ok (if negb (isSet (originalPr before)) && negb (isSet (pr before))
          then set_originalPr (val p') c' else c')
  | _ => Throw "TypeError: cannot set property branch"
  end.

(** ** getNoteFromBody *)

Definition NOTE_PREFIX : string := "Notes: ".
Definition placeholder : string := "<!-- One-line Change Summary Here-->".

(** The paragraphs of a text, trimmed. *)
Definition paragraphs (s : string) : list string := map trim (split reParagraphs s).

(** The chain [slice / replace / replace / trim] applied to the paragraph
    that was found. *)
Definition cleanNote (paragraph : string) : string :=
  trim (replace reNewline " "
          (replaceString (sliceFrom (String.length NOTE_PREFIX) paragraph) placeholder "")).

Definition getNoteFromBody (body : field string) : field string :=
  if negb (truthyNote body) then null
  else
    match body with
    | val b =>
        let found : field string :=
          match find (fun paragraph => startsWith paragraph NOTE_PREFIX) (paragraphs b) with
          | Some paragraph => val paragraph
          | None => undefined
          end in
        let note : field string :=
          match found with
          | val paragraph => if truthyString paragraph then val (cleanNote paragraph) else found
          | _ => found
          end in
        match note with
        | val text =>
            if truthyString text then
              if test reNoNotes text then val NO_NOTES
              else if test reNone text then val NO_NOTES
              else note
            else note
        | _ => note
        end
    | _ => null
    end.

(** ** parseCommitMessage *)

Notation "x <- m ;; k" := (bind m (fun x => k))
  (at level 61, m at next level, right associativity).

(** Split [commitMessage] into subject and body at the first line feed. *)
Definition splitMessage (commitMessage : string) : string * string :=
  match indexOf commitMessage nl with
  | Some pos => (trim (sliceTo pos commitMessage), trim (sliceFrom pos commitMessage))
  | None => (commitMessage, EmptyString)
  end.

(** [if (!commit.originalSubject) commit.originalSubject = subject] *)
Definition keepOriginalSubject (subject : string) (c : commit) : commit :=
  if negb (truthyText (originalSubject c)) then set_originalSubject (Some subject) c else c.

(** [if (body) { commit.body = body; ... if (note) commit.note = note }] *)
Definition recordBody (body : string) (c : commit) : commit :=
  if truthyString body then
    let c1 := set_body (Some body) c in
    let note := getNoteFromBody (val body) in
    if truthyNote note then set_note note c1 else c1
  else c.

(** 'some description (#99999)': sets [pr], strips the suffix. *)
Definition rulePrSuffix (owner repo subject : string) (c : commit)
  : result (string * commit) :=
  match exec rePrSuffix subject with
  | Some m =>
      c' <- setPullRequest c owner repo (NumV (parseInt (group m 2))) ;;
      Ok (group m 1, c')
  | None => Ok (subject, c)
  end.

(** 'semantic: some description': sets [type], strips the prefix. *)
Definition ruleSemantic (subject : string) (c : commit) : string * commit :=
  match exec reSemantic subject with
  | Some m => (group m 2, set_type (Some (toLowerCase (group m 1))) c)
  | None => (subject, c)
  end.

(** 'Merge pull request #99999 from branchname': sets [pr] and its branch. *)
Definition ruleMerge (owner repo subject : string) (c : commit) : result commit :=
  match exec reMerge subject with
  | Some m =>
      c' <- setPullRequest c owner repo (NumV (parseInt (group m 1))) ;;
      set_pr_branch c (trim (group m 2)) c'
  | None => Ok c
  end.

(** 'Backport of #99999' (a trop comment): sets [pr]. *)
Definition ruleBackportOf (commitMessage owner repo : string) (c : commit) : result commit :=
  match exec reBackportOf commitMessage with
  | Some m => setPullRequest c owner repo (NumV (parseInt (group m 1)))
  | None => Ok c
  end.

Definition defaultToFix (c : commit) : commit :=
  if negb (truthyText (type c)) then set_type (Some "fix") c else c.

(** 'Fixes #3333' in the subject: sets [issueNumber]. *)
Definition ruleIssue (subject : string) (c : commit) : commit :=
  match exec reIssue subject with
  | Some m => defaultToFix (set_issueNumber (Some (parseInt (group m 1))) c)
  | None => c
  end.

(** [x && x.number === commit.issueNumber] *)
Definition isIssue (x : field pullRequest) (issue : number) : bool :=
  match x with
  | val p => strictEq (pr_number p) (NumV issue)
  | _ => false
  end.

(** 'Fixes [#8952](https://github.com/electron/electron/issues/8952)'
    anywhere in the message, when there is no issue number yet: sets
    [issueNumber], and forgets a pull request that carries that number. *)
Definition ruleMarkdownFixes (commitMessage : string) (c : commit) : commit :=
  if negb (truthyIssue (issueNumber c)) then
    match exec reMarkdownFixes commitMessage with
    | Some m =>
        let n := parseInt (group m 1) in
        let c1 := set_issueNumber (Some n) c in
        let c2 := if isIssue (pr c1) n then set_pr null c1 else c1 in
        let c3 := if isIssue (originalPr c2) n then set_originalPr null c2 else c2 in
        defaultToFix c3
    | None => c
    end
  else c.

(** Some paragraph of the message starts with 'BREAKING CHANGE'. *)
Definition hasBreakingChange (commitMessage : string) : bool :=
  existsb (fun paragraph => startsWith paragraph "BREAKING CHANGE") (paragraphs commitMessage).

Definition ruleBreaking (commitMessage : string) (c : commit) : commit :=
  if hasBreakingChange commitMessage then set_type (Some "breaking-change") c else c.

(** 'This reverts commit sha.' in the body: sets [revertHash]. *)
Definition ruleRevert (body : string) (c : commit) : commit :=
  match exec reRevert body with
  | Some m => set_revertHash (Some (group m 1)) c
  | None => c
  end.

(** The pull request the groups of a match name, if its repository is one
    of [FOLLOW_REPOS]; [number] is the matched text itself. *)
Definition followMatch (m : found) (c : commit) : result commit :=
  let owner := group m 1 in
  let repo := group m 2 in
  let number := group m 3 in
  if has FOLLOW_REPOS (owner ++ "/" ++ repo)
  then setPullRequest c owner repo (StrV number)
  else Ok c.

(** Manual backport with the notation 'owner/repo#pull'. *)
Definition ruleManualBackport (commitMessage : string) (c : commit) : result commit :=
  if includes (toLowerCase commitMessage) "backport" then
    match exec reRepoPull commitMessage with
    | Some m => followMatch m c
    | None => Ok c
    end
  else Ok c.

(** Manual backport with a link to the backport pull request. *)
Definition ruleBackportLink (commitMessage : string) (c : commit) : result commit :=
  if includes commitMessage "ackport" then
    match exec rePullLink commitMessage with
    | Some m => followMatch m c
    | None => Ok c
    end
  else Ok c.

(** [!commit.type || commit.type === 'chore'] *)
Definition isLegacy (c : commit) : bool :=
  negb (truthyText (type c)) ||
  match type c with Some t => String.eqb t "chore" | None => false end.

(** Legacy commits, from before semantic commit messages. *)
Definition ruleLegacy (commitMessage : string) (c : commit) : commit :=
  if isLegacy c then
    let commitMessageLC := toLowerCase commitMessage in
    match exec reChoreScope commitMessageLC with
    | Some m =>
        set_type (Some (if has knownTypes (group m 1) then group m 1 else "chore")) c
    | None =>
        if test reFixWord commitMessageLC then set_type (Some "fix") c
        else if test reDocsTag commitMessageLC then set_type (Some "doc") c
        else c
    end
  else c.

Definition parseCommitMessage (commitMessage owner repo : string)
  : commit -> result commit := fun commit =>
  let '(subject, body) := splitMessage commitMessage in
  let commit := keepOriginalSubject subject commit in
  let commit := recordBody body commit in
  sc <- rulePrSuffix owner repo subject commit ;;
  let '(subject, commit) := sc in
  let '(subject, commit) := ruleSemantic subject commit in
  commit <- ruleMerge owner repo subject commit ;;
  commit <- ruleBackportOf commitMessage owner repo commit ;;
  let commit := ruleIssue subject commit in
  let commit := ruleMarkdownFixes commitMessage commit in
  let commit := ruleBreaking commitMessage commit in
  let commit := ruleRevert body commit in
  commit <- ruleManualBackport commitMessage commit ;;
  commit <- ruleBackportLink commitMessage commit ;;
  let commit := ruleLegacy commitMessage commit in
  Ok (set_subject (Some (trim subject)) commit).

(** ** The pool *)

(** [processedHashes] is a [Set]; its elements are the [hash] properties
    that were added, kept in insertion order. *)
Definition hashEq (a b : option string) : bool :=
  match a, b with
  | Some x, Some y => String.eqb x y
  | None, None => true
  | _, _ => false
  end.

Definition setHas (s : list (option string)) (h : option string) : bool :=
  existsb (hashEq h) s.

Definition setAdd (h : option string) (s : list (option string)) : list (option string) :=
  if setHas s h then s else s ++ [h].

Record pool : Type := mkPool
  { processedHashes : list (option string);
    commits : list commit }.

(** [pool.commits.filter(commit => !pool.processedHashes.has(commit.hash))] *)
Definition removeOldCommits (p : pool) : pool :=
  mkPool (processedHashes p)
         (filter (fun commit => negb (setHas (processedHashes p) (hash commit))) (commits p)).

(** [array.find(f)], as the index of the element found. *)
Fixpoint findIndex {A : Type} (f : A -> bool) (l : list A) : option nat :=
  match l with
  | [] => None
  | x :: l' => if f x then Some 0 else option_map S (findIndex f l')
  end.

(** Assignment to a property of the [i]-th element of an array. *)
Fixpoint updateAt {A : Type} (i : nat) (f : A -> A) (l : list A) : list A :=
  match l, i with
  | [], _ => []
  | x :: l', 0 => f x :: l'
  | x :: l', S k => x :: updateAt k f l'
  end.

(** The body of the loop "if a commit and its revert both occurred in the
    unprocessed set, skip them both", for the commit at index [i].  The
    records of the pool are distinct objects, one per commit read from the
    log. *)
Definition cancelAt (p : pool) (i : nat) : pool :=
  match nth_error (commits p) i with
  | None => p
  | Some commit =>
      match revertHash commit with
      | Some revertHash =>
          if truthyString revertHash then
            match findIndex (fun c => hashEq (hash c) (Some revertHash)) (commits p) with
            | Some j =>
                mkPool (setAdd (Some revertHash) (setAdd (hash commit) (processedHashes p)))
                       (updateAt j (set_note (val NO_NOTES))
                          (updateAt i (set_note (val NO_NOTES)) (commits p)))
            | None => p
            end
          else p
      | None => p
      end
  end.

(** [for (const commit of pool.commits) { ... }] *)
Definition cancelReverts (p : pool) : pool :=
  fold_left cancelAt (seq 0 (List.length (commits p))) p.

(** ** Notes from pull requests *)

(** What the GitHub API answers for a pull request. *)
Record pullData : Type := mkPullData
  { title : string;
    pull_body : field string }.

Record response : Type := mkResponse
  { data : option pullData }.

(** A property spliced into a template literal. *)
Definition spliced (f : field string) : string :=
  match f with
  | val s => s
  | null => "null"
  | undefined => "undefined"
  end.

Section PullRequests.

(** [getPullRequest (number, owner, repo)]: the cached or fetched answer,
    nothing on a 404, an exception on any other failure. *)
Variable getPullRequest : value -> string -> string -> result (option response).

(** One turn of [while (pr && !commit.note)]: either the loop is left
    with the record as it is then, or it goes on with a new [pr]. *)
Definition followOnce (p : pullRequest)
  : commit -> result (commit + field pullRequest * commit) := fun commit =>
  prData <- getPullRequest (pr_number p) (pr_owner p) (pr_repo p) ;;
  match prData with
  | Some (mkResponse (Some d)) =>
      let commit := set_note (getNoteFromBody (pull_body d)) commit in
      if truthyNote (note commit) then Ok (inl commit)
      else
        commit <- parseCommitMessage (title d ++ nl ++ nl ++ spliced (pull_body d))
                    (pr_owner p) (pr_repo p) commit ;;
        match pr commit with
        | val p' =>
            Ok (inr (if negb (strictEq (pr_number p) (pr_number p')) then pr commit else null,
                     commit))
        | _ => Throw "TypeError: cannot read property number"
        end
  | _ => Ok (inl commit)
  end.

(** The loop itself, for at most [fuel] turns; [None] when it is still
    running after them. *)
Fixpoint followLoop (fuel : nat) (cursor : field pullRequest) (c : commit)
  : option (result commit) :=
  match cursor with
  | val p =>
      if negb (truthyNote (note c)) then
        match fuel with
        | 0 => None
        | S fuel' =>
            match followOnce p c with
            | Throw e => Some (Throw e)
            | Ok (inl c') => Some (Ok c')
            | Ok (inr (cursor', c')) => followLoop fuel' cursor' c'
            end
        end
      else Some (Ok c)
  | _ => Some (Ok c)
  end.

(** [let pr = commit.pr; while (...) { ... }] for one commit. *)
Definition scrapeCommit (fuel : nat) (c : commit) : option (result commit) :=
  followLoop fuel (pr c) c.

(** The same for every commit of the pool, in order. *)
Fixpoint scrapeCommits (fuel : nat) (l : list commit) : option (result (list commit)) :=
  match l with
  | [] => Some (Ok [])
  | commit :: l' =>
      match scrapeCommit fuel commit with
      | None => None
      | Some (Throw e) => Some (Throw e)
      | Some (Ok commit') =>
          match scrapeCommits fuel l' with
          | None => None
          | Some (Throw e) => Some (Throw e)
          | Some (Ok l'') => Some (Ok (commit' :: l''))
          end
      end
  end.

End PullRequests.

(** ** Uninteresting commits and buckets *)

(** [commit.note === NO_NOTES] *)
Definition isNoNotes (commit : commit) : bool :=
  match note commit with
  | val s => String.eqb s NO_NOTES
  | _ => false
  end.

(** [commit.note || commit.subject] *)
Definition noteOrSubject (commit : commit) : option string :=
  if truthyNote (note commit) then
    match note commit with val s => Some s | _ => None end
  else subject commit.

(** [.filter(commit => !(commit.note || commit.subject).match(...))] *)
Fixpoint dropBumps (l : list commit) : result (list commit) :=
  match l with
  | [] => Ok []
  | commit :: l' =>
      match noteOrSubject commit with
      | Some text =>
          l'' <- dropBumps l' ;;
          Ok (if test reBump text then l'' else commit :: l'')
      | None => Throw "TypeError: cannot read property match"
      end
  end.

Definition removeUninteresting (l : list commit) : result (list commit) :=
  dropBumps (filter (fun commit => negb (isNoNotes commit)) l).

Record notes : Type := mkNotes
  { breaks : list commit;
    docs : list commit;
    feat : list commit;
    fix_ : list commit;          (* [fix], a keyword here *)
    other : list commit;
    unknown : list commit;
    ref : string }.

Inductive bucket : Type := Breaks | Docs | Feat | Fix | Other | Unknown.

Definition bucketOf (commit : commit) : bucket :=
  match type commit with
  | Some str =>
      if negb (truthyString str) then Unknown
      else if has breakTypes str then Breaks
      else if has docTypes str then Docs
      else if has featTypes str then Feat
      else if has fixTypes str then Fix
      else if has otherTypes str then Other
      else Unknown
  | None => Unknown
  end.

Definition isBucket (a b : bucket) : bool :=
  match a, b with
  | Breaks, Breaks | Docs, Docs | Feat, Feat | Fix, Fix | Other, Other
  | Unknown, Unknown => true
  | _, _ => false
  end.

Definition inBucket (b : bucket) (l : list commit) : list commit :=
  filter (fun commit => isBucket (bucketOf commit) b) l.

Definition classify (l : list commit) (toRef : string) : notes :=
  mkNotes (inBucket Breaks l) (inBucket Docs l) (inBucket Feat l) (inBucket Fix l)
          (inBucket Other l) (inBucket Unknown l) toRef.

(** ** Walking the repositories *)

(** [s.split(sep)] for a separator string that is not empty. *)
Fixpoint splitOnFrom (sep s : string) (skip : nat) (piece : string) : list string :=
  match s with
  | EmptyString => [piece]
  | String c t =>
      match skip with
      | S k => splitOnFrom sep t k piece
      | 0 =>
          if prefix sep s
          then piece :: splitOnFrom sep t (String.length sep - 1) EmptyString
          else splitOnFrom sep t 0 (piece ++ String c EmptyString)
      end
  end.

Definition splitOn (sep s : string) : list string := splitOnFrom sep s 0 EmptyString.

Definition NUL : string := String "000"%char EmptyString.

(** [{ owner, repo, dir }] *)
Record module : Type := mkModule
  { module_owner : string;
    module_repo : string;
    dir : string }.

(** [semver.parse]: what the semver package makes of a string.  Only the
    major number matters here. *)
Record SemVer : Type := mkSemVer
  { major : N;
    minor : N;
    patch : N }.

Section Repositories.

(** The collaborators: git, the file system, the semver package, and the
    lookup of a variable of a DEPS file. *)
Variable gitExec : string -> list string -> result string.
Variable semver_parse : string -> option SemVer.
Variable gitDir : string.
Variable vendorDir : string -> string.    (* path.resolve(gitDir, 'vendor', name) *)
Variable nodeDir : string.                (* path.resolve(gitDir, '..', 'third_party', 'electron_node') *)
Variable useGyp : bool.                   (* fs.existsSync(<vendor/libchromiumcontent>) *)
Variable getGypSubmoduleRef : string -> string -> result string.
Variable getDepsVariable : string -> string -> result string.

(** [runGit] throws on a non-zero exit code and trims the output
    otherwise; both are folded into [gitExec]. *)
Definition runGit (dir : string) (args : list string) : result string :=
  out <- gitExec dir args ;; Ok (trim out).

Definition getCommonAncestor (dir point1 point2 : string) : result string :=
  runGit dir ["merge-base"; point1; point2].

Definition getLocalCommitHashes (dir ref : string) : result (list string) :=
  out <- runGit dir ["log"; "-z"; "--format=%H"; ref] ;;
  Ok (map trim (splitOn NUL out)).

Definition fieldSep : string := "||".

(** [commit.split(fieldSep, 4).map(field => field.trim())], then the
    record for one commit of the log. *)
Definition commitDetails (m : module) (commit : string) : result Notes.commit :=
  match map trim (firstn 4 (splitOn fieldSep commit)) with
  | [hash; parentHashes; email; commitMessage] =>
      parseCommitMessage commitMessage (module_owner m) (module_repo m)
        (mkCommit (Some email) (Some hash) (Some (module_owner m)) (Some (module_repo m))
                  (Some [parentHashes]) None None undefined undefined undefined
                  None None None None)
  | _ => Throw "TypeError: a field of the log entry is undefined"
  end.

Fixpoint eachCommit (m : module) (l : list string) : result (list Notes.commit) :=
  match l with
  | [] => Ok []
  | commit :: l' =>
      if negb (truthyString commit) then eachCommit m l'
      else
        d <- commitDetails m commit ;;
        details <- eachCommit m l' ;;
        Ok (d :: details)
  end.

Definition getLocalCommitDetails (m : module) (point1 point2 : string)
  : result (list Notes.commit) :=
  out <- runGit (dir m)
           ["log"; "-z"; "--cherry-pick"; "--right-only"; "--first-parent";
            "--format=%H||%P||%aE||%B"; (point1 ++ ".." ++ point2)%string] ;;
  eachCommit m (map trim (splitOn NUL out)).

Definition addRepoToPool (p : pool) (repo : module) (from to : string) : result pool :=
  commonAncestor <- getCommonAncestor (dir repo) from to ;;
  oldHashes <- getLocalCommitHashes (dir repo) from ;;
  let processed := fold_left (fun set hash => setAdd (Some hash) set) oldHashes
                     (processedHashes p) in
  details <- getLocalCommitDetails repo commonAncestor to ;;
  Ok (mkPool processed (commits p ++ details)).

Fixpoint addDependencies (refOf : module -> string -> result string)
         (repos : list module) (p : pool) (fromRef toRef : string) : result pool :=
  match repos with
  | [] => Ok p
  | repo :: repos' =>
      from <- refOf repo fromRef ;;
      to <- refOf repo toRef ;;
      p' <- addRepoToPool p repo from to ;;
      addDependencies refOf repos' p' fromRef toRef
  end.

Definition getDependencyCommitsGyp (p : pool) (fromRef toRef : string) : result pool :=
  addDependencies (fun repo point => getGypSubmoduleRef (dir repo) point)
    [ mkModule "electron" "libchromiumcontent" (vendorDir "libchromiumcontent");
      mkModule "electron" "node" (vendorDir "node") ]
    p fromRef toRef.

Definition getDependencyCommitsGN (p : pool) (fromRef toRef : string) : result pool :=
  addDependencies (fun _ ref => getDepsVariable ref "node_version")
    [ mkModule "electron" "node" nodeDir ]
    p fromRef toRef.

Definition getDependencyCommits (p : pool) (from to : string) : result pool :=
  if useGyp then getDependencyCommitsGyp p from to else getDependencyCommitsGN p from to.

(** [semver.valid(v)]: the parsed version or null; only its truthiness is
    used, and a parsed version is never the empty string. *)
Definition semver_valid (v : string) : bool :=
  match semver_parse v with Some _ => true | None => false end.

(** [semver.major(v)] throws on a string that is not a version. *)
Definition semver_major (v : string) : result N :=
  match semver_parse v with
  | Some sv => Ok (major sv)
  | None => Throw "TypeError: Invalid Version"
  end.

(** [semver.valid(fromRef) && semver.valid(toRef) &&
     semver.major(fromRef) === semver.major(toRef)] *)
Definition includeDeps (fromRef toRef : string) : result bool :=
  if semver_valid fromRef then
    if semver_valid toRef then
      a <- semver_major fromRef ;;
      b <- semver_major toRef ;;
      Ok (a =? b)%N
    else Ok false
  else Ok false.

(** The first part of [getNotes]: the pool, before anything is removed
    from it. *)
Definition gatherCommits (fromRef toRef : string) : result pool :=
  let electron := mkModule "electron" "electron" gitDir in
  p <- addRepoToPool (mkPool [] []) electron fromRef toRef ;;
  deps <- includeDeps fromRef toRef ;;
  if deps then getDependencyCommits p fromRef toRef else Ok p.

Variable getPullRequest : value -> string -> string -> result (option response).

(** [getNotes], with at most [fuel] turns of the pull-request loop for
    each commit; [None] when some loop is still running after them. *)
Definition getNotes (fuel : nat) (fromRef toRef : string) : option (result notes) :=
  match gatherCommits fromRef toRef with
  | Throw e => Some (Throw e)
  | Ok p =>
      let p := cancelReverts (removeOldCommits p) in
      match scrapeCommits getPullRequest fuel (commits p) with
      | None => None
      | Some (Throw e) => Some (Throw e)
      | Some (Ok l) =>
          match removeUninteresting l with
          | Throw e => Some (Throw e)
          | Ok l' => Some (Ok (classify l' toRef))
          end
      end
  end.

End Repositories.

(** ** Rendering *)

(** [{ note, link }]; the note has a capital at its start. *)
Record renderedCommit : Type := mkRendered
  { r_note : text;
    r_link : string }.

Definition commonVerbs : list (string * list string) :=
  [ ("Added", ["Add"]);
    ("Backported", ["Backport"]);
    ("Cleaned", ["Clean"]);
    ("Disabled", ["Disable"]);
    ("Ensured", ["Ensure"]);
    ("Exported", ["Export"]);
    ("Fixed", ["Fix"; "Fixes"]);
    ("Handled", ["Handle"]);
    ("Improved", ["Improve"]);
    ("Made", ["Make"]);
    ("Removed", ["Remove"]);
    ("Repaired", ["Repair"]);
    ("Reverted", ["Revert"]);
    ("Stopped", ["Stop"]);
    ("Updated", ["Update"]);
    ("Upgraded", ["Upgrade"]) ].

Definition useVerb (key : string) (note : text) (value : string) : text :=
  let start := units (value ++ " ") in
  if Text.startsWith note start
  then units (key ++ " ") ++ skipn (List.length start) note
  else note.

Definition useVerbs (note : text) : text :=
  fold_left (fun note entry => fold_left (useVerb (fst entry)) (snd entry) note)
            commonVerbs note.

(** [note[0].toUpperCase() + note.substr(1)] *)
Definition capitalize (note : string) : text :=
  match note with
  | String c t => upperChar c ++ units t
  | EmptyString => []
  end.

Definition cleanUp (note : string) : text :=
  let note := trim note in
  if negb (Nat.eqb (String.length note) 0) then
    let note := capitalize note in
    let note := if negb (Text.endsWith note (units ".")) then note ++ units "." else note in
    useVerbs note
  else units note.

(** A property that may be absent, spliced into a template literal. *)
Definition splicedText (o : option string) : string :=
  match o with Some s => s | None => "undefined" end.

(** [array.sort()] with the default comparison, on strings: ascending by
    code units.  The result is the one sorted arrangement of the elements,
    whichever algorithm the engine uses. *)
Fixpoint insertSorted (x : string) (l : list string) : list string :=
  match l with
  | [] => [x]
  | y :: l' => if String.leb x y then x :: l else y :: insertSorted x l'
  end.

Definition sort (l : list string) : list string := fold_right insertSorted [] l.

(** The same on texts. *)
Fixpoint insertLine (x : text) (l : list text) : list text :=
  match l with
  | [] => [x]
  | y :: l' => if Text.leb x y then x :: l else y :: insertLine x l'
  end.

Definition sortLines (l : list text) : list text := fold_right insertLine [] l.

(** A [Map] from note text to links, in insertion order. *)
Definition mapHas (m : list (text * list string)) (key : text) : bool :=
  existsb (fun e => Text.eqb (fst e) key) m.

Fixpoint mapPush (m : list (text * list string)) (key : text) (link : string)
  : list (text * list string) :=
  match m with
  | [] => []
  | (k, links) :: m' =>
      if Text.eqb k key then (k, links ++ [link]) :: m'
      else (k, links) :: mapPush m' key link
  end.

Definition collect (m : list (text * list string)) (n : renderedCommit)
  : list (text * list string) :=
  if negb (mapHas m (r_note n)) then m ++ [(r_note n, [r_link n])]
  else mapPush m (r_note n) (r_link n).

Definition bullet (entry : text * list string) : text :=
  units " * " ++ fst entry ++ units (" " ++ join ", " (sort (snd entry)) ++ nl).

Section Render.

(** [String(n)] for a number; part of the language, not of the script. *)
Variable numberToString : number -> string.

Definition splicedValue (v : value) : string :=
  match v with
  | NumV n => numberToString n
  | StrV s => s
  end.

Definition linkOf (commit : commit) : string :=
  match originalPr commit with
  | val p =>
      if String.eqb (pr_owner p) "electron" && String.eqb (pr_repo p) "electron"
      then ("#" ++ splicedValue (pr_number p))%string
      else ("[" ++ pr_owner p ++ "/" ++ pr_repo p ++ ":" ++ splicedValue (pr_number p)
            ++ "](https://github.com/" ++ pr_owner p ++ "/" ++ pr_repo p ++ "/pull/"
            ++ splicedValue (pr_number p) ++ ")")%string
  | _ =>
      ("https://github.com/" ++ splicedText (owner commit) ++ "/"
       ++ splicedText (repo commit) ++ "/commit/" ++ splicedText (hash commit))%string
  end.

Definition renderCommit (commit : commit) : result renderedCommit :=
  match noteOrSubject commit with
  | Some note => Ok (mkRendered (cleanUp note) (linkOf commit))
  | None => Throw "TypeError: cannot read property trim"
  end.

Fixpoint renderCommits (l : list commit) : result (list renderedCommit) :=
  match l with
  | [] => Ok []
  | commit :: l' =>
      n <- renderCommit commit ;;
      ns <- renderCommits l' ;;
      Ok (n :: ns)
  end.

(** The bullet lines of a section, sorted. *)
Definition sectionLines (ns : list renderedCommit) : list text :=
  sortLines (map bullet (fold_left collect ns [])).

(** What [renderSection (title, commits)] pushes onto [rendered]. *)
Definition renderSection (title : string) (l : list commit) : result (list text) :=
  if Nat.eqb (List.length l) 0 then Ok []
  else
    ns <- renderCommits l ;;
    Ok ((units ("## " ++ title ++ nl ++ nl) :: sectionLines ns) ++ [units nl]).

Definition docLink (commit : commit) : string :=
  match pr commit with
  | val p =>
      if truthy (pr_number p) then ("#" ++ splicedValue (pr_number p))%string
      else ("https://github.com/electron/electron/commit/" ++ splicedText (hash commit))%string
  | _ => ("https://github.com/electron/electron/commit/" ++ splicedText (hash commit))%string
  end.

Definition renderDocs (l : list commit) : list string :=
  if negb (Nat.eqb (List.length l) 0) then
    [ ("## Documentation" ++ nl ++ nl)%string;
      (" * Documentation changes: " ++ join ", " (sort (map docLink l)) ++ nl)%string;
      nl ]
  else [].

(** [rendered.join('')] is the concatenation of the pieces. *)
Definition renderNotes (n : notes) : result text :=
  let header := [units ("# Release Notes for " ++ ref n ++ nl ++ nl)] in
  s1 <- renderSection "Breaking Changes" (breaks n) ;;
  s2 <- renderSection "Features" (feat n) ;;
  s3 <- renderSection "Fixes" (fix_ n) ;;
  s4 <- renderSection "Other Changes" (other n) ;;
  let s5 := map units (renderDocs (docs n)) in
  s6 <- renderSection "Unknown" (unknown n) ;;
  Ok (concat (header ++ s1 ++ s2 ++ s3 ++ s4 ++ s5 ++ s6)).

End Render.

(** ** The reference of a submodule *)

Section Gyp.

Variable gitExec : string -> list string -> result string.
(** [path.dirname] and [path.basename] *)
Variable dirname : string -> string.
Variable basename : string -> string.

(** The commit a submodule points to at [point], read from a line of
    [git ls-tree] such as
    '160000 commit 028b0af83076cec898f4ebce208b7fadb715656e libchromiumcontent';
    null when there is no such line or it has fewer than three tokens. *)
Definition getGypSubmoduleRef (dir point : string) : result (field string) :=
  response <- runGit gitExec (dirname dir) ["ls-tree"; "-t"; point; basename dir] ;;
  let line := find (fun line => startsWith line "160000") (splitOn nl response) in
  let tokens :=
    match line with
    | Some line => if truthyString line then Some (map trim (split Space line)) else None
    | None => None
    end in
  Ok (match tokens with
      | Some tokens =>
          if Nat.leb 3 (List.length tokens)
          then match nth_error tokens 2 with Some ref => val ref | None => undefined end
          else null
      | None => null
      end).

End Gyp.

(** ** The cache of pull requests *)

(** The files of the cache directory, by path; the entry nearest the head
    is the file as it is now. *)
Definition files : Type := list (string * string).

Fixpoint readFile (fs : files) (filename : string) : option string :=
  match fs with
  | [] => None
  | (name, content) :: fs' => if String.eqb name filename then Some content else readFile fs' filename
  end.

Definition existsSync (fs : files) (filename : string) : bool :=
  match readFile fs filename with Some _ => true | None => false end.

Definition writeFile (fs : files) (filename content : string) : files :=
  (filename, content) :: fs.

(** What [github.pullRequests.get] comes back with: a response, or an
    error with its [code]. *)
Inductive answer : Type :=
| Got : response -> answer
| Failed : N -> string -> answer.

Section Cache.

(** [path.resolve (CACHE_DIR, name)], [JSON.stringify] and [JSON.parse] on
    responses, [String(n)]. *)
Variable resolve : string -> string.
Variable JSON_stringify : response -> string.
Variable JSON_parse : string -> result response.
Variable numberToString : number -> string.

(** [checkCache (name, operation)]: the content of the file if there is
    one, else what [operation] gives, written to the file unless it is
    undefined. *)
Definition checkCache (name : string) (operation : unit -> result (option response))
           (fs : files) : result (option response) * files :=
  let filename := resolve name in
  if existsSync fs filename then
    match readFile fs filename with
    | Some content => (r <- JSON_parse content ;; Ok (Some r), fs)
    | None => (Throw "ENOENT", fs)
    end
  else
    match operation tt with
    | Throw e => (Throw e, fs)
    | Ok response =>
        match response with
        | Some r => (Ok response, writeFile fs filename (JSON_stringify r))
        | None => (Ok response, fs)
        end
    end.

(** The name of the file of a pull request. *)
Definition cacheName (number : value) (owner repo : string) : string :=
  owner ++ "-" ++ repo ++ "-pull-" ++ splicedValue numberToString number.

(** [getPullRequest (number, owner, repo)], with the GitHub client [get]:
    a 404 is eaten and gives undefined, any other error is thrown on. *)
Definition getPullRequest (get : value -> string -> string -> answer)
           (number : value) (owner repo : string) (fs : files)
  : result (option response) * files :=
  checkCache (cacheName number owner repo)
    (fun _ =>
       match get number owner repo with
       | Got r => Ok (Some r)
       | Failed code message => if negb (code =? 404)%N then Throw message else Ok None
       end)
    fs.

End Cache.

(** ** The map of legacy pull requests *)

(** [map.set (key, value)] and [map.get (key)] on a [Map], kept in
    insertion order. *)
Fixpoint mapSet (m : list (string * string)) (key value : string) : list (string * string) :=
  match m with
  | [] => [(key, value)]
  | (k, v) :: m' =>
      if String.eqb k key then (k, value) :: m' else (k, v) :: mapSet m' key value
  end.

Fixpoint mapGet (m : list (string * string)) (key : string) : option string :=
  match m with
  | [] => None
  | (k, v) :: m' => if String.eqb k key then Some v else mapGet m' key
  end.

(** One turn of the loop over the lines of 'legacy-pr-semantic-map.csv'. *)
Definition addLine (semanticMap : list (string * string)) (line : string)
  : list (string * string) :=
  if negb (truthyString line) then semanticMap
  else
    let bits := splitOn "," line in
    if negb (Nat.eqb (List.length bits) 2) then semanticMap
    else
      match bits with
      | [key; value] => mapSet semanticMap key value
      | _ => semanticMap
      end.

(** [semanticMap], from the text of the file. *)
Definition semanticMapOf (csv : string) : list (string * string) :=
  fold_left addLine (splitOn nl csv) [].

End Notes.

(* ================================================================== *)
(** * Notions used to state the properties *)
(* ================================================================== *)

Module Spec.
Import JS RegExp Notes.

(** The texts that stand for "no notes", up to a final period: only the
    letter n may be in either case. *)
Definition noNotesForms : list string :=
  [ "no notes"; "No notes"; "no Notes"; "No Notes";
    "no_notes"; "No_notes"; "no_Notes"; "No_Notes";
    "no-notes"; "No-notes"; "no-Notes"; "No-Notes";
    "none"; "None" ].

Definition isNoNotesText (text : string) : bool :=
  existsb (fun form => String.eqb text form || String.eqb text (form ++ ".")) noNotesForms.

(** The first paragraph of a body that starts with the prefix. *)
Definition notesParagraph (body : string) : option string :=
  find (fun paragraph => startsWith paragraph NOTE_PREFIX) (paragraphs body).

(** The paragraph once the prefix and the placeholder are taken away. *)
Definition stripped (paragraph : string) : string :=
  replaceString (sliceFrom (String.length NOTE_PREFIX) paragraph) placeholder "".

(** Every line break of a text turned into a blank; a line break is a
    line feed, with the carriage return before it if there is one. *)
Fixpoint collapse (s : string) : string :=
  match s with
  | EmptyString => EmptyString
  | String c t =>
      if Ascii.eqb c LF then String " " (collapse t)
      else if Ascii.eqb c CR then
        match t with
        | String d t' =>
            if Ascii.eqb d LF then String " " (collapse t') else String c (collapse t)
        | EmptyString => String c EmptyString
        end
      else String c (collapse t)
  end.

(** The number of line breaks of a text. *)
Fixpoint lineBreaks (s : string) : nat :=
  match s with
  | EmptyString => 0
  | String c t => (if Ascii.eqb c LF then 1 else 0) + lineBreaks t
  end.

(** The text of a note: the paragraph without the prefix and the
    placeholder, on one line, trimmed. *)
Definition noteText (paragraph : string) : string :=
  trim (collapse (stripped paragraph)).

(** The indices of the groups of a pattern. *)
Fixpoint groupIds (r : regex) : list nat :=
  match r with
  | Cat r1 r2 | Alt r1 r2 => groupIds r1 ++ groupIds r2
  | Star r1 => groupIds r1
  | Grp i r1 => i :: groupIds r1
  | _ => []
  end.

(** The loop of a starred pattern, with the number of turns it may still
    take. *)
Definition starLoop (step : (pos -> option pos) -> pos -> option pos)
           (k : pos -> option pos) : nat -> pos -> option pos :=
  fix iter (n : nat) (p : pos) {struct n} : option pos :=
    match n with
    | 0 => k p
    | S n' =>
        match step (fun q =>
                      if Nat.ltb (String.length (rest q)) (String.length (rest p))
                      then iter n' q else None) p with
        | Some q => Some q
        | None => k p
        end
    end.

(** Wherever a pattern hands over to its continuation, it has not moved
    backwards and has left the groups of other patterns alone. *)
Definition reached (r : regex) (p q : pos) : Prop :=
  String.length (rest q) <= String.length (rest p) /\
  forall i, ~ In i (groupIds r) -> lookupGroup i (caps q) = lookupGroup i (caps p).

(** ** The parser, rule by rule *)

Definition guardMessage : string := "setPullRequest: owner, repo or number is missing".

(** The subject as the rules see it: the first line, then without the
    '(#digits)' suffix, then without the 'word: ' prefix. *)
Definition subject0 (m : string) : string := fst (splitMessage m).
Definition bodyOf (m : string) : string := snd (splitMessage m).
Definition subject1 (m : string) : string :=
  match exec rePrSuffix (subject0 m) with
  | Some f => group f 1
  | None => subject0 m
  end.
Definition subject2 (m : string) : string :=
  match exec reSemantic (subject1 m) with
  | Some f => group f 2
  | None => subject1 m
  end.

(** The pull request each recording rule hands to [setPullRequest], if the
    rule applies to the message. *)
Definition suffixCall (m owner repo : string) : option pullRequest :=
  match exec rePrSuffix (subject0 m) with
  | Some f => Some (mkPullRequest owner repo (NumV (parseInt (group f 2))) None)
  | None => None
  end.
Definition mergeCall (m owner repo : string) : option pullRequest :=
  match exec reMerge (subject2 m) with
  | Some f =>
      Some (mkPullRequest owner repo (NumV (parseInt (group f 1))) (Some (trim (group f 2))))
  | None => None
  end.
Definition backportOfCall (m owner repo : string) : option pullRequest :=
  match exec reBackportOf m with
  | Some f => Some (mkPullRequest owner repo (NumV (parseInt (group f 1))) None)
  | None => None
  end.
Definition followCall (f : found) : option pullRequest :=
  if has FOLLOW_REPOS (group f 1 ++ "/" ++ group f 2)
  then Some (mkPullRequest (group f 1) (group f 2) (StrV (group f 3)) None)
  else None.
Definition manualBackportCall (m : string) : option pullRequest :=
  if includes (toLowerCase m) "backport" then
    match exec reRepoPull m with
    | Some f => followCall f
    | None => None
    end
  else None.
Definition backportLinkCall (m : string) : option pullRequest :=
  if includes m "ackport" then
    match exec rePullLink m with
    | Some f => followCall f
    | None => None
    end
  else None.

(** The guard of [setPullRequest] lets the call through. *)
Definition guardOk (call : option pullRequest) : bool :=
  match call with
  | Some p => truthyString (pr_owner p) && truthyString (pr_repo p) && truthy (pr_number p)
  | None => true
  end.

Definition guards (m owner repo : string) : bool :=
  guardOk (suffixCall m owner repo) && guardOk (mergeCall m owner repo) &&
  guardOk (backportOfCall m owner repo) && guardOk (manualBackportCall m) &&
  guardOk (backportLinkCall m).

(** [originalPr] after a call that records [new]. *)
Definition firstOf (orig pr : field pullRequest) (new : pullRequest) : field pullRequest :=
  if isSet orig then orig else if isSet pr then pr else val new.

(** What a call that goes through does to the record. *)
Definition recordPr (call : option pullRequest) (c : commit) : commit :=
  match call with
  | Some new => set_originalPr (firstOf (originalPr c) (pr c) new) (set_pr (val new) c)
  | None => c
  end.

(** ** What each rule does to the properties it writes *)

Definition keptSubject (s : string) (old : option string) : option string :=
  if negb (truthyText old) then Some s else old.

Definition bodyFrom (b : string) (old : option string) : option string :=
  if truthyString b then Some b else old.

Definition noteFrom (b : string) (old : field string) : field string :=
  if truthyString b && truthyNote (getNoteFromBody (val b))
  then getNoteFromBody (val b) else old.

Definition prAfter (call : option pullRequest) (p : field pullRequest) : field pullRequest :=
  match call with Some new => val new | None => p end.

Definition origAfter (call : option pullRequest) (o p : field pullRequest)
  : field pullRequest :=
  match call with Some new => firstOf o p new | None => o end.

Definition semanticType (s : string) (t : option string) : option string :=
  match exec reSemantic s with
  | Some f => Some (toLowerCase (group f 1))
  | None => t
  end.

Definition defaultFix (t : option string) : option string :=
  if negb (truthyText t) then Some "fix" else t.

Definition issueFrom (s : string) (i : option number) : option number :=
  match exec reIssue s with
  | Some f => Some (parseInt (group f 1))
  | None => i
  end.

Definition issueType (s : string) (t : option string) : option string :=
  match exec reIssue s with
  | Some _ => defaultFix t
  | None => t
  end.

(** The number of the markdown 'Fixes' rule, when the rule fires on a
    record whose issue number is [i]. *)
Definition markdownFires (m : string) (i : option number) : option number :=
  if negb (truthyIssue i) then
    match exec reMarkdownFixes m with
    | Some f => Some (parseInt (group f 1))
    | None => None
    end
  else None.

Definition markdownIssue (m : string) (i : option number) : option number :=
  match markdownFires m i with Some n => Some n | None => i end.

Definition clearWith (fires : option number) (x : field pullRequest) : field pullRequest :=
  match fires with
  | Some n => if isIssue x n then null else x
  | None => x
  end.

Definition markdownClear (m : string) (i : option number) (x : field pullRequest)
  : field pullRequest :=
  clearWith (markdownFires m i) x.

Definition markdownType (m : string) (i : option number) (t : option string)
  : option string :=
  match markdownFires m i with Some _ => defaultFix t | None => t end.

Definition breakingType (m : string) (t : option string) : option string :=
  if hasBreakingChange m then Some "breaking-change" else t.

Definition revertFrom (b : string) (old : option string) : option string :=
  match exec reRevert b with
  | Some f => Some (group f 1)
  | None => old
  end.

Definition legacyType (m : string) (t : option string) : option string :=
  if negb (truthyText t) || match t with Some x => String.eqb x "chore" | None => false end
  then
    match exec reChoreScope (toLowerCase m) with
    | Some f => Some (if has knownTypes (group f 1) then group f 1 else "chore")
    | None =>
        if test reFixWord (toLowerCase m) then Some "fix"
        else if test reDocsTag (toLowerCase m) then Some "doc"
        else t
    end
  else t.

(** ** What a parse does to each property *)

Definition issueAfter (m : string) (i : option number) : option number :=
  markdownIssue m (issueFrom (subject2 m) i).

Definition typeAfter (m : string) (i : option number) (t : option string) : option string :=
  legacyType m
    (breakingType m
       (markdownType m (issueFrom (subject2 m) i)
          (issueType (subject2 m) (semanticType (subject1 m) t)))).

(** [pr] and [originalPr], in this order. *)
Definition prState : Type := (field pullRequest * field pullRequest)%type.

Definition recordSt (call : option pullRequest) (st : prState) : prState :=
  (prAfter call (fst st), origAfter call (snd st) (fst st)).

Definition clearSt (m : string) (i : option number) (st : prState) : prState :=
  (markdownClear m i (fst st), markdownClear m i (snd st)).

Definition prStateAfter (m owner repo : string) (i : option number) (st : prState)
  : prState :=
  recordSt (backportLinkCall m)
    (recordSt (manualBackportCall m)
       (clearSt m (issueFrom (subject2 m) i)
          (recordSt (backportOfCall m owner repo)
             (recordSt (mergeCall m owner repo)
                (recordSt (suffixCall m owner repo) st))))).

(** The record a parse returns when no guard stops it. *)
Definition parsed (m owner repo : string) (c : commit) : commit :=
  let c := keepOriginalSubject (subject0 m) c in
  let c := recordBody (bodyOf m) c in
  let c := recordPr (suffixCall m owner repo) c in
  let c := snd (ruleSemantic (subject1 m) c) in
  let c := recordPr (mergeCall m owner repo) c in
  let c := recordPr (backportOfCall m owner repo) c in
  let c := ruleIssue (subject2 m) c in
  let c := ruleMarkdownFixes m c in
  let c := ruleBreaking m c in
  let c := ruleRevert (bodyOf m) c in
  let c := recordPr (manualBackportCall m) c in
  let c := recordPr (backportLinkCall m) c in
  let c := ruleLegacy m c in
  set_subject (Some (trim (subject2 m))) c.

(** ** Sequences of parses *)

(** One enrichment pass: the message and the owner and repository it is
    parsed under. *)
Definition pass : Type := (string * string * string)%type.

Fixpoint enrich (passes : list pass) (c : commit) : result commit :=
  match passes with
  | [] => Ok c
  | (m, owner, repo) :: passes' =>
      bind (parseCommitMessage m owner repo c) (enrich passes')
  end.

(** The message holds a markdown 'Fixes' link whose number is strictly
    equal to the number of [p]. *)
Definition fixesIssue (m : string) (p : pullRequest) : bool :=
  match exec reMarkdownFixes m with
  | Some f => isIssue (val p) (parseInt (group f 1))
  | None => false
  end.

(** ** Messages used as examples *)

Definition breakingZero : string :=
  "x (#0)" ++ nl ++ nl ++ "BREAKING CHANGE: y".
Definition breakingChore : string :=
  "chore: x (#1)" ++ nl ++ nl ++ "BREAKING CHANGE: y".
Definition fixesTwelve : string :=
  "Title" ++ nl ++ nl ++ "Fixes [#12](https://github.com/electron/electron/issues/12)".
Definition suffixAndFixes : string :=
  "foo (#12)" ++ nl ++ nl ++ "Fixes [#12](https://github.com/electron/electron/issues/12)".
Definition twelve : pullRequest := mkPullRequest "electron" "electron" (NumV (Num 12)) None.
Definition thirteen : pullRequest := mkPullRequest "electron" "electron" (NumV (Num 13)) None.
Definition backportThirteen : string := "Bar" ++ nl ++ nl ++ "Backport of #13".

(** The record of 'fix: foo (#12)', and what two further parses make of it. *)
Definition fooTwelve : commit :=
  mkCommit None None None None None (Some "fix: foo (#12)") None undefined
           (val twelve) (val twelve) (Some "fix") None None (Some "foo").
Definition fooThirteen : commit :=
  mkCommit None None None None None (Some "fix: foo (#12)") (Some "Backport of #13")
           undefined (val thirteen) (val twelve) (Some "fix") None None (Some "Bar").
(** The record of [suffixAndFixes], and what a second parse of the same
    message makes of it. *)
Definition fixedOnce : commit :=
  mkCommit None None None None None (Some "foo (#12)")
           (Some "Fixes [#12](https://github.com/electron/electron/issues/12)")
           undefined null null (Some "fix") (Some (Num 12)) None (Some "foo").
Definition fixedTwice : commit :=
  mkCommit None None None None None (Some "foo (#12)")
           (Some "Fixes [#12](https://github.com/electron/electron/issues/12)")
           undefined (val twelve) (val twelve) (Some "fix") (Some (Num 12)) None
           (Some "foo").
Definition fooCleared : commit :=
  mkCommit None None None None None (Some "fix: foo (#12)")
           (Some "Fixes [#12](https://github.com/electron/electron/issues/12)")
           undefined null null (Some "fix") (Some (Num 12)) None (Some "Title").

(** The rules that write [pr] and [originalPr], run on a state: the three
    rules that record a number, the rule that clears, the two rules that
    record a digit string. *)
Definition runRules (a2 a4 a5 a10 a13 : option pullRequest) (fires : option number)
           (st : prState) : prState :=
  recordSt a13
    (recordSt a10
       (clearWith fires (fst (recordSt a5 (recordSt a4 (recordSt a2 st)))),
        clearWith fires (snd (recordSt a5 (recordSt a4 (recordSt a2 st)))))).

(** Several calls in a row act as one: the last call gives [pr], the first
    one gives [originalPr] when there is none yet. *)
Definition bothCalls (a b : option (pullRequest * pullRequest))
  : option (pullRequest * pullRequest) :=
  match a, b with
  | Some (f, _), Some (_, l) => Some (f, l)
  | Some x, None => Some x
  | None, y => y
  end.

Definition oneCall (a : option pullRequest) : option (pullRequest * pullRequest) :=
  match a with Some p => Some (p, p) | None => None end.

Definition recordBoth (calls : option (pullRequest * pullRequest)) (st : prState) : prState :=
  match calls with
  | Some (f, l) => (val l, firstOf (snd st) (fst st) f)
  | None => st
  end.

(** A call, if any, records a digit string. *)
Definition stringCall (call : option pullRequest) : Prop :=
  forall p, call = Some p -> exists s, pr_number p = StrV s.

(** A property that holds no pull request whose number is a string. *)
Definition numbered (x : field pullRequest) : Prop :=
  forall p, x = val p -> exists n, pr_number p = NumV n.

Definition manualMessage : string := "Manual backport of electron/node#12".
Definition linkMessage : string := "Backport https://github.com/electron/electron/pull/12".
Definition nodeTwelve : pullRequest := mkPullRequest "electron" "node" (StrV "12") None.
Definition linkTwelve : pullRequest := mkPullRequest "electron" "electron" (StrV "12") None.
Definition manualRecord : commit :=
  mkCommit None None None None None (Some manualMessage) None undefined
           (val nodeTwelve) (val nodeTwelve) None None None (Some manualMessage).
Definition linkRecord : commit :=
  mkCommit None None None None None (Some linkMessage) None undefined
           (val linkTwelve) (val linkTwelve) None None None (Some linkMessage).

(** ** The pull-request loop on two pull requests that name each other *)

Definition one : pullRequest := mkPullRequest "electron" "electron" (NumV (Num 1)) None.
Definition two : pullRequest := mkPullRequest "electron" "electron" (NumV (Num 2)) None.

(** Pull request 1 is described as a backport of 2, and 2 as a backport
    of 1; there is no other pull request. *)
Definition cycle (number : value) (owner repo : string) : result (option response) :=
  match number with
  | NumV (Num n) =>
      if (n =? 1)%N
      then Ok (Some (mkResponse (Some (mkPullData "a" (val "Backport of #2")))))
      else if (n =? 2)%N
      then Ok (Some (mkResponse (Some (mkPullData "b" (val "Backport of #1")))))
      else Ok None
  | _ => Ok None
  end.

(** The record of the commit 'something (#1)' as the log gives it, and the
    record when the loop has arrived at pull request 2 and is back at 1. *)
Definition somethingOne : commit :=
  mkCommit (Some "dev@example.com") (Some "h1") (Some "electron") (Some "electron")
           (Some [""]) (Some "something (#1)") None undefined (val one) (val one)
           None None None (Some "something").
Definition atTwo : commit :=
  mkCommit (Some "dev@example.com") (Some "h1") (Some "electron") (Some "electron")
           (Some [""]) (Some "something (#1)") (Some "Backport of #2") undefined
           (val two) (val one) None None None (Some "a").
Definition atOne : commit :=
  mkCommit (Some "dev@example.com") (Some "h1") (Some "electron") (Some "electron")
           (Some [""]) (Some "something (#1)") (Some "Backport of #1") undefined
           (val one) (val one) None None None (Some "b").

(** A pull request 12 that is described as a manual backport of itself. *)
Definition selfBackport (number : value) (owner repo : string) : result (option response) :=
  Ok (Some (mkResponse
              (Some (mkPullData "Backport" (val "Manual backport of electron/electron#12"))))).
Definition fooManual : commit :=
  mkCommit None None None None None (Some "fix: foo (#12)")
           (Some "Manual backport of electron/electron#12") undefined
           (val linkTwelve) (val twelve) (Some "fix") None None (Some "Backport").

(** ** The pool *)

(** A record as it was, or with its note set to the sentinel. *)
Definition marked (c c' : commit) : Prop :=
  c' = c \/ c' = set_note (val NO_NOTES) c.

(** The record at index [i] carries the sentinel. *)
Definition cancelled (l : list commit) (i : nat) : Prop :=
  exists c, nth_error l i = Some c /\ note c = val NO_NOTES.

(** ** Dependencies *)


(** The module of the primary repository. *)
Definition electron (gitDir : string) : module := mkModule "electron" "electron" gitDir.



(** A pool with a commit and the commit that reverts it. *)
Definition sha : string := "0123456789abcdef0123456789abcdef01234567".
Definition reverted : commit :=
  mkCommit None (Some sha) (Some "electron") (Some "electron") None
           (Some "fix: something (#12)") None undefined (val twelve) (val twelve)
           (Some "fix") None None (Some "something").
Definition reverting : commit :=
  mkCommit None (Some "89abcdef0123456789abcdef0123456789abcdef") (Some "electron")
           (Some "electron") None (Some "Revert something")
           (Some ("This reverts commit " ++ sha ++ ".")%string)
           undefined undefined undefined None None (Some sha) (Some "Revert something").
Definition revertPool : pool := mkPool [] [reverted; reverting].

(** ** Rendering *)

(** The order of [array.sort()] on strings and on texts. *)
Definition lexLe (a b : string) : Prop := String.leb a b = true.
Definition textLe (a b : text) : Prop := Text.leb a b = true.

(** The links of the commits whose rendered note is [key], in the order
    of the commits. *)
Definition linksOf (key : text) (ns : list renderedCommit) : list string :=
  map r_link (filter (fun n => Text.eqb (r_note n) key) ns).

(** The bullet line of a note text: its links sorted and joined by commas. *)
Definition bulletFor (ns : list renderedCommit) (key : text) : text :=
  units " * " ++ key ++ units (" " ++ join ", " (sort (linksOf key ns)) ++ nl).

Definition text_dec : forall a b : text, {a = b} + {a <> b} := list_eq_dec N.eq_dec.

(** The distinct note texts of a section. *)
Definition noteTexts (ns : list renderedCommit) : list text :=
  nodup text_dec (map r_note ns).

(** What the [Map] of [renderSection] holds after the commits [ns]. *)
Definition collected (ns : list renderedCommit) (m : list (text * list string)) : Prop :=
  NoDup (map fst m) /\
  (forall key, In key (map fst m) <-> In key (map r_note ns)) /\
  (forall key links, In (key, links) m -> links = linksOf key ns).

(** [line] is the one bullet line of the note text [key]: the text, then
    the links of all the commits rendered with that text, in ascending
    order and joined by commas. *)
Definition bulletOf (ns : list renderedCommit) (key line : text) : Prop :=
  exists links,
    Permutation links (linksOf key ns) /\ Sorted lexLe links /\
    line = units " * " ++ key ++ units (" " ++ join ", " links ++ nl).

(** [block] is what a section with the title [title] and the commits
    [l] adds to the notes: nothing if there are no commits; otherwise the
    title, one bullet line for each distinct rendered note text of the
    commits, the lines in ascending order, and an empty line. *)
Definition sectionOf (numberToString : number -> string) (title : string)
           (l : list commit) (block : list text) : Prop :=
  match l with
  | [] => block = []
  | _ :: _ =>
      exists ns keys lines,
        Forall2 (fun c n => renderCommit numberToString c = Ok n) l ns /\
        NoDup keys /\
        (forall key, In key keys <-> exists n, In n ns /\ r_note n = key) /\
        Forall2 (bulletOf ns) keys lines /\
        Sorted textLe lines /\
        block = (units ("## " ++ title ++ nl ++ nl) :: lines) ++ [units nl]
  end.

(** [String(n)] for NaN, Infinity and the integers below 10^21, which
    are printed in full. *)
Definition decimal (n : number) : string :=
  match n with
  | NaN => "NaN"
  | Num k => NilEmpty.string_of_uint (N.to_uint k)
  | Infinity => "Infinity"
  end.

(** Two commits with the same rendered note, and the commit of a merge. *)
Definition somethingSeven : commit :=
  mkCommit None (Some "h7") (Some "electron") (Some "electron") None
           (Some "fix: something (#7)") None undefined
           (val (mkPullRequest "electron" "electron" (NumV (Num 7)) None))
           (val (mkPullRequest "electron" "electron" (NumV (Num 7)) None))
           (Some "fix") None None (Some "something").
Definition somethingTwelve : commit :=
  mkCommit None (Some "h12") (Some "electron") (Some "electron") None
           (Some "fix: something (#12)") None undefined
           (val (mkPullRequest "electron" "electron" (NumV (Num 12)) None))
           (val (mkPullRequest "electron" "electron" (NumV (Num 12)) None))
           (Some "fix") None None (Some "something").
(** Notes with these two commits among the fixes and nothing else. *)
Definition twoFixes : notes :=
  mkNotes [] [] [] [somethingSeven; somethingTwelve] [] [] "v1.0.1".
Definition mergeRecord : commit :=
  mkCommit None None None None None (Some "Merge pull request #42 from user/fix-thing")
           None undefined
           (val (mkPullRequest "electron" "electron" (NumV (Num 42)) (Some "user/fix-thing")))
           (val (mkPullRequest "electron" "electron" (NumV (Num 42)) (Some "user/fix-thing")))
           (Some "fix") None None (Some "Merge pull request #42 from user/fix-thing").

(** ** Texts of patterns *)

(** The texts a pattern can consume; anchors consume nothing. *)
Inductive matches : regex -> string -> Prop :=
| matches_Eps : matches Eps EmptyString
| matches_Chr (c : ascii) : matches (Chr c) (String c EmptyString)
| matches_Cls (f : ascii -> bool) (c : ascii) :
    f c = true -> matches (Cls f) (String c EmptyString)
| matches_Cat (r1 r2 : regex) (w1 w2 : string) :
    matches r1 w1 -> matches r2 w2 -> matches (Cat r1 r2) (w1 ++ w2)
| matches_AltL (r1 r2 : regex) (w : string) : matches r1 w -> matches (Alt r1 r2) w
| matches_AltR (r1 r2 : regex) (w : string) : matches r2 w -> matches (Alt r1 r2) w
| matches_Star0 (r : regex) : matches (Star r) EmptyString
| matches_StarS (r : regex) (w1 w2 : string) :
    matches r w1 -> matches (Star r) w2 -> matches (Star r) (w1 ++ w2)
| matches_Grp (i : nat) (r : regex) (w : string) : matches r w -> matches (Grp i r) w
| matches_Bol : matches Bol EmptyString
| matches_Eol : matches Eol EmptyString
| matches_Wb : matches Wb EmptyString.

(** The pattern inside group [i], when the group is met on every path
    through [r] and is the last one with that index to be closed. *)
Fixpoint spine (i : nat) (r : regex) : option regex :=
  match r with
  | Grp j r1 => if Nat.eqb i j then Some r1 else spine i r1
  | Cat r1 r2 =>
      match spine i r2 with
      | Some b => Some b
      | None => if existsb (Nat.eqb i) (groupIds r2) then None else spine i r1
      end
  | _ => None
  end.

(** Every character of [s] is in the class [f]. *)
Fixpoint allChars (f : ascii -> bool) (s : string) : bool :=
  match s with
  | EmptyString => true
  | String c t => f c && allChars f t
  end.

(** ** Pull requests of a record *)

(** A pull request as the guard of [setPullRequest] lets it through. *)
Definition wellFormed (x : field pullRequest) : Prop :=
  forall p, x = val p ->
            pr_owner p <> EmptyString /\ pr_repo p <> EmptyString /\ truthy (pr_number p) = true.

(** Calls of [setPullRequest] in a row, on one record. *)
Definition request : Type := (string * string * value)%type.

Definition requested (c : request) : pullRequest :=
  let '(owner, repo, number) := c in mkPullRequest owner repo number None.

Fixpoint setPullRequests (calls : list request) (c : commit) : result commit :=
  match calls with
  | [] => Ok c
  | (owner, repo, number) :: calls' =>
      bind (setPullRequest c owner repo number) (setPullRequests calls')
  end.

Definition revertMessage : string :=
  "Revert something" ++ nl ++ nl ++ "This reverts commit " ++ sha ++ ".".

(** ** Passes over the pool *)

(** The index of the commit that the commit at index [i] reverts: what
    [find] returns for its [revertHash], if anything. *)
Definition revertedBy (l : list commit) (i : nat) : option nat :=
  match nth_error l i with
  | Some c =>
      match revertHash c with
      | Some h =>
          if truthyString h then findIndex (fun x => hashEq (hash x) (Some h)) l else None
      | None => None
      end
  | None => None
  end.

(** The turn of the commit at index [i] writes to the record at index [k]. *)
Definition hits (l : list commit) (k i : nat) : bool :=
  match revertedBy l i with
  | Some j => Nat.eqb i k || Nat.eqb j k
  | None => false
  end.

(** The record at index [k] is one of a commit and its revert. *)
Definition cancels (l : list commit) (k : nat) : bool :=
  existsb (hits l k) (seq 0 (List.length l)).

(** All the commits of the notes, bucket after bucket. *)
Definition allCommits (n : notes) : list commit :=
  breaks n ++ docs n ++ feat n ++ fix_ n ++ other n ++ unknown n.

(** A record as the walk of a repository makes it. *)
Definition logged (c : commit) : Prop :=
  owner c = Some "electron" /\
  (repo c = Some "electron" \/ repo c = Some "libchromiumcontent" \/ repo c = Some "node") /\
  hash c <> None /\ subject c <> None.

(** One of the three repositories the script walks. *)
Definition walked (m : module) : Prop :=
  module_owner m = "electron" /\
  (module_repo m = "electron" \/ module_repo m = "libchromiumcontent" \/
   module_repo m = "node").

(** A property of records that neither a new note nor a parse undoes. *)
Definition kept (P : commit -> Prop) : Prop :=
  (forall v c, P c -> P (set_note v c)) /\
  (forall m owner repo c c', P c -> parseCommitMessage m owner repo c = Ok c' -> P c').

(** A repository with one new commit, 'fix: foo (#12)', and a GitHub that
    knows no pull request. *)
Definition oneCommitGit (dir : string) (args : list string) : result string :=
  match args with
  | [ "merge-base"; _; _ ] => Ok "base"
  | [ "log"; "-z"; "--format=%H"; _ ] => Ok "base"
  | _ => Ok "h12||base||dev@example.com||fix: foo (#12)"
  end.
Definition noVersions (v : string) : option SemVer := None.
Definition noRef (dir point : string) : result string := Throw "not used".
Definition notFound (number : value) (owner repo : string) : result (option response) :=
  Ok None.
Definition loggedTwelve : commit :=
  mkCommit (Some "dev@example.com") (Some "h12") (Some "electron") (Some "electron")
           (Some ["base"]) (Some "fix: foo (#12)") None undefined
           (val twelve) (val twelve) (Some "fix") None None (Some "foo").

(** ** Fields and lines *)

(** A text without the character [x]. *)
Definition without (x : ascii) (s : string) : bool :=
  allChars (fun c => negb (Ascii.eqb c x)) s.

(** A text without white space. *)
Definition solid (s : string) : bool := allChars (fun c => negb (isSpace c)) s.

Definition TAB : ascii := "009"%char.

(** The answer of [git ls-tree] for a submodule. *)
Definition lsTreeAnswer : string :=
  "160000 commit 028b0af83076cec898f4ebce208b7fadb715656e"
  ++ String TAB "libchromiumcontent" ++ nl.
Definition lsTree (dir : string) (args : list string) : result string := Ok lsTreeAnswer.

(** ** A cache and a client *)

Definition answerTwelve : response :=
  mkResponse (Some (mkPullData "foo" (val "Notes: bar"))).
(** A client that knows pull request 12 and nothing else. *)
Definition onlyTwelve (number : value) (owner repo : string) : answer :=
  if strictEq number (NumV (Num 12)) then Got answerTwelve else Failed 404 "Not Found".
(** A stand-in for JSON: every response is written as the same text and
    that text is read as the answer for pull request 12. *)
Definition writeTwelve (r : response) : string := "twelve".
Definition readTwelve (s : string) : result response := Ok answerTwelve.

(** ** Rendered notes *)

(** The table of verbs as pairs of a past tense and a present tense, in
    the order of the two loops. *)
Definition verbPairs : list (string * string) :=
  flat_map (fun entry => map (fun value => (fst entry, value)) (snd entry)) commonVerbs.

(** No present tense of the table, followed by a blank, starts the note. *)
Definition plain (note : text) : bool :=
  forallb (fun pair => negb (Text.startsWith note (units (snd pair ++ " ")))) verbPairs.

Fixpoint lastChar (s : string) : option ascii :=
  match s with
  | EmptyString => None
  | String c t => match lastChar t with None => Some c | found => found end
  end.

Fixpoint lastUnit (t : text) : option N :=
  match t with
  | [] => None
  | u :: t' => match lastUnit t' with None => Some u | found => found end
  end.

(** A code unit that, if it is below 256, [trim] leaves at the start of a
    note and [toUpperCase] leaves as it is. *)
Definition capital (u : N) : Prop :=
  forall c, code c = u -> isSpace c = false /\ upperChar c = [u].

Definition isCapital (u : N) : bool :=
  if (u <? 256)%N
  then negb (isSpace (ascii_of_N u)) && Text.eqb (upperChar (ascii_of_N u)) [u]
  else true.

(** A note as [renderCommit] leaves it: it starts with a capital, it ends
    with a period, and it does not start with a present tense of the
    table. *)
Definition rendered (note : text) : Prop :=
  (exists u t, note = u :: t /\ capital u) /\
  Text.endsWith note (units ".") = true /\ plain note = true.

(** ** Lines of the map of legacy pull requests *)

(** The binding a line of the file stands for, if it has exactly two
    fields. *)
Definition binding (line : string) : option (string * string) :=
  match splitOn "," line with
  | [key; value] => Some (key, value)
  | _ => None
  end.

(** The value of the last line of [lines] that binds [key]. *)
Fixpoint lastBound (lines : list string) (key : string) : option string :=
  match lines with
  | [] => None
  | line :: lines' =>
      match lastBound lines' key with
      | Some value => Some value
      | None =>
          match binding line with
          | Some (k, value) => if String.eqb k key then Some value else None
          | None => None
          end
      end
  end.

(** A pull request whose text closes an issue with its own number. *)
Definition closesItself (number : value) (owner repo : string) : result (option response) :=
  Ok (Some (mkResponse (Some (mkPullData "foo"
       (val "Fixes [#12](https://github.com/electron/electron/issues/12)"))))).
Definition nodeCommit : commit :=
  mkCommit (Some "dev@example.com") (Some "h12") (Some "electron") (Some "node")
           (Some ["base"]) (Some "fix: foo (#12)") None undefined
           (val (mkPullRequest "electron" "node" (NumV (Num 12)) None))
           (val (mkPullRequest "electron" "node" (NumV (Num 12)) None))
           (Some "fix") None None (Some "foo").

(** ** Positions in a text *)

(** The character before the position reached by passing [w]. *)
Fixpoint walk (b : option ascii) (w : string) : option ascii :=
  match w with
  | EmptyString => b
  | String c w' => walk (Some c) w'
  end.

(** The text does not go on with a character of the class. *)
Definition stops (f : ascii -> bool) (s : string) : bool :=
  match s with
  | EmptyString => true
  | String c _ => negb (f c)
  end.

(** A text on one line: [.] matches each of its characters. *)
Definition oneLine (s : string) : bool := allChars (fun c => negb (isLineTerminator c)) s.

(** ** Buckets *)

(** A commit that has neither a note nor a subject. *)
Definition textless (c : commit) : bool :=
  match noteOrSubject c with Some _ => false | None => true end.

(** The same commits in each bucket, in whatever order. *)
Definition sameBuckets (n n' : notes) : Prop :=
  Permutation (breaks n) (breaks n') /\ Permutation (docs n) (docs n') /\
  Permutation (feat n) (feat n') /\ Permutation (fix_ n) (fix_ n') /\
  Permutation (other n) (other n') /\ Permutation (unknown n) (unknown n') /\
  ref n = ref n'.

End Spec.

#[local] Arguments RegExp.exec : simpl never.
#[local] Arguments RegExp.test : simpl never.

(* ================================================================== *)
(** * Properties of the matcher *)
(* ================================================================== *)

Section Matcher.
Import JS RegExp Spec.

(** A pattern that starts with [^] matches at index 0 or nowhere. *)
Lemma searchFrom_Bol (r : regex) (s : string) (i : nat) (c : ascii) :
  searchFrom (Cat Bol r) (Some c) s i = None.
Proof.
  revert c i. induction s as [|d t IH]; intros c i; simpl; auto.
Qed.

Lemma exec_Bol (r : regex) (s : string) :
  exec (Cat Bol r) s =
  match matchAt (Cat Bol r) None s with
  | Some q => Some (mkFound 0 (rest q) (caps q))
  | None => None
  end.
Proof.
  unfold exec. destruct s; simpl.
  - destruct (matchAt _ _ _); reflexivity.
  - destruct (matchAt _ _ _); auto. apply searchFrom_Bol.
Qed.

Lemma reached_refl (r : regex) (p : pos) : reached r p p.
Proof. split; auto. Qed.

Lemma run_Star (r : regex) (k : pos -> option pos) (p : pos) :
  run (Star r) k p = starLoop (run r) k (S (String.length (rest p))) p.
Proof. reflexivity. Qed.

Lemma run_inv (r : regex) :
  forall k p res, run r k p = Some res -> exists q, k q = Some res /\ reached r p q.
Proof.
  induction r as [ |c|f|r1 IH1 r2 IH2|r1 IH1 r2 IH2|r1 IH1|i r1 IH1| | | ];
    intros k p res H; [simpl in H .. | rewrite run_Star in H | simpl in H | simpl in H | simpl in H | simpl in H].
  - exists p. auto using reached_refl.
  - destruct (rest p) as [|d t] eqn:R; [discriminate|].
    destruct (Ascii.eqb c d); [|discriminate].
    exists (advance d t p). split; auto. split; simpl; auto. rewrite R. simpl. lia.
  - destruct (rest p) as [|d t] eqn:R; [discriminate|].
    destruct (f d); [|discriminate].
    exists (advance d t p). split; auto. split; simpl; auto. rewrite R. simpl. lia.
  - apply IH1 in H. destruct H as [q1 [H [L1 C1]]].
    apply IH2 in H. destruct H as [q2 [H [L2 C2]]].
    exists q2. split; auto. split; [lia|].
    intros j Hj. simpl in Hj. rewrite in_app_iff in Hj.
    rewrite C2, C1; auto.
  - destruct (run r1 k p) as [x|] eqn:E.
    + inversion H; subst x. apply IH1 in E. destruct E as [q [E [L C]]].
      exists q. split; auto. split; auto.
      intros j Hj. apply C. simpl in Hj. rewrite in_app_iff in Hj. auto.
    + apply IH2 in H. destruct H as [q [E' [L C]]].
      exists q. split; auto. split; auto.
      intros j Hj. apply C. simpl in Hj. rewrite in_app_iff in Hj. auto.
  - revert H. generalize (S (String.length (rest p))). intros n. revert p.
    induction n as [|n IHn]; intros p H; simpl in H.
    + exists p. auto using reached_refl.
    + destruct (run r1 _ p) as [x|] eqn:E.
      * inversion H; subst x. apply IH1 in E. destruct E as [q1 [E [L1 C1]]].
        destruct (Nat.ltb _ _) eqn:Lt; [|discriminate].
        apply IHn in E. destruct E as [q [E [L C]]].
        exists q. split; auto. split; [lia|].
        intros j Hj. rewrite C, C1; auto.
      * exists p. auto using reached_refl.
  - apply IH1 in H. destruct H as [q [H [L C]]].
    exists (capture i p q). split; auto. split; simpl; auto.
    intros j Hj. simpl in Hj.
    destruct (Nat.eqb j i) eqn:Eji.
    + apply Nat.eqb_eq in Eji. exfalso. auto.
    + apply C. auto.
  - destruct (before p); [discriminate|]. exists p. auto using reached_refl.
  - destruct (rest p); [|discriminate]. exists p. auto using reached_refl.
  - destruct (xorb _ _); [|discriminate]. exists p. auto using reached_refl.
Qed.

(** What is left of a match that succeeded. *)
Lemma matchAt_inv (r : regex) (b : option ascii) (s : string) (q : pos) :
  matchAt r b s = Some q -> reached r (mkPos b s []) q.
Proof.
  unfold matchAt. intros H. apply run_inv in H. destruct H as [q' [H R]].
  inversion H; subst; auto.
Qed.

Lemma run_Cat (r1 r2 : regex) (k : pos -> option pos) (p : pos) :
  run (Cat r1 r2) k p = run r1 (run r2 k) p.
Proof. reflexivity. Qed.

Lemma run_Grp (i : nat) (r : regex) (k : pos -> option pos) (p : pos) :
  run (Grp i r) k p = run r (fun q => k (capture i p q)) p.
Proof. reflexivity. Qed.

Lemma run_Cls (f : ascii -> bool) (k : pos -> option pos) (p : pos) :
  run (Cls f) k p =
  match rest p with
  | String d t => if f d then k (advance d t p) else None
  | EmptyString => None
  end.
Proof. reflexivity. Qed.

Lemma run_Bol (k : pos -> option pos) (p : pos) :
  run Bol k p = match before p with None => k p | Some _ => None end.
Proof. reflexivity. Qed.

(** The word of a semantic subject, group 1 of the pattern, is not empty. *)
Lemma reSemantic_word (subject : string) (m : found) :
  exec Notes.reSemantic subject = Some m -> group m 1 <> EmptyString.
Proof.
  unfold Notes.reSemantic. simpl Notes.Seq. rewrite exec_Bol.
  destruct (matchAt _ None subject) as [q|] eqn:E; [|discriminate].
  intros H. inversion H; subst m. clear H. unfold group. simpl groups.
  unfold matchAt, Plus, Word in E.
  rewrite run_Cat, run_Bol, run_Cat, run_Grp, run_Cat, run_Cls in E. simpl before in E.
  simpl rest in E. cbv iota in E.
  destruct subject as [|d t]; [discriminate|].
  destruct (isWord d); [|discriminate].
  apply run_inv in E. destruct E as [q0 [E [L _]]].
  apply run_inv in E. destruct E as [q1 [E [_ C]]].
  inversion E; subst q1. rewrite C.
  - simpl in *. destruct (String.length (rest q0)) eqn:Len.
    + discriminate.
    + replace (String.length t - n) with (S (String.length t - S n)) by lia. discriminate.
  - simpl. intuition discriminate.
Qed.

End Matcher.

(* ================================================================== *)
(** * The note extractor *)
(* ================================================================== *)

Section NoteExtractor.
Import JS RegExp Notes Spec.

(** Case analysis on the text a pattern without repetition is run on. *)
Ltac next_char H :=
  match type of H with
  | context [match ?t with EmptyString => _ | String _ _ => _ end] =>
      is_var t; destruct t; cbn -[Ascii.eqb] in H; try discriminate H
  | context [if ?b then _ else _] =>
      match type of b with bool => idtac end;
      let E := fresh "E" in
      destruct b eqn:E; cbn -[Ascii.eqb] in H; try discriminate H
  end.

Ltac known_chars :=
  repeat match goal with
  | E : (_ || _) = true |- _ => apply orb_true_iff in E; destruct E
  | E : Ascii.eqb _ _ = true |- _ => apply Ascii.eqb_eq in E; subst
  | E : false = true |- _ => discriminate E
  end.

Lemma reNoNotes_forms (text : string) :
  test reNoNotes text = true -> isNoNotesText text = true.
Proof.
  intros H. unfold test, reNoNotes in H. simpl Seq in H. rewrite exec_Bol in H.
  unfold matchAt in H. cbn -[Ascii.eqb] in H.
  repeat next_char H; known_chars; reflexivity.
Qed.

Lemma reNone_forms (text : string) :
  test reNone text = true -> isNoNotesText text = true.
Proof.
  intros H. unfold test, reNone in H. simpl Seq in H. rewrite exec_Bol in H.
  unfold matchAt in H. cbn -[Ascii.eqb] in H.
  repeat next_char H; known_chars; reflexivity.
Qed.

Lemma forms_matched (text : string) :
  isNoNotesText text = true -> test reNoNotes text || test reNone text = true.
Proof.
  unfold isNoNotesText. rewrite existsb_exists. intros [form [Hin H]].
  apply orb_true_iff in H.
  simpl in Hin.
  repeat (destruct Hin as [Hin | Hin];
          [ subst form; destruct H as [H | H]; apply String.eqb_eq in H; subst text;
            reflexivity | ]).
  destruct Hin.
Qed.

(** The two patterns together accept exactly the listed forms. *)
Lemma noNotes_patterns (text : string) :
  test reNoNotes text || test reNone text = isNoNotesText text.
Proof.
  apply eq_true_iff_eq. split.
  - intros H. apply orb_true_iff in H. destruct H; auto using reNoNotes_forms, reNone_forms.
  - apply forms_matched.
Qed.

(** A paragraph that starts with the prefix is not the empty string. *)
Lemma prefixed_truthy (paragraph : string) :
  startsWith paragraph NOTE_PREFIX = true -> truthyString paragraph = true.
Proof.
  destruct paragraph; [discriminate | reflexivity].
Qed.

(** ** Line breaks *)

Lemma matchAt_newline (b : option ascii) (s : string) :
  matchAt reNewline b s =
  match s with
  | String c t =>
      if Ascii.eqb c LF then Some (mkPos (Some c) t [])
      else if Ascii.eqb c CR then
        match t with
        | String d t' => if Ascii.eqb d LF then Some (mkPos (Some d) t' []) else None
        | EmptyString => None
        end
      else None
  | EmptyString => None
  end.
Proof.
  unfold matchAt, reNewline, Opt. simpl Seq.
  destruct s as [|c t]; [reflexivity|].
  cbn -[Ascii.eqb]. unfold advance. cbn -[Ascii.eqb].
  rewrite (Ascii.eqb_sym CR c), (Ascii.eqb_sym LF c).
  destruct (Ascii.eqb c LF) eqn:E1.
  - apply Ascii.eqb_eq in E1. subst c. reflexivity.
  - destruct (Ascii.eqb c CR); [|reflexivity].
    destruct t as [|d t']; [reflexivity|]. cbn -[Ascii.eqb].
    rewrite (Ascii.eqb_sym LF d). destruct (Ascii.eqb d LF); reflexivity.
Qed.

Lemma searchFrom_index (r : regex) (s : string) :
  forall b i m, searchFrom r b s i = Some m -> i <= index m.
Proof.
  induction s as [|c t IH]; intros b i m H; simpl in H.
  - destruct (matchAt r b EmptyString); [|discriminate]. inversion H. simpl. lia.
  - destruct (matchAt r b (String c t)).
    + inversion H. simpl. lia.
    + apply IH in H. lia.
Qed.

Lemma collapse_eq (c : ascii) (t : string) :
  collapse (String c t) =
  if Ascii.eqb c LF then String " " (collapse t)
  else if Ascii.eqb c CR then
    match t with
    | String d t' =>
        if Ascii.eqb d LF then String " " (collapse t') else String c (collapse t)
    | EmptyString => String c EmptyString
    end
  else String c (collapse t).
Proof. reflexivity. Qed.

Lemma lineBreaks_eq (c : ascii) (t : string) :
  lineBreaks (String c t) = (if Ascii.eqb c LF then 1 else 0) + lineBreaks t.
Proof. reflexivity. Qed.

(** A text without line breaks is on one line already. *)
Lemma collapse_none (s : string) : lineBreaks s = 0 -> collapse s = s.
Proof.
  induction s as [|c t IH]; [reflexivity|]. intros H.
  rewrite lineBreaks_eq in H. rewrite collapse_eq.
  destruct (Ascii.eqb c LF); [discriminate|].
  assert (R : collapse t = t) by (apply IH; exact H).
  destruct (Ascii.eqb c CR); [|rewrite R; reflexivity].
  destruct t as [|d t']; [reflexivity|].
  rewrite lineBreaks_eq in H.
  destruct (Ascii.eqb d LF); [discriminate | rewrite R; reflexivity].
Qed.

Lemma search_newline (s : string) :
  forall b i, lineBreaks s <= 1 ->
  match searchFrom reNewline b s i with
  | Some m => (sliceTo (index m - i) s ++ " " ++ after m)%string
  | None => s
  end = collapse s.
Proof.
  induction s as [|c t IH]; intros b i L; [reflexivity|].
  cbn [searchFrom]. rewrite matchAt_newline, collapse_eq.
  rewrite lineBreaks_eq in L.
  assert (Next : lineBreaks t <= 1 ->
            match searchFrom reNewline (Some c) t (S i) with
            | Some m => (sliceTo (index m - i) (String c t) ++ " " ++ after m)%string
            | None => String c t
            end = String c (collapse t)).
  { intros Lt. specialize (IH (Some c) (S i) Lt).
    destruct (searchFrom reNewline (Some c) t (S i)) as [m|] eqn:F.
    - apply searchFrom_index in F.
      replace (index m - i) with (S (index m - S i)) by lia.
      rewrite <- IH. reflexivity.
    - rewrite <- IH. reflexivity. }
  destruct (Ascii.eqb c LF) eqn:E1.
  - cbn [index after rest]. rewrite Nat.sub_diag.
    rewrite collapse_none; [reflexivity | lia].
  - destruct (Ascii.eqb c CR); [|apply Next; exact L].
    destruct t as [|d t']; [reflexivity|].
    rewrite lineBreaks_eq in L.
    destruct (Ascii.eqb d LF) eqn:E2.
    + cbn [index after rest]. rewrite Nat.sub_diag.
      rewrite collapse_none; [reflexivity | lia].
    + apply Next. rewrite lineBreaks_eq, E2. exact L.
Qed.

(** On a text with at most one line break, the replacement of the first
    line break leaves none. *)
Lemma replace_newline (s : string) :
  lineBreaks s <= 1 -> replace reNewline " " s = collapse s.
Proof.
  intros L. unfold replace, exec.
  pose proof (@search_newline s None 0 L) as H.
  destruct (searchFrom reNewline None s 0) as [m|]; [|exact H].
  rewrite Nat.sub_0_r in H. exact H.
Qed.

Lemma cleanNote_noteText (paragraph : string) :
  lineBreaks (stripped paragraph) <= 1 -> cleanNote paragraph = noteText paragraph.
Proof.
  intros L. unfold cleanNote, noteText. fold (stripped paragraph).
  rewrite (@replace_newline _ L). reflexivity.
Qed.

Lemma getNoteFromBody_found (b paragraph : string) :
  b <> EmptyString -> notesParagraph b = Some paragraph ->
  getNoteFromBody (val b) =
  if isNoNotesText (cleanNote paragraph) then val NO_NOTES else val (cleanNote paragraph).
Proof.
  intros NE F. unfold notesParagraph in F. unfold getNoteFromBody. simpl truthyNote.
  destruct b as [|c0 b0]; [contradiction|]. simpl negb. cbv iota.
  rewrite F. apply find_some in F. destruct F as [_ F]. rewrite (prefixed_truthy _ F).
  rewrite <- noNotes_patterns.
  destruct (truthyString (cleanNote paragraph)) eqn:T.
  - destruct (test reNoNotes _); simpl; [reflexivity|].
    destruct (test reNone _); reflexivity.
  - destruct (cleanNote paragraph); [reflexivity | discriminate].
Qed.

(** C5 (amended).  [getNoteFromBody] returns null for a body that is
    undefined, null or empty, and undefined when no paragraph of the body
    starts with "Notes: ".  Otherwise let [text] be the first such
    paragraph without the prefix and the placeholder, on one line and
    trimmed.  If the paragraph has at most one line break (C6 is about
    the others), [getNoteFromBody] returns the "No notes" sentinel when
    [text] is one of 'no notes', 'no_notes', 'no-notes' and 'none', with
    the first letter of each of its words in either case, every other
    letter in lower case and possibly a period at the end; and it returns
    [text] in every other case. *)
Theorem getNoteFromBody_spec :
  getNoteFromBody undefined = null /\
  getNoteFromBody null = null /\
  getNoteFromBody (val EmptyString) = null /\
  (forall b, b <> EmptyString -> notesParagraph b = None ->
             getNoteFromBody (val b) = undefined) /\
  (forall b paragraph,
     b <> EmptyString -> notesParagraph b = Some paragraph ->
     lineBreaks (stripped paragraph) <= 1 ->
     getNoteFromBody (val b) =
     if isNoNotesText (noteText paragraph) then val NO_NOTES else val (noteText paragraph)).
Proof.
  repeat split; try reflexivity.
  - intros b NE F. unfold notesParagraph in F. unfold getNoteFromBody. simpl truthyNote.
    destruct b; [contradiction|]. simpl. rewrite F. reflexivity.
  - intros b paragraph NE F L.
    rewrite <- (@cleanNote_noteText _ L). apply getNoteFromBody_found; assumption.
Qed.

Lemma getNoteFromBody_spec_witness :
  getNoteFromBody (val ("Fix a crash" ++ nl ++ nl ++ "Notes: no-Notes.")%string) =
  (if isNoNotesText (noteText "Notes: no-Notes.") then val NO_NOTES
   else val (noteText "Notes: no-Notes.")) /\
  getNoteFromBody (val ("Notes: Fixed" ++ nl ++ "a crash.")%string) =
  (if isNoNotesText (noteText ("Notes: Fixed" ++ nl ++ "a crash."))
   then val NO_NOTES else val (noteText ("Notes: Fixed" ++ nl ++ "a crash."))).
Proof.
  destruct getNoteFromBody_spec as [_ [_ [_ [_ H]]]].
  split; apply H; vm_compute; (discriminate || reflexivity || lia).
Defined.

(** C5, as stated, fails: a text that is 'no notes' up to the case of its
    letters is returned as it is, and a body without a "Notes: " paragraph
    gives undefined, not null. *)
Lemma getNoteFromBody_upper_case :
  toLowerCase (cleanNote "Notes: NO NOTES") = "no notes" /\
  getNoteFromBody (val "Notes: NO NOTES") = val "NO NOTES" /\
  getNoteFromBody (val "Notes: NO NOTES") <> val NO_NOTES /\
  getNoteFromBody (val "Fix a crash") = undefined /\
  getNoteFromBody (val "Fix a crash") <> null.
Proof.
  repeat split; try reflexivity; discriminate.
Qed.

(** C6.  The note of a paragraph of three lines still holds the second
    line break: only the first one is replaced. *)
Theorem getNoteFromBody_second_newline :
  getNoteFromBody (val ("Notes: a" ++ nl ++ "b" ++ nl ++ "c")%string)
  = val ("a b" ++ nl ++ "c")%string /\
  includes ("a b" ++ nl ++ "c")%string nl = true.
Proof.
  split; reflexivity.
Qed.

End NoteExtractor.

(* ================================================================== *)
(** * The message parser *)
(* ================================================================== *)

Section Parser.
Import JS RegExp Notes Spec.

(** ** Every recording rule as a call that the guard lets through or not *)

Lemma setPullRequest_eq (c : commit) (owner repo : string) (number : value) :
  setPullRequest c owner repo number =
  let call := Some (mkPullRequest owner repo number None) in
  if guardOk call then Ok (recordPr call c) else Throw guardMessage.
Proof.
  unfold setPullRequest, guardOk, recordPr, firstOf. simpl.
  destruct (truthyString owner), (truthyString repo), (truthy number); simpl; try reflexivity.
  destruct c as [? ? ? ? ? ? ? ? p o ? ? ? ?]. destruct o, p; reflexivity.
Qed.

Lemma rulePrSuffix_eq (m owner repo : string) (c : commit) :
  rulePrSuffix owner repo (subject0 m) c =
  if guardOk (suffixCall m owner repo)
  then Ok (subject1 m, recordPr (suffixCall m owner repo) c)
  else Throw guardMessage.
Proof.
  unfold rulePrSuffix, suffixCall, subject1.
  destruct (exec rePrSuffix (subject0 m)) as [f|]; [|reflexivity].
  rewrite setPullRequest_eq. cbv zeta.
  destruct (guardOk _); reflexivity.
Qed.

Lemma ruleSemantic_fst (m : string) (c : commit) :
  fst (ruleSemantic (subject1 m) c) = subject2 m.
Proof.
  unfold ruleSemantic, subject2. destruct (exec reSemantic _); reflexivity.
Qed.

Lemma ruleMerge_eq (m owner repo : string) (c : commit) :
  ruleMerge owner repo (subject2 m) c =
  if guardOk (mergeCall m owner repo)
  then Ok (recordPr (mergeCall m owner repo) c)
  else Throw guardMessage.
Proof.
  unfold ruleMerge, mergeCall.
  destruct (exec reMerge (subject2 m)) as [f|]; [|reflexivity].
  rewrite setPullRequest_eq. cbv zeta.
  unfold guardOk. simpl pr_owner. simpl pr_repo. simpl pr_number.
  destruct (truthyString owner && truthyString repo && truthy _); [|reflexivity].
  unfold bind, set_pr_branch, recordPr, firstOf.
  destruct c as [? ? ? ? ? ? ? ? p o ? ? ? ?]. destruct o, p; reflexivity.
Qed.

Lemma ruleBackportOf_eq (m owner repo : string) (c : commit) :
  ruleBackportOf m owner repo c =
  if guardOk (backportOfCall m owner repo)
  then Ok (recordPr (backportOfCall m owner repo) c)
  else Throw guardMessage.
Proof.
  unfold ruleBackportOf, backportOfCall.
  destruct (exec reBackportOf m) as [f|]; [|reflexivity].
  apply setPullRequest_eq.
Qed.

Lemma followMatch_eq (f : found) (c : commit) :
  followMatch f c =
  if guardOk (followCall f) then Ok (recordPr (followCall f) c) else Throw guardMessage.
Proof.
  unfold followMatch, followCall.
  destruct (has FOLLOW_REPOS _); [|reflexivity].
  apply setPullRequest_eq.
Qed.

Lemma ruleManualBackport_eq (m : string) (c : commit) :
  ruleManualBackport m c =
  if guardOk (manualBackportCall m)
  then Ok (recordPr (manualBackportCall m) c)
  else Throw guardMessage.
Proof.
  unfold ruleManualBackport, manualBackportCall.
  destruct (includes _ _); [|reflexivity].
  destruct (exec reRepoPull m) as [f|]; [|reflexivity].
  apply followMatch_eq.
Qed.

Lemma ruleBackportLink_eq (m : string) (c : commit) :
  ruleBackportLink m c =
  if guardOk (backportLinkCall m)
  then Ok (recordPr (backportLinkCall m) c)
  else Throw guardMessage.
Proof.
  unfold ruleBackportLink, backportLinkCall.
  destruct (includes _ _); [|reflexivity].
  destruct (exec rePullLink m) as [f|]; [|reflexivity].
  apply followMatch_eq.
Qed.

(** A parse either is stopped by the guard of [setPullRequest] or returns
    the record the rules build one after the other. *)
Lemma parse_eq (m owner repo : string) (c : commit) :
  parseCommitMessage m owner repo c =
  if guards m owner repo then Ok (parsed m owner repo c) else Throw guardMessage.
Proof.
  unfold parseCommitMessage, guards, parsed.
  assert (S : splitMessage m = (subject0 m, bodyOf m)).
  { unfold subject0, bodyOf. destruct (splitMessage m); reflexivity. }
  rewrite S. rewrite rulePrSuffix_eq.
  destruct (guardOk (suffixCall m owner repo)); [|reflexivity].
  simpl bind.
  rewrite (surjective_pairing (ruleSemantic (subject1 m) _)).
  rewrite ruleSemantic_fst.
  rewrite ruleMerge_eq.
  destruct (guardOk (mergeCall m owner repo)); [|reflexivity].
  simpl bind. rewrite ruleBackportOf_eq.
  destruct (guardOk (backportOfCall m owner repo)); [|reflexivity].
  simpl bind. rewrite ruleManualBackport_eq.
  destruct (guardOk (manualBackportCall m)); [|reflexivity].
  simpl bind. rewrite ruleBackportLink_eq.
  destruct (guardOk (backportLinkCall m)); reflexivity.
Qed.

(** ** Every rule as an assignment to the properties it writes *)

Ltac fields :=
  cbn [email hash owner repo parentHashes originalSubject body note pr originalPr type
       issueNumber revertHash subject set_originalSubject set_body set_note set_pr
       set_originalPr set_type set_issueNumber set_revertHash set_subject fst snd].

Lemma keepOriginalSubject_nf (s : string) (c : commit) :
  keepOriginalSubject s c = set_originalSubject (keptSubject s (originalSubject c)) c.
Proof.
  destruct c. unfold keepOriginalSubject, keptSubject. simpl.
  destruct (negb _); reflexivity.
Qed.

Lemma recordBody_nf (b : string) (c : commit) :
  recordBody b c = set_note (noteFrom b (note c)) (set_body (bodyFrom b (body c)) c).
Proof.
  destruct c. unfold recordBody, noteFrom, bodyFrom. simpl.
  destruct (truthyString b); simpl; [|reflexivity].
  destruct (truthyNote _); reflexivity.
Qed.

Lemma recordPr_nf (call : option pullRequest) (c : commit) :
  recordPr call c =
  set_originalPr (origAfter call (originalPr c) (pr c)) (set_pr (prAfter call (pr c)) c).
Proof.
  destruct c, call; reflexivity.
Qed.

Lemma ruleSemantic_nf (s : string) (c : commit) :
  snd (ruleSemantic s c) = set_type (semanticType s (type c)) c.
Proof.
  destruct c. unfold ruleSemantic, semanticType. simpl.
  destruct (exec reSemantic s); reflexivity.
Qed.

Lemma defaultToFix_nf (c : commit) : defaultToFix c = set_type (defaultFix (type c)) c.
Proof.
  destruct c. unfold defaultToFix, defaultFix. simpl. destruct (negb _); reflexivity.
Qed.

Lemma ruleIssue_nf (s : string) (c : commit) :
  ruleIssue s c =
  set_type (issueType s (type c)) (set_issueNumber (issueFrom s (issueNumber c)) c).
Proof.
  unfold ruleIssue, issueType, issueFrom.
  destruct (exec reIssue s); [rewrite defaultToFix_nf|]; destruct c; reflexivity.
Qed.

Lemma ruleMarkdownFixes_nf (m : string) (c : commit) :
  ruleMarkdownFixes m c =
  set_type (markdownType m (issueNumber c) (type c))
    (set_originalPr (markdownClear m (issueNumber c) (originalPr c))
       (set_pr (markdownClear m (issueNumber c) (pr c))
          (set_issueNumber (markdownIssue m (issueNumber c)) c))).
Proof.
  unfold ruleMarkdownFixes, markdownType, markdownClear, clearWith, markdownIssue,
    markdownFires.
  destruct (negb (truthyIssue (issueNumber c))); [|destruct c; reflexivity].
  destruct (exec reMarkdownFixes m); [|destruct c; reflexivity].
  rewrite defaultToFix_nf. destruct c as [? ? ? ? ? ? ? ? p o ? ? ? ?]. fields.
  destruct (isIssue p _); fields; destruct (isIssue o _); reflexivity.
Qed.

Lemma ruleBreaking_nf (m : string) (c : commit) :
  ruleBreaking m c = set_type (breakingType m (type c)) c.
Proof.
  destruct c. unfold ruleBreaking, breakingType. simpl.
  destruct (hasBreakingChange m); reflexivity.
Qed.

Lemma ruleRevert_nf (b : string) (c : commit) :
  ruleRevert b c = set_revertHash (revertFrom b (revertHash c)) c.
Proof.
  destruct c. unfold ruleRevert, revertFrom. simpl.
  destruct (exec reRevert b); reflexivity.
Qed.

Lemma ruleLegacy_nf (m : string) (c : commit) :
  ruleLegacy m c = set_type (legacyType m (type c)) c.
Proof.
  destruct c. unfold ruleLegacy, legacyType, isLegacy. simpl.
  destruct (negb _ || _); [|reflexivity].
  destruct (exec reChoreScope _); [reflexivity|].
  destruct (test reFixWord _); [reflexivity|].
  destruct (test reDocsTag _); reflexivity.
Qed.

(** ** Every property of the record a parse returns *)

Ltac peel :=
  unfold parsed; cbv zeta; fields;
  repeat (progress
            (first [ rewrite ruleLegacy_nf | rewrite recordPr_nf | rewrite ruleRevert_nf
                   | rewrite ruleBreaking_nf | rewrite ruleMarkdownFixes_nf
                   | rewrite ruleIssue_nf | rewrite ruleSemantic_nf
                   | rewrite recordBody_nf | rewrite keepOriginalSubject_nf ];
             fields)).

Lemma parsed_issueNumber (m owner repo : string) (c : commit) :
  issueNumber (parsed m owner repo c) = issueAfter m (issueNumber c).
Proof. peel. reflexivity. Qed.

Lemma parsed_type (m owner repo : string) (c : commit) :
  type (parsed m owner repo c) = typeAfter m (issueNumber c) (type c).
Proof. peel. reflexivity. Qed.

Lemma parsed_prState (m owner repo : string) (c : commit) :
  (pr (parsed m owner repo c), originalPr (parsed m owner repo c)) =
  prStateAfter m owner repo (issueNumber c) (pr c, originalPr c).
Proof. peel. reflexivity. Qed.

Lemma parsed_originalSubject (m owner repo : string) (c : commit) :
  originalSubject (parsed m owner repo c) = keptSubject (subject0 m) (originalSubject c).
Proof. peel. reflexivity. Qed.

Lemma parsed_body (m owner repo : string) (c : commit) :
  body (parsed m owner repo c) = bodyFrom (bodyOf m) (body c).
Proof. peel. reflexivity. Qed.

Lemma parsed_note (m owner repo : string) (c : commit) :
  note (parsed m owner repo c) = noteFrom (bodyOf m) (note c).
Proof. peel. reflexivity. Qed.

Lemma parsed_revertHash (m owner repo : string) (c : commit) :
  revertHash (parsed m owner repo c) = revertFrom (bodyOf m) (revertHash c).
Proof. peel. reflexivity. Qed.

Lemma parsed_subject (m owner repo : string) (c : commit) :
  subject (parsed m owner repo c) = Some (trim (subject2 m)).
Proof. reflexivity. Qed.

Lemma parsed_identity (m owner repo : string) (c : commit) :
  email (parsed m owner repo c) = email c /\
  hash (parsed m owner repo c) = hash c /\
  Notes.owner (parsed m owner repo c) = Notes.owner c /\
  Notes.repo (parsed m owner repo c) = Notes.repo c /\
  parentHashes (parsed m owner repo c) = parentHashes c.
Proof. repeat split; peel; reflexivity. Qed.

Lemma commit_ext (a b : commit) :
  email a = email b -> hash a = hash b -> Notes.owner a = Notes.owner b ->
  Notes.repo a = Notes.repo b -> parentHashes a = parentHashes b ->
  originalSubject a = originalSubject b -> body a = body b -> note a = note b ->
  (pr a, originalPr a) = (pr b, originalPr b) -> type a = type b ->
  issueNumber a = issueNumber b -> revertHash a = revertHash b ->
  subject a = subject b -> a = b.
Proof.
  destruct a, b. simpl. intros. 
  repeat match goal with H : (_, _) = (_, _) |- _ => inversion H; clear H end.
  subst. reflexivity.
Qed.

(** ** The type of a breaking change *)

Lemma legacyType_breaking (m : string) : 
  legacyType m (Some "breaking-change") = Some "breaking-change".
Proof. reflexivity. Qed.

(** C7 (amended).  On a message with a paragraph that starts with
    'BREAKING CHANGE', [parseCommitMessage] returns a record whose type is
    'breaking-change', whatever the other rules find in the message,
    unless a pull-request rule hands [setPullRequest] an empty owner, an
    empty repository or a falsy number: then, and only then, it throws. *)
Theorem parse_breaking_change (m owner repo : string) (c : commit) :
  hasBreakingChange m = true ->
  (guards m owner repo = true ->
   exists c', parseCommitMessage m owner repo c = Ok c' /\
              type c' = Some "breaking-change") /\
  (guards m owner repo = false ->
   parseCommitMessage m owner repo c = Throw guardMessage).
Proof.
  intros B. rewrite parse_eq. split; intros G; rewrite G; [|reflexivity].
  eexists. split; [reflexivity|].
  rewrite parsed_type. unfold typeAfter, breakingType. rewrite B. reflexivity.
Qed.

Lemma parse_breaking_change_witness :
  exists c', parseCommitMessage breakingChore "electron" "electron" emptyCommit = Ok c' /\
             type c' = Some "breaking-change".
Proof.
  apply (parse_breaking_change breakingChore "electron" "electron" emptyCommit);
    vm_compute; reflexivity.
Defined.

(** C7, as stated, fails: a subject that ends in '(#0)' stops the parse
    before the rule of the breaking change is reached, and no record is
    returned. *)
Lemma parse_breaking_change_throws :
  hasBreakingChange breakingZero = true /\
  parseCommitMessage breakingZero "electron" "electron" emptyCommit = Throw guardMessage.
Proof. split; reflexivity. Qed.

(** ** The write-once properties *)

Lemma origAfter_set (call : option pullRequest) (p : pullRequest) (x : field pullRequest) :
  origAfter call (val p) x = val p.
Proof. destruct call; reflexivity. Qed.

(** One parse keeps a non-empty [originalSubject], and keeps [originalPr]
    unless the message holds a markdown 'Fixes' link with its number. *)
Lemma parsed_keeps_original (m owner repo : string) (c : commit) :
  (forall s, originalSubject c = Some s -> s <> EmptyString ->
             originalSubject (parsed m owner repo c) = Some s) /\
  (forall p, originalPr c = val p -> fixesIssue m p = false ->
             originalPr (parsed m owner repo c) = val p).
Proof.
  split.
  - intros s Hs Hne. rewrite parsed_originalSubject, Hs. unfold keptSubject. simpl.
    destruct s; [contradiction | reflexivity].
  - intros p Hp Hfix.
    change (originalPr (parsed m owner repo c))
      with (snd (pr (parsed m owner repo c), originalPr (parsed m owner repo c))).
    rewrite parsed_prState, Hp. unfold prStateAfter, recordSt, clearSt.
    cbn [fst snd]. rewrite !origAfter_set.
    assert (K : markdownClear m (issueFrom (subject2 m) (issueNumber c)) (val p) = val p).
    { unfold markdownClear, clearWith, markdownFires. unfold fixesIssue in Hfix.
      destruct (negb _); [|reflexivity].
      destruct (exec reMarkdownFixes m); [|reflexivity].
      rewrite Hfix. reflexivity. }
    rewrite K, !origAfter_set. reflexivity.
Qed.

(** C1 (amended).  Through any sequence of parses of one record that all
    return, an [originalSubject] that is a non-empty string is never
    replaced, and an [originalPr] that is set is neither replaced nor
    cleared as long as no message of the sequence holds a markdown
    'Fixes [#N](.../issues/N)' link with N strictly equal to its number;
    that rule is the one place where [originalPr] is reset to null. *)
Theorem originals_write_once (passes : list pass) (c c' : commit) :
  enrich passes c = Ok c' ->
  (forall s, originalSubject c = Some s -> s <> EmptyString ->
             originalSubject c' = Some s) /\
  (forall p, originalPr c = val p ->
             (forall m owner repo, In (m, owner, repo) passes -> fixesIssue m p = false) ->
             originalPr c' = val p).
Proof.
  revert c. induction passes as [|[[m owner] repo] passes IH]; intros c H; simpl in H.
  - inversion H; subst. split; auto.
  - rewrite parse_eq in H. destruct (guards m owner repo); [|discriminate].
    simpl in H. apply IH in H. destruct H as [HS HP].
    destruct (parsed_keeps_original m owner repo c) as [KS KP].
    split.
    + intros s Hs Hne. apply HS; auto.
    + intros p Hp Hno. apply HP.
      * apply KP; auto. apply (Hno m owner repo). left. reflexivity.
      * intros m' o' r' Hin. apply (Hno m' o' r'). right. exact Hin.
Qed.

Lemma originals_write_once_witness :
  originalSubject fooThirteen = Some "fix: foo (#12)" /\
  originalPr fooThirteen = val twelve.
Proof.
  assert (E : enrich [(backportThirteen, "electron", "electron")] fooTwelve = Ok fooThirteen)
    by (vm_compute; reflexivity).
  destruct (originals_write_once _ _ E) as [HS HP].
  split.
  - apply HS; [reflexivity | discriminate].
  - apply HP; [reflexivity|].
    intros m owner repo [H|[]]. inversion H; subst. vm_compute. reflexivity.
Defined.

(** C1, as stated, fails: the pull request a first parse recorded as
    [originalPr] is cleared by a second parse, of a message that closes the
    issue of the same number. *)
Lemma originalPr_cleared :
  parseCommitMessage "fix: foo (#12)" "electron" "electron" emptyCommit = Ok fooTwelve /\
  originalPr fooTwelve = val twelve /\
  parseCommitMessage fixesTwelve "electron" "electron" fooTwelve = Ok fooCleared /\
  originalPr fooCleared = null.
Proof.
  repeat split; vm_compute; reflexivity.
Qed.

(** ** Numbers and digit strings *)

Lemma followCall_string (f : found) (p : pullRequest) :
  followCall f = Some p -> pr_number p = StrV (group f 3).
Proof.
  unfold followCall. destruct (has _ _); [|discriminate].
  intros H. inversion H. reflexivity.
Qed.

Lemma markdownClear_numbered (m : string) (i : option number) (x : field pullRequest) :
  numbered x -> numbered (markdownClear m i x).
Proof.
  unfold markdownClear, clearWith. destruct (markdownFires m i); auto.
  destruct (isIssue x n); auto. intros _ p H. discriminate.
Qed.

Lemma prAfter_numbered (call : option pullRequest) (x : field pullRequest) :
  (forall p, call = Some p -> exists n, pr_number p = NumV n) ->
  numbered x -> numbered (prAfter call x).
Proof.
  intros Hc Hx. destruct call as [new|]; simpl; auto.
  intros p H. inversion H; subst. auto.
Qed.

(** C10 (amended).  When the manual-backport rule fires, on 'backport'
    and an 'owner/repo#number' token that names a followed repository, the
    number it records is the matched digit string, with no conversion;
    so does the backport-link rule, which runs after it and overrides it.
    The three other recording rules (the '(#number)' suffix, the merge
    commit and 'Backport of #number') store the result of [parseInt].  A
    digit string and a number are never strictly equal. *)
Theorem backport_number_is_string (m owner repo : string) (c c' : commit) :
  parseCommitMessage m owner repo c = Ok c' ->
  (forall p, manualBackportCall m = Some p ->
             (exists f, exec reRepoPull m = Some f /\ pr_number p = StrV (group f 3)) /\
             (backportLinkCall m = None -> pr c' = val p)) /\
  (forall p, backportLinkCall m = Some p ->
             (exists f, exec rePullLink m = Some f /\ pr_number p = StrV (group f 3)) /\
             pr c' = val p) /\
  (manualBackportCall m = None -> backportLinkCall m = None ->
   numbered (pr c) -> numbered (pr c')) /\
  (forall s n, strictEq (StrV s) (NumV n) = false /\ strictEq (NumV n) (StrV s) = false).
Proof.
  intros H. rewrite parse_eq in H. destruct (guards m owner repo); [|discriminate].
  inversion H; subst c'. clear H.
  assert (P : pr (parsed m owner repo c) =
              fst (prStateAfter m owner repo (issueNumber c) (pr c, originalPr c))).
  { rewrite <- parsed_prState. reflexivity. }
  rewrite P. unfold prStateAfter, recordSt, clearSt. cbn [fst snd].
  repeat split.
  - unfold manualBackportCall in H. destruct (includes _ _); [|discriminate].
    destruct (exec reRepoPull m) as [f|]; [|discriminate].
    exists f. split; auto using followCall_string.
  - intros L. rewrite L, H. reflexivity.
  - unfold backportLinkCall in H. destruct (includes _ _); [|discriminate].
    destruct (exec rePullLink m) as [f|]; [|discriminate].
    exists f. split; auto using followCall_string.
  - rewrite H. reflexivity.
  - intros M L N. rewrite M, L. cbn [prAfter].
    apply markdownClear_numbered.
    repeat apply prAfter_numbered; auto.
    + unfold backportOfCall. intros p E. destruct (exec _ _); inversion E. simpl. eauto.
    + unfold mergeCall. intros p E. destruct (exec _ _); inversion E. simpl. eauto.
    + unfold suffixCall. intros p E. destruct (exec _ _); inversion E. simpl. eauto.
Qed.

Lemma backport_number_is_string_witness :
  pr manualRecord = val nodeTwelve /\ pr_number nodeTwelve = StrV "12".
Proof.
  assert (E : parseCommitMessage manualMessage "electron" "electron" emptyCommit
              = Ok manualRecord) by (vm_compute; reflexivity).
  destruct (backport_number_is_string _ _ _ _ E) as [H _].
  destruct (H nodeTwelve) as [_ K]; [vm_compute; reflexivity|].
  split; [apply K; vm_compute|]; reflexivity.
Defined.

(** C10, as stated, fails: the backport-link rule also records the digit
    string, although the manual-backport rule does not fire. *)
Lemma link_number_is_string :
  manualBackportCall linkMessage = None /\
  parseCommitMessage linkMessage "electron" "electron" emptyCommit = Ok linkRecord /\
  pr linkRecord = val linkTwelve /\
  pr_number linkTwelve = StrV "12".
Proof.
  repeat split; vm_compute; reflexivity.
Qed.

(** ** A second parse of the same message *)

Lemma recordSt_one (a : option pullRequest) (st : prState) :
  recordSt a st = recordBoth (oneCall a) st.
Proof. destruct a, st; reflexivity. Qed.

Lemma recordBoth_both (a b : option (pullRequest * pullRequest)) (st : prState) :
  recordBoth b (recordBoth a st) = recordBoth (bothCalls a b) st.
Proof.
  destruct a as [[fa la]|], b as [[fb lb]|], st as [p o]; try reflexivity.
  unfold recordBoth, bothCalls, firstOf. cbn [fst snd].
  destruct o, p; reflexivity.
Qed.

Lemma runRules_both (a2 a4 a5 a10 a13 : option pullRequest) (F : option number)
      (st : prState) :
  runRules a2 a4 a5 a10 a13 F st =
  recordBoth (bothCalls (oneCall a10) (oneCall a13))
    (clearWith F (fst (recordBoth (bothCalls (oneCall a2) (bothCalls (oneCall a4) (oneCall a5))) st)),
     clearWith F (snd (recordBoth (bothCalls (oneCall a2) (bothCalls (oneCall a4) (oneCall a5))) st))).
Proof.
  unfold runRules. rewrite !recordSt_one, !recordBoth_both. reflexivity.
Qed.

Lemma clear_twice (A B : option (pullRequest * pullRequest)) (F1 F2 : option number) :
  let once F st :=
    recordBoth B (clearWith F (fst (recordBoth A st)), clearWith F (snd (recordBoth A st))) in
  (forall f l n, B = Some (f, l) -> isIssue (val f) n = false) ->
  F2 = None \/ F2 = F1 ->
  fst (once F1 (undefined, undefined)) <> null ->
  snd (once F1 (undefined, undefined)) <> null ->
  once F2 (once F1 (undefined, undefined)) = once F1 (undefined, undefined).
Proof.
  intros once HB HF. unfold once, recordBoth, clearWith, firstOf.
  destruct A as [[fa la]|], B as [[fb lb]|], F1 as [n|]; destruct HF as [HF|HF]; subst F2;
    cbn [fst snd isSet]; intros N1 N2; try reflexivity;
    try (rewrite (HB fb lb _ eq_refl)).
  all: repeat match goal with
       | H : context [if isIssue ?x ?n then _ else _] |- _ =>
           destruct (isIssue x n) eqn:?; cbn [fst snd isSet] in *
       | |- context [if isIssue ?x ?n then _ else _] =>
           destruct (isIssue x n) eqn:?; cbn [fst snd isSet] in *
       end; try reflexivity; try contradiction; try discriminate; try congruence.
Qed.

Lemma toLowerCase_truthy (s : string) :
  s <> EmptyString -> truthyString (toLowerCase s) = true.
Proof. destruct s; [contradiction | reflexivity]. Qed.

Lemma legacyType_twice (m : string) :
  legacyType m (legacyType m None) = legacyType m None.
Proof.
  unfold legacyType. cbn [truthyText negb orb].
  destruct (exec reChoreScope (toLowerCase m)) as [f|] eqn:C.
  - destruct (negb _ || _); reflexivity.
  - destruct (test reFixWord (toLowerCase m)) eqn:F; [reflexivity|].
    destruct (test reDocsTag (toLowerCase m)) eqn:D; [reflexivity|].
    reflexivity.
Qed.

Lemma markdownFires_twice (m : string) :
  let i6 := issueFrom (subject2 m) None in
  markdownFires m (issueFrom (subject2 m) (markdownIssue m i6)) = None \/
  markdownFires m (issueFrom (subject2 m) (markdownIssue m i6)) = markdownFires m i6.
Proof.
  unfold issueFrom, markdownIssue, markdownFires.
  destruct (exec reIssue (subject2 m)) as [f6|]; [right; reflexivity|].
  cbn [truthyIssue negb].
  destruct (exec reMarkdownFixes m) as [f7|]; [|left; reflexivity].
  cbn [truthyIssue]. destruct (negb _); [right | left]; reflexivity.
Qed.

Lemma issueAfter_twice (m : string) :
  issueAfter m (issueAfter m None) = issueAfter m None.
Proof.
  unfold issueAfter, issueFrom, markdownIssue, markdownFires.
  destruct (exec reIssue (subject2 m)) as [f6|]; [reflexivity|].
  cbn [truthyIssue negb].
  destruct (exec reMarkdownFixes m) as [f7|]; [|reflexivity].
  cbn [truthyIssue]. destruct (negb _); reflexivity.
Qed.

Lemma defaultFix_truthy (t : option string) :
  truthyText t = true -> defaultFix t = t.
Proof. unfold defaultFix. intros H. rewrite H. reflexivity. Qed.

Lemma typeAfter_twice (m : string) :
  typeAfter m (issueAfter m None) (typeAfter m None None) = typeAfter m None None.
Proof.
  unfold typeAfter, semanticType.
  destruct (exec reSemantic (subject1 m)) as [f|] eqn:S.
  - (* a semantic prefix sets the type anew in each parse *)
    apply reSemantic_word in S. apply toLowerCase_truthy in S.
    assert (D : defaultFix (Some (toLowerCase (group f 1))) = Some (toLowerCase (group f 1)))
      by (apply defaultFix_truthy; exact S).
    unfold issueType, markdownType.
    destruct (exec reIssue _); rewrite ?D;
      destruct (markdownFires m (issueFrom _ (issueAfter m None)));
      destruct (markdownFires m (issueFrom _ None)); rewrite ?D; reflexivity.
  - unfold breakingType. destruct (hasBreakingChange m); [reflexivity|].
    unfold issueType. unfold issueAfter, issueFrom, markdownIssue.
    destruct (exec reIssue (subject2 m)) as [f6|].
    + (* the issue rule has given 'fix' *)
      unfold markdownType, defaultFix. cbn [truthyText truthyString negb].
      destruct (markdownFires m (Some _)); reflexivity.
    + unfold markdownType, markdownFires. cbn [truthyIssue negb].
      destruct (exec reMarkdownFixes m) as [f7|].
      * (* the markdown rule has given 'fix' *)
        cbn [defaultFix truthyText negb truthyIssue]. 
        destruct (negb _); reflexivity.
      * cbn [truthyIssue negb]. apply legacyType_twice.
Qed.

Lemma followCall_isIssue (f : found) (p : pullRequest) (n : number) :
  followCall f = Some p -> isIssue (val p) n = false.
Proof.
  intros H. apply followCall_string in H. simpl. rewrite H. reflexivity.
Qed.

Lemma manualBackportCall_isIssue (m : string) (p : pullRequest) (n : number) :
  manualBackportCall m = Some p -> isIssue (val p) n = false.
Proof.
  unfold manualBackportCall. destruct (includes _ _); [|discriminate].
  destruct (exec reRepoPull m); [|discriminate]. apply followCall_isIssue.
Qed.

Lemma backportLinkCall_isIssue (m : string) (p : pullRequest) (n : number) :
  backportLinkCall m = Some p -> isIssue (val p) n = false.
Proof.
  unfold backportLinkCall. destruct (includes _ _); [|discriminate].
  destruct (exec rePullLink m); [|discriminate]. apply followCall_isIssue.
Qed.

Lemma prStateAfter_rules (m owner repo : string) (i : option number) (st : prState) :
  prStateAfter m owner repo i st =
  runRules (suffixCall m owner repo) (mergeCall m owner repo) (backportOfCall m owner repo)
           (manualBackportCall m) (backportLinkCall m)
           (markdownFires m (issueFrom (subject2 m) i)) st.
Proof. reflexivity. Qed.

Lemma prStateAfter_twice (m owner repo : string) :
  let st1 := prStateAfter m owner repo None (undefined, undefined) in
  fst st1 <> null -> snd st1 <> null ->
  prStateAfter m owner repo (issueAfter m None) st1 = st1.
Proof.
  intros st1. subst st1. rewrite !prStateAfter_rules, !runRules_both.
  apply clear_twice.
  - intros f l n H.
    destruct (manualBackportCall m) as [p10|] eqn:M;
      destruct (backportLinkCall m) as [p13|] eqn:L; simpl in H; inversion H; subst.
    + eapply manualBackportCall_isIssue; eauto.
    + eapply manualBackportCall_isIssue; eauto.
    + eapply backportLinkCall_isIssue; eauto.
  - apply markdownFires_twice.
Qed.

(** C3 (amended).  When a first parse of a message on the empty record
    returns a record whose [pr] and [originalPr] are not null, that is
    when the markdown 'Fixes' rule has not left one of them cleared, a
    second parse of the same message on that record returns the very same
    record. *)
Theorem parse_twice (m owner repo : string) (c1 : commit) :
  parseCommitMessage m owner repo emptyCommit = Ok c1 ->
  pr c1 <> null -> originalPr c1 <> null ->
  parseCommitMessage m owner repo c1 = Ok c1.
Proof.
  intros H. rewrite parse_eq in H |- *. destruct (guards m owner repo); [|discriminate].
  inversion H; subst c1. clear H. intros NP NO. f_equal.
  destruct (parsed_identity m owner repo (parsed m owner repo emptyCommit))
    as [E1 [E2 [E3 [E4 E5]]]].
  apply commit_ext; auto.
  - rewrite !parsed_originalSubject. unfold keptSubject. cbn [truthyText negb].
    destruct (negb _); reflexivity.
  - rewrite !parsed_body. unfold bodyFrom. destruct (truthyString _); reflexivity.
  - rewrite !parsed_note. unfold noteFrom. destruct (_ && _); reflexivity.
  - rewrite !parsed_prState. rewrite parsed_issueNumber.
    pose proof (parsed_prState m owner repo emptyCommit) as E.
    apply prStateAfter_twice.
    + change (fst (prStateAfter m owner repo (issueNumber emptyCommit)
                     (pr emptyCommit, originalPr emptyCommit)) <> null).
      rewrite <- E. exact NP.
    + change (snd (prStateAfter m owner repo (issueNumber emptyCommit)
                     (pr emptyCommit, originalPr emptyCommit)) <> null).
      rewrite <- E. exact NO.
  - rewrite !parsed_type, parsed_issueNumber. apply typeAfter_twice.
  - rewrite !parsed_issueNumber. apply issueAfter_twice.
  - rewrite !parsed_revertHash. unfold revertFrom. destruct (exec _ _); reflexivity.
Qed.

Lemma parse_twice_witness :
  parseCommitMessage "fix: foo (#12)" "electron" "electron" fooTwelve = Ok fooTwelve.
Proof.
  apply parse_twice; [vm_compute; reflexivity | discriminate | discriminate].
Defined.

(** C3, as stated, fails: the first parse of a subject '(#12)' with a
    markdown link that fixes issue 12 clears the pull request, the second
    parse records it again and leaves it, since the issue number is set. *)
Lemma parse_twice_differs :
  parseCommitMessage suffixAndFixes "electron" "electron" emptyCommit = Ok fixedOnce /\
  parseCommitMessage suffixAndFixes "electron" "electron" fixedOnce = Ok fixedTwice /\
  fixedTwice <> fixedOnce.
Proof.
  repeat split; try (vm_compute; reflexivity). discriminate.
Qed.

End Parser.

(* ================================================================== *)
(** * The pull-request loop *)
(* ================================================================== *)

Section PullRequestLoop.
Import JS RegExp Notes Spec.

Lemma cycle_first : followOnce cycle one somethingOne = Ok (inr (val two, atTwo)).
Proof. vm_compute. reflexivity. Qed.

Lemma cycle_at_two : followOnce cycle two atTwo = Ok (inr (val one, atOne)).
Proof. vm_compute. reflexivity. Qed.

Lemma cycle_at_one : followOnce cycle one atOne = Ok (inr (val two, atTwo)).
Proof. vm_compute. reflexivity. Qed.

(** From pull request 2 the loop comes back to 2, in the same state, after
    two turns: no number of turns brings it to an end. *)
Lemma cycle_runs (fuel : nat) :
  followLoop cycle fuel (val two) atTwo = None /\
  followLoop cycle fuel (val one) atOne = None.
Proof.
  induction fuel as [|fuel [IH2 IH1]]; [split; reflexivity|].
  split.
  - change (followLoop cycle (S fuel) (val two) atTwo)
      with (match followOnce cycle two atTwo with
            | Throw e => Some (Throw e)
            | Ok (inl c') => Some (Ok c')
            | Ok (inr (cursor', c')) => followLoop cycle fuel cursor' c'
            end).
    rewrite cycle_at_two. exact IH1.
  - change (followLoop cycle (S fuel) (val one) atOne)
      with (match followOnce cycle one atOne with
            | Throw e => Some (Throw e)
            | Ok (inl c') => Some (Ok c')
            | Ok (inr (cursor', c')) => followLoop cycle fuel cursor' c'
            end).
    rewrite cycle_at_one. exact IH2.
Qed.

(** C2.  For the commit 'something (#1)' and two pull requests that each
    name the other one as the pull request they backport, the loop of
    [getNotes] is still running after any number of turns: the guard only
    compares a pull request with the one of the turn before. *)
Theorem follow_loop_cycles (fuel : nat) :
  parseCommitMessage "something (#1)" "electron" "electron"
    (mkCommit (Some "dev@example.com") (Some "h1") (Some "electron") (Some "electron")
              (Some [EmptyString]) None None undefined undefined undefined
              None None None None) = Ok somethingOne /\
  scrapeCommit cycle fuel somethingOne = None.
Proof.
  split; [vm_compute; reflexivity|].
  destruct fuel as [|fuel]; [reflexivity|].
  change (scrapeCommit cycle (S fuel) somethingOne)
    with (match followOnce cycle one somethingOne with
          | Throw e => Some (Throw e)
          | Ok (inl c') => Some (Ok c')
          | Ok (inr (cursor', c')) => followLoop cycle fuel cursor' c'
          end).
  rewrite cycle_first. apply cycle_runs.
Qed.

(** The unchanged-pull-request check of the loop takes the digit string
    "12", recorded by the manual-backport rule, for a pull request other
    than 12: the loop goes on. *)
Lemma follow_same_number :
  followOnce selfBackport twelve fooTwelve = Ok (inr (val linkTwelve, fooManual)) /\
  strictEq (pr_number twelve) (pr_number linkTwelve) = false.
Proof. split; vm_compute; reflexivity. Qed.

End PullRequestLoop.

(* ================================================================== *)
(** * The pool: a commit and its revert *)
(* ================================================================== *)

Section Pool.
Import JS RegExp Notes Spec.

Lemma set_note_same (c : commit) (v : field string) : note c = v -> set_note v c = c.
Proof. intros H. subst v. destruct c; reflexivity. Qed.

Lemma marked_refl (c : commit) : marked c c.
Proof. left. reflexivity. Qed.

Lemma marked_set (c : commit) : marked c (set_note (val NO_NOTES) c).
Proof. right. reflexivity. Qed.

Lemma marked_trans (a b c : commit) : marked a b -> marked b c -> marked a c.
Proof.
  intros [H1|H1] [H2|H2]; subst; try (left; reflexivity); right; reflexivity.
Qed.

Lemma marked_hash (c c' : commit) : marked c c' -> hash c' = hash c.
Proof. intros [H|H]; subst; destruct c; reflexivity. Qed.

Lemma marked_revertHash (c c' : commit) : marked c c' -> revertHash c' = revertHash c.
Proof. intros [H|H]; subst; destruct c; reflexivity. Qed.

Lemma marked_note (c c' : commit) :
  marked c c' -> note c = val NO_NOTES -> note c' = val NO_NOTES.
Proof. intros [H|H] N; subst; auto. Qed.

(** A marked record that carries the sentinel is the record with its note
    set to the sentinel. *)
Lemma marked_cancelled (c c' : commit) :
  marked c c' -> note c' = val NO_NOTES -> c' = set_note (val NO_NOTES) c.
Proof.
  intros [H|H] N; subst; auto. symmetry. apply set_note_same. exact N.
Qed.

Lemma Forall2_marked_refl (l : list commit) : Forall2 marked l l.
Proof. induction l; constructor; auto using marked_refl. Qed.

Lemma Forall2_marked_trans (l1 l2 l3 : list commit) :
  Forall2 marked l1 l2 -> Forall2 marked l2 l3 -> Forall2 marked l1 l3.
Proof.
  intros H. revert l3. induction H; intros l3 H3; inversion H3; subst; constructor;
    eauto using marked_trans.
Qed.

Lemma updateAt_marked (i : nat) (l : list commit) :
  Forall2 marked l (updateAt i (set_note (val NO_NOTES)) l).
Proof.
  revert i. induction l as [|c l IH]; intros i; destruct i; simpl; constructor;
    auto using marked_refl, marked_set, Forall2_marked_refl.
Qed.

Lemma nth_error_updateAt (A : Type) (f : A -> A) (l : list A) (i j : nat) :
  nth_error (updateAt i f l) j =
  if Nat.eqb i j then option_map f (nth_error l j) else nth_error l j.
Proof.
  revert i j. induction l as [|x l IH]; intros i j; destruct i, j; simpl; auto.
  destruct (Nat.eqb i j); reflexivity.
Qed.

Lemma cancelAt_marked (p : pool) (i : nat) :
  Forall2 marked (commits p) (commits (cancelAt p i)).
Proof.
  unfold cancelAt.
  destruct (nth_error (commits p) i) as [c|]; [|apply Forall2_marked_refl].
  destruct (revertHash c) as [h|]; [|apply Forall2_marked_refl].
  destruct (truthyString h); [|apply Forall2_marked_refl].
  destruct (findIndex _ _) as [j|]; [|apply Forall2_marked_refl].
  simpl. eapply Forall2_marked_trans; apply updateAt_marked.
Qed.

Lemma cancel_marked (l : list nat) (p : pool) :
  Forall2 marked (commits p) (commits (fold_left cancelAt l p)).
Proof.
  revert p. induction l as [|i l IH]; intros p; simpl.
  - apply Forall2_marked_refl.
  - eapply Forall2_marked_trans; [apply cancelAt_marked | apply IH].
Qed.

Lemma Forall2_nth (l l' : list commit) (i : nat) (c : commit) :
  Forall2 marked l l' -> nth_error l i = Some c ->
  exists c', nth_error l' i = Some c' /\ marked c c'.
Proof.
  intros H. revert i. induction H; intros i E; destruct i; simpl in *; try discriminate.
  - inversion E; subst. eauto.
  - auto.
Qed.

Lemma marked_hashes (l l' : list commit) :
  Forall2 marked l l' -> map hash l' = map hash l.
Proof.
  induction 1; simpl; [reflexivity|]. f_equal; auto using marked_hash.
Qed.

Lemma marked_findIndex (l l' : list commit) (h : option string) :
  Forall2 marked l l' ->
  findIndex (fun c => hashEq (hash c) h) l' = findIndex (fun c => hashEq (hash c) h) l.
Proof.
  induction 1; simpl; [reflexivity|].
  rewrite (marked_hash H), IHForall2. reflexivity.
Qed.

Lemma marked_keeps_cancelled (l l' : list commit) (i : nat) :
  Forall2 marked l l' -> cancelled l i -> cancelled l' i.
Proof.
  intros H [c [E N]]. destruct (Forall2_nth i H E) as [c' [E' M]].
  exists c'. split; auto. eapply marked_note; eauto.
Qed.

(** ** The set of processed hashes *)

Lemma hashEq_refl (h : option string) : hashEq h h = true.
Proof. destruct h; simpl; auto using String.eqb_refl. Qed.

Lemma setAdd_has (h : option string) (s : list (option string)) :
  setHas (setAdd h s) h = true.
Proof.
  unfold setAdd. destruct (setHas s h) eqn:E; auto.
  unfold setHas. rewrite existsb_app. simpl. rewrite hashEq_refl.
  rewrite orb_true_r. reflexivity.
Qed.

Lemma setAdd_keeps (h x : option string) (s : list (option string)) :
  setHas s x = true -> setHas (setAdd h s) x = true.
Proof.
  intros H. unfold setAdd. destruct (setHas s h); auto.
  unfold setHas in *. rewrite existsb_app, H. reflexivity.
Qed.

Lemma cancelAt_keeps (p : pool) (i : nat) (x : option string) :
  setHas (processedHashes p) x = true -> setHas (processedHashes (cancelAt p i)) x = true.
Proof.
  intros H. unfold cancelAt.
  destruct (nth_error (commits p) i) as [c|]; auto.
  destruct (revertHash c) as [h|]; auto.
  destruct (truthyString h); auto.
  destruct (findIndex _ _) as [j|]; auto.
  simpl. auto using setAdd_keeps.
Qed.

Lemma cancel_keeps (l : list nat) (p : pool) (x : option string) :
  setHas (processedHashes p) x = true ->
  setHas (processedHashes (fold_left cancelAt l p)) x = true.
Proof.
  revert p. induction l as [|i l IH]; intros p H; simpl; auto using cancelAt_keeps.
Qed.

(** ** The record a revert points to *)

Lemma findIndex_Some (A : Type) (f : A -> bool) (l : list A) (j : nat) :
  findIndex f l = Some j -> exists x, nth_error l j = Some x /\ f x = true.
Proof.
  revert j. induction l as [|x l IH]; intros j H; simpl in H; [discriminate|].
  destruct (f x) eqn:E.
  - inversion H; subst. simpl. eauto.
  - destruct (findIndex f l) as [k|]; [|discriminate].
    inversion H; subst. simpl. apply IH. reflexivity.
Qed.

Lemma findIndex_None (A : Type) (f : A -> bool) (l : list A) (i : nat) (x : A) :
  findIndex f l = None -> nth_error l i = Some x -> f x = false.
Proof.
  revert i. induction l as [|y l IH]; intros i H E; destruct i; simpl in *;
    try discriminate.
  - inversion E; subst. destruct (f x); [discriminate | reflexivity].
  - destruct (f y); [discriminate|].
    destruct (findIndex f l); [discriminate|]. eapply IH; eauto.
Qed.

(** [find] gives the commit of the pool with the hash, when there is
    exactly one. *)
Lemma findIndex_only (l : list commit) (a : nat) (c : commit) (h : string) :
  nth_error l a = Some c -> hash c = Some h ->
  (forall i x, nth_error l i = Some x -> hash x = Some h -> i = a) ->
  findIndex (fun c => hashEq (hash c) (Some h)) l = Some a.
Proof.
  intros E H U.
  destruct (findIndex (fun c => hashEq (hash c) (Some h)) l) as [j|] eqn:F.
  - destruct (findIndex_Some _ _ F) as [x [Ex Q]].
    destruct (hash x) as [hx|] eqn:Hx; simpl in Q; [|discriminate].
    apply String.eqb_eq in Q. subst hx. f_equal. eapply U; eauto.
  - pose proof (findIndex_None _ _ a F E) as Q. simpl in Q.
    rewrite H in Q. simpl in Q. rewrite String.eqb_refl in Q. discriminate.
Qed.

(** The turn of the loop for a commit that reverts a commit of the pool. *)
Lemma cancelAt_cancels (p : pool) (a b : nat) (B : commit) (h : string) :
  nth_error (commits p) b = Some B -> revertHash B = Some h -> h <> EmptyString ->
  findIndex (fun c => hashEq (hash c) (Some h)) (commits p) = Some a ->
  a < List.length (commits p) ->
  cancelled (commits (cancelAt p b)) a /\ cancelled (commits (cancelAt p b)) b /\
  setHas (processedHashes (cancelAt p b)) (Some h) = true /\
  setHas (processedHashes (cancelAt p b)) (hash B) = true.
Proof.
  intros EB RB Hne F La. unfold cancelAt. rewrite EB, RB.
  assert (T : truthyString h = true) by (destruct h; [contradiction | reflexivity]).
  rewrite T, F. simpl.
  destruct (nth_error (commits p) a) as [A|] eqn:EA;
    [|apply nth_error_None in EA; lia].
  repeat split.
  - unfold cancelled. rewrite !nth_error_updateAt, Nat.eqb_refl, EA.
    destruct (Nat.eqb b a); simpl; eexists; split; reflexivity.
  - unfold cancelled. rewrite !nth_error_updateAt, Nat.eqb_refl, EB. simpl.
    destruct (Nat.eqb a b); simpl; eexists; split; reflexivity.
  - apply setAdd_has.
  - apply setAdd_keeps, setAdd_has.
Qed.

(** ** Commits that carry a note are left alone by the pull-request loop *)

Section Scrape.
Variable getPullRequest : value -> string -> string -> result (option response).

Lemma scrapeCommit_noted (fuel : nat) (c : commit) :
  truthyNote (note c) = true -> scrapeCommit getPullRequest fuel c = Some (Ok c).
Proof.
  intros H. unfold scrapeCommit.
  destruct fuel; simpl; destruct (pr c); rewrite ?H; reflexivity.
Qed.

Lemma scrapeCommits_nth (fuel : nat) (l l' : list commit) (i : nat) (c : commit) :
  scrapeCommits getPullRequest fuel l = Some (Ok l') -> nth_error l i = Some c ->
  exists c', nth_error l' i = Some c' /\ scrapeCommit getPullRequest fuel c = Some (Ok c').
Proof.
  revert l' i. induction l as [|x l IH]; intros l' i H E; destruct i; simpl in *;
    try discriminate.
  - inversion E; subst x.
    destruct (scrapeCommit getPullRequest fuel c) as [[c'|]|]; try discriminate.
    destruct (scrapeCommits getPullRequest fuel l) as [[l''|]|]; try discriminate.
    inversion H; subst. simpl. eauto.
  - destruct (scrapeCommit getPullRequest fuel x) as [[x'|]|]; try discriminate.
    destruct (scrapeCommits getPullRequest fuel l) as [[l''|]|]; try discriminate.
    inversion H; subst. simpl. eauto.
Qed.

Lemma scrapeCommits_cancelled (fuel : nat) (l l' : list commit) (i : nat) (c : commit) :
  scrapeCommits getPullRequest fuel l = Some (Ok l') ->
  nth_error l i = Some c -> note c = val NO_NOTES ->
  nth_error l' i = Some c.
Proof.
  intros H E N. destruct (scrapeCommits_nth _ _ _ H E) as [c' [E' S]].
  rewrite scrapeCommit_noted in S by (rewrite N; reflexivity).
  inversion S; subst. exact E'.
Qed.

End Scrape.

(** ** The final filter *)

Lemma dropBumps_In (l l' : list commit) (c : commit) :
  dropBumps l = Ok l' -> In c l' -> In c l.
Proof.
  revert l'. induction l as [|x l IH]; intros l' H I; simpl in H.
  - inversion H; subst. exact I.
  - destruct (noteOrSubject x) as [text|]; [|discriminate].
    destruct (dropBumps l) as [l''|]; [|discriminate]. simpl in H.
    inversion H; subst. destruct (test reBump text).
    + right. eapply IH; eauto.
    + destruct I as [I|I]; [left; exact I | right; eapply IH; eauto].
Qed.

Lemma removeUninteresting_notes (l l' : list commit) (c : commit) :
  removeUninteresting l = Ok l' -> In c l' -> In c l /\ note c <> val NO_NOTES.
Proof.
  unfold removeUninteresting. intros H I.
  eapply dropBumps_In in I; [|exact H]. apply filter_In in I. destruct I as [I N].
  split; auto. intros E. unfold isNoNotes in N. rewrite E in N. discriminate.
Qed.

Lemma inBucket_In (k : bucket) (l : list commit) (c : commit) :
  In c (inBucket k l) -> In c l.
Proof. unfold inBucket. intros H. apply filter_In in H. tauto. Qed.

(** C4.  Let the pool hold a commit [A], its only commit with hash [h1],
    and a commit [B] that reverts [h1].  After the cancel-out
    pass both records are what they were with their note set to the
    "No notes" sentinel, both hashes are in [processedHashes], and the
    pool holds the same commits, in the same order; the pull-request loop
    leaves the two records alone, and no record of any bucket of the
    output carries the sentinel, so that neither of them is in a bucket. *)
Theorem revert_cancels_out (p : pool) (a b : nat) (A B : commit) (h1 : string) :
  nth_error (commits p) a = Some A -> hash A = Some h1 ->
  nth_error (commits p) b = Some B -> revertHash B = Some h1 ->
  h1 <> EmptyString ->
  (forall i c, nth_error (commits p) i = Some c -> hash c = Some h1 -> i = a) ->
  let A' := set_note (val NO_NOTES) A in
  let B' := set_note (val NO_NOTES) B in
  let p' := cancelReverts p in
  nth_error (commits p') a = Some A' /\
  nth_error (commits p') b = Some B' /\
  setHas (processedHashes p') (hash A) = true /\
  setHas (processedHashes p') (hash B) = true /\
  map hash (commits p') = map hash (commits p) /\
  forall getPullRequest fuel l,
    scrapeCommits getPullRequest fuel (commits p') = Some (Ok l) ->
    nth_error l a = Some A' /\ nth_error l b = Some B' /\
    forall l', removeUninteresting l = Ok l' ->
               forall k c, In c (inBucket k l') ->
                           note c <> val NO_NOTES /\ c <> A' /\ c <> B'.
Proof.
  intros EA HA EB RB Hne ND A' B' p'.
  assert (Lb : b < List.length (commits p)) by (apply nth_error_Some; congruence).
  assert (La : a < List.length (commits p)) by (apply nth_error_Some; congruence).
  (* the turns before the one of [B], that turn, and the turns after it *)
  assert (Turns : seq 0 (List.length (commits p)) =
              seq 0 b ++ b :: seq (S b) (List.length (commits p) - S b)).
  { replace (List.length (commits p)) with (b + S (List.length (commits p) - S b)) at 1
      by lia.
    rewrite seq_app. reflexivity. }
  pose (p1 := fold_left cancelAt (seq 0 b) p).
  pose (p2 := cancelAt p1 b).
  assert (E' : p' = fold_left cancelAt (seq (S b) (List.length (commits p) - S b)) p2).
  { unfold p', cancelReverts. rewrite Turns, fold_left_app. reflexivity. }
  assert (M1 : Forall2 marked (commits p) (commits p1)) by apply cancel_marked.
  destruct (Forall2_nth b M1 EB) as [B1 [EB1 MB1]].
  assert (C2 : cancelled (commits p2) a /\ cancelled (commits p2) b /\
               setHas (processedHashes p2) (Some h1) = true /\
               setHas (processedHashes p2) (hash B1) = true).
  { apply cancelAt_cancels; auto.
    - rewrite (marked_revertHash MB1). exact RB.
    - rewrite (marked_findIndex _ M1). eapply findIndex_only; eauto.
    - rewrite <- (Forall2_length M1). exact La. }
  destruct C2 as [Ca [Cb [Ha Hb]]].
  assert (M2 : Forall2 marked (commits p2) (commits p')).
  { rewrite E'. apply cancel_marked. }
  assert (M : Forall2 marked (commits p) (commits p')).
  { eapply Forall2_marked_trans; [exact M1|].
    eapply Forall2_marked_trans; [apply cancelAt_marked | exact M2]. }
  assert (NA : nth_error (commits p') a = Some A').
  { destruct (marked_keeps_cancelled M2 Ca) as [x [Ex Nx]].
    destruct (Forall2_nth a M EA) as [x' [Ex' Mx]].
    rewrite Ex in Ex'. inversion Ex'; subst x'.
    rewrite Ex. f_equal. apply marked_cancelled; auto. }
  assert (NB : nth_error (commits p') b = Some B').
  { destruct (marked_keeps_cancelled M2 Cb) as [x [Ex Nx]].
    destruct (Forall2_nth b M EB) as [x' [Ex' Mx]].
    rewrite Ex in Ex'. inversion Ex'; subst x'.
    rewrite Ex. f_equal. apply marked_cancelled; auto. }
  repeat split; auto.
  - rewrite HA, E'. apply cancel_keeps. exact Ha.
  - rewrite E'. apply cancel_keeps. rewrite <- (marked_hash MB1). exact Hb.
  - apply marked_hashes. exact M.
  - eapply scrapeCommits_cancelled; eauto.
  - eapply scrapeCommits_cancelled; eauto.
  - apply inBucket_In in H1. eapply removeUninteresting_notes; eauto.
  - apply inBucket_In in H1. intros Q. subst c.
    eapply removeUninteresting_notes in H1; [|exact H0]. destruct H1 as [_ N]. apply N.
    reflexivity.
  - apply inBucket_In in H1. intros Q. subst c.
    eapply removeUninteresting_notes in H1; [|exact H0]. destruct H1 as [_ N]. apply N.
    reflexivity.
Qed.

Lemma revert_cancels_out_witness :
  nth_error (commits (cancelReverts revertPool)) 0 = Some (set_note (val NO_NOTES) reverted) /\
  nth_error (commits (cancelReverts revertPool)) 1 = Some (set_note (val NO_NOTES) reverting).
Proof.
  destruct (@revert_cancels_out revertPool 0 1 reverted reverting sha) as [HA [HB _]];
    try reflexivity; try discriminate.
  - intros [|[|[|i]]] c E H; try reflexivity; simpl in E; inversion E; subst c;
      discriminate H.
  - split; assumption.
Defined.

End Pool.

Section Texts.
Import JS.

Lemma text_eqb_eq (a b : text) : Text.eqb a b = true <-> a = b.
Proof.
  revert b. induction a as [|x a IH]; intros [|y b]; simpl; split;
    try discriminate; try reflexivity.
  - intros H. apply andb_true_iff in H. destruct H as [H1 H2].
    apply N.eqb_eq in H1. apply IH in H2. subst. reflexivity.
  - intros H. inversion H; subst. rewrite N.eqb_refl. simpl. apply IH. reflexivity.
Qed.

Lemma text_eqb_refl (a : text) : Text.eqb a a = true.
Proof. apply text_eqb_eq. reflexivity. Qed.

Lemma text_eqb_neq (a b : text) : Text.eqb a b = false <-> a <> b.
Proof.
  split.
  - intros H E. apply text_eqb_eq in E. congruence.
  - intros H. destruct (Text.eqb a b) eqn:E; [|reflexivity].
    apply text_eqb_eq in E. contradiction.
Qed.

Lemma text_eqb_sym (a b : text) : Text.eqb a b = Text.eqb b a.
Proof.
  destruct (Text.eqb b a) eqn:E.
  - apply text_eqb_eq in E. subst. apply text_eqb_refl.
  - apply text_eqb_neq in E. apply text_eqb_neq. auto.
Qed.

Lemma text_leb_total (a b : text) : Text.leb a b = true \/ Text.leb b a = true.
Proof.
  revert b. induction a as [|x a IH]; intros [|y b]; simpl; auto.
  destruct (N.ltb_spec x y), (N.ltb_spec y x); auto; try lia.
  assert (E : x = y) by lia. subst y. rewrite N.eqb_refl. apply IH.
Qed.

Lemma text_leb_antisym (a b : text) :
  Text.leb a b = true -> Text.leb b a = true -> a = b.
Proof.
  revert b. induction a as [|x a IH]; intros [|y b]; simpl; try discriminate; auto.
  destruct (N.ltb_spec x y), (N.ltb_spec y x); try lia.
  - destruct (N.eqb_spec y x); [lia | discriminate].
  - destruct (N.eqb_spec x y); [lia | discriminate].
  - assert (E : x = y) by lia. subst y. rewrite N.eqb_refl.
    intros H1 H2. f_equal. apply IH; assumption.
Qed.

Lemma text_leb_trans (a b c : text) :
  Text.leb a b = true -> Text.leb b c = true -> Text.leb a c = true.
Proof.
  revert b c. induction a as [|x a IH]; intros [|y b] [|z c]; simpl;
    try discriminate; auto.
  destruct (N.ltb_spec x y) as [Lxy|Lxy].
  - intros _. destruct (N.ltb_spec y z) as [Lyz|Lyz].
    + intros _. destruct (N.ltb_spec x z); [reflexivity | lia].
    + destruct (N.eqb_spec y z); [|discriminate]. intros _.
      destruct (N.ltb_spec x z); [reflexivity | lia].
  - destruct (N.eqb_spec x y) as [Exy|]; [|discriminate]. subst y.
    destruct (N.ltb_spec x z); [reflexivity|].
    destruct (N.eqb_spec x z); [|discriminate]. apply IH.
Qed.

Lemma units_app (a b : string) : units (a ++ b) = units a ++ units b.
Proof.
  unfold units. induction a as [|c a IH]; simpl; [reflexivity|]. f_equal. exact IH.
Qed.

End Texts.

(* ================================================================== *)
(** * Rendering *)
(* ================================================================== *)

Section Rendering.
Import JS RegExp Notes Spec.

(** ** Sorting *)

Lemma insertSorted_perm (x : string) (l : list string) :
  Permutation (insertSorted x l) (x :: l).
Proof.
  induction l as [|y l IH]; simpl; [reflexivity|].
  destruct (String.leb x y); [reflexivity|].
  rewrite IH. apply perm_swap.
Qed.

Lemma sort_perm (l : list string) : Permutation (sort l) l.
Proof.
  induction l as [|x l IH]; simpl; [reflexivity|].
  rewrite insertSorted_perm. constructor. exact IH.
Qed.

Lemma insertSorted_head (x y : string) (l : list string) :
  lexLe y x -> HdRel lexLe y l -> HdRel lexLe y (insertSorted x l).
Proof.
  intros Hyx H. destruct l as [|z l]; simpl; [constructor; exact Hyx|].
  destruct (String.leb x z); constructor; auto. inversion H; auto.
Qed.

Lemma insertSorted_sorted (x : string) (l : list string) :
  Sorted lexLe l -> Sorted lexLe (insertSorted x l).
Proof.
  induction 1 as [|y l S IH H]; simpl; [repeat constructor|].
  destruct (String.leb x y) eqn:E.
  - repeat constructor; auto.
  - constructor; auto. apply insertSorted_head; auto.
    destruct (String.leb_total x y) as [T|T]; [congruence | exact T].
Qed.

Lemma sort_sorted (l : list string) : Sorted lexLe (sort l).
Proof.
  induction l as [|x l IH]; simpl; [constructor | apply insertSorted_sorted; exact IH].
Qed.

Lemma insertLine_perm (x : text) (l : list text) :
  Permutation (insertLine x l) (x :: l).
Proof.
  induction l as [|y l IH]; simpl; [reflexivity|].
  destruct (Text.leb x y); [reflexivity|].
  rewrite IH. apply perm_swap.
Qed.

Lemma sortLines_perm (l : list text) : Permutation (sortLines l) l.
Proof.
  induction l as [|x l IH]; simpl; [reflexivity|].
  rewrite insertLine_perm. constructor. exact IH.
Qed.

Lemma insertLine_sorted (x : text) (l : list text) :
  Sorted textLe l -> Sorted textLe (insertLine x l).
Proof.
  induction 1 as [|y l S IH H]; simpl; [repeat constructor|].
  destruct (Text.leb x y) eqn:E.
  - repeat constructor; auto.
  - assert (T : textLe y x).
    { destruct (text_leb_total x y) as [T|T]; [congruence | exact T]. }
    constructor; auto.
    destruct l as [|z l]; simpl; [constructor; exact T|].
    destruct (Text.leb x z); constructor; auto. inversion H; auto.
Qed.

Lemma sortLines_sorted (l : list text) : Sorted textLe (sortLines l).
Proof.
  induction l as [|x l IH]; simpl; [constructor | apply insertLine_sorted; exact IH].
Qed.

(** ** Grouping by note text *)

Lemma mapHas_In (m : list (text * list string)) (key : text) :
  mapHas m key = true <-> In key (map fst m).
Proof.
  unfold mapHas. rewrite existsb_exists, in_map_iff. split.
  - intros [e [I E]]. apply text_eqb_eq in E. eauto.
  - intros [e [E I]]. exists e. split; auto. apply text_eqb_eq. exact E.
Qed.

Lemma mapPush_keys (m : list (text * list string)) (key : text) (link : string) :
  map fst (mapPush m key link) = map fst m.
Proof.
  induction m as [|[k links] m IH]; simpl; [reflexivity|].
  destruct (Text.eqb k key); simpl; [reflexivity | f_equal; exact IH].
Qed.

Lemma mapPush_In (m : list (text * list string)) (key : text) (link : string) (k : text)
      (links' : list string) :
  NoDup (map fst m) -> In (k, links') (mapPush m key link) ->
  (k <> key /\ In (k, links') m) \/
  (k = key /\ exists links, In (k, links) m /\ links' = links ++ [link]).
Proof.
  induction m as [|[k0 l0] m IH]; simpl; intros N I; [contradiction|].
  inversion N as [|? ? Hn N']; subst.
  destruct (Text.eqb k0 key) eqn:E.
  - apply text_eqb_eq in E. subst k0. destruct I as [I|I].
    + inversion I; subst. right. split; eauto.
    + left. split; auto. intros Q. subst k. apply Hn.
      change key with (fst (key, links')). apply in_map. exact I.
  - apply text_eqb_neq in E. destruct I as [I|I].
    + inversion I; subst. left. auto.
    + destruct (IH N' I) as [[Q J]|[Q [links [J L]]]]; [left | right]; eauto.
Qed.

Lemma linksOf_app (key : text) (ns : list renderedCommit) (n : renderedCommit) :
  linksOf key (ns ++ [n]) =
  linksOf key ns ++ (if Text.eqb (r_note n) key then [r_link n] else []).
Proof.
  unfold linksOf. rewrite filter_app, map_app. simpl.
  destruct (Text.eqb (r_note n) key); reflexivity.
Qed.

Lemma linksOf_absent (key : text) (ns : list renderedCommit) :
  ~ In key (map r_note ns) -> linksOf key ns = [].
Proof.
  unfold linksOf. induction ns as [|n ns IH]; simpl; intros H; [reflexivity|].
  destruct (Text.eqb (r_note n) key) eqn:E.
  - apply text_eqb_eq in E. exfalso. auto.
  - apply IH. auto.
Qed.

Lemma collect_collected (ns : list renderedCommit) (n : renderedCommit)
      (m : list (text * list string)) :
  collected ns m -> collected (ns ++ [n]) (collect m n).
Proof.
  intros [N [K L]]. unfold collect.
  destruct (mapHas m (r_note n)) eqn:H; simpl.
  - (* the text is there already: one more link *)
    apply mapHas_In in H. repeat split.
    + rewrite mapPush_keys. exact N.
    + rewrite mapPush_keys, map_app, in_app_iff. intros I. left. apply K. exact I.
    + rewrite mapPush_keys, map_app, in_app_iff. simpl.
      intros [I|[I|[]]]; [apply K; exact I | subst key; exact H].
    + intros key links I. rewrite linksOf_app.
      destruct (@mapPush_In m (r_note n) (r_link n) key links N I)
        as [[Q J]|[Q [links0 [J E]]]].
      * apply text_eqb_neq in Q. rewrite text_eqb_sym, Q, app_nil_r. auto.
      * subst key links. rewrite text_eqb_refl. f_equal. auto.
  - (* a new text *)
    assert (A : ~ In (r_note n) (map fst m)).
    { intros I. apply mapHas_In in I. congruence. }
    repeat split.
    + rewrite map_app. simpl. apply NoDup_app; auto.
      * repeat constructor. intros [].
      * intros k I [Q|[]]. subst k. auto.
    + rewrite !map_app, !in_app_iff. simpl. intros [I|I]; [left; apply K|right]; auto.
    + rewrite !map_app, !in_app_iff. simpl. intros [I|I]; [left; apply K|right]; auto.
    + intros key links I. rewrite linksOf_app. apply in_app_iff in I.
      destruct I as [I|[I|[]]].
      * assert (Q : Text.eqb (r_note n) key = false).
        { apply text_eqb_neq. intros Q. subst key. apply A.
          change (r_note n) with (fst (r_note n, links)). apply in_map. exact I. }
        rewrite Q, app_nil_r. auto.
      * inversion I; subst. rewrite text_eqb_refl, linksOf_absent; auto.
        intros J. apply A. apply K. exact J.
Qed.

Lemma fold_collected (ns : list renderedCommit) :
  collected ns (fold_left collect ns []).
Proof.
  induction ns as [|n ns IH] using rev_ind.
  - repeat split; simpl; try tauto. constructor.
  - rewrite fold_left_app. simpl. apply collect_collected. exact IH.
Qed.

Lemma bullets_of_collected (ns : list renderedCommit) (m : list (text * list string)) :
  collected ns m -> Permutation (map bullet m) (map (bulletFor ns) (noteTexts ns)).
Proof.
  intros [N [K L]].
  assert (E : map bullet m = map (bulletFor ns) (map fst m)).
  { rewrite map_map. apply map_ext_in. intros [key links] I.
    unfold bullet, bulletFor. simpl. rewrite (L key links I). reflexivity. }
  rewrite E. apply Permutation_map. apply NoDup_Permutation; auto.
  - apply NoDup_nodup.
  - intros key. unfold noteTexts. rewrite nodup_In. apply K.
Qed.

(** The lines of a section, one by one. *)
Lemma sectionLines_bullets (ns : list renderedCommit) :
  exists keys,
    NoDup keys /\
    (forall key, In key keys <-> exists n, In n ns /\ r_note n = key) /\
    Forall2 (bulletOf ns) keys (sectionLines ns) /\
    Sorted textLe (sectionLines ns).
Proof.
  assert (P : Permutation (sectionLines ns) (map (bulletFor ns) (noteTexts ns))).
  { unfold sectionLines. rewrite sortLines_perm.
    apply bullets_of_collected, fold_collected. }
  apply Permutation_map_inv in P. destruct P as [keys [E P]].
  exists keys. split; [|split; [|split]].
  - eapply Permutation_NoDup; [exact P | apply NoDup_nodup].
  - intros key. split.
    + intros I. apply (Permutation_in _ (Permutation_sym P)) in I.
      unfold noteTexts in I. rewrite nodup_In, in_map_iff in I.
      destruct I as [n [E' I]]. eauto.
    + intros [n [I E']]. apply (Permutation_in _ P).
      unfold noteTexts. rewrite nodup_In, in_map_iff. eauto.
  - rewrite E. clear. induction keys as [|key keys IH]; simpl; constructor; [|exact IH].
    exists (sort (linksOf key ns)).
    split; [apply sort_perm | split; [apply sort_sorted | reflexivity]].
  - apply sortLines_sorted.
Qed.

Section RenderSection.
Variable numberToString : number -> string.

Lemma renderCommits_each (l : list commit) (ns : list renderedCommit) :
  renderCommits numberToString l = Ok ns ->
  Forall2 (fun c n => renderCommit numberToString c = Ok n) l ns.
Proof.
  revert ns. induction l as [|c l IH]; simpl; intros ns H.
  - inversion H. constructor.
  - destruct (renderCommit numberToString c) as [n|e] eqn:E; [|discriminate]. simpl in H.
    destruct (renderCommits numberToString l) as [ns'|e]; [|discriminate]. simpl in H.
    inversion H; subst. constructor; auto.
Qed.

Lemma renderSection_sectionOf (title : string) (l : list commit) (block : list text) :
  renderSection numberToString title l = Ok block ->
  sectionOf numberToString title l block.
Proof.
  unfold renderSection, sectionOf. destruct l as [|c l]; simpl Nat.eqb; cbv iota.
  - intros H. inversion H. reflexivity.
  - destruct (renderCommits numberToString (c :: l)) as [ns|e] eqn:R; [|discriminate].
    simpl. intros H. inversion H; subst block.
    destruct (sectionLines_bullets ns) as [keys [N [K [B S]]]].
    exists ns, keys, (sectionLines ns).
    repeat split; auto; try apply K. apply renderCommits_each. exact R.
Qed.

(** C9.  The text of the notes is made of the heading, the blocks of the
    sections 'Breaking Changes', 'Features', 'Fixes' and 'Other Changes',
    the documentation block and the block of the section 'Unknown'.  The
    block of a section without commits is empty.  The block of any other
    section consists of its title, its bullet lines and an empty line:
    there is exactly one bullet line for each distinct note text that
    [renderCommit] gives for a commit of the section, made of that text
    and the links of all the commits with that text, in ascending order
    and joined by commas; and the bullet lines are in ascending order. *)
Theorem section_groups_and_sorts (n : notes) (out : text) :
  renderNotes numberToString n = Ok out ->
  exists b1 b2 b3 b4 b6 : list text,
    sectionOf numberToString "Breaking Changes" (breaks n) b1 /\
    sectionOf numberToString "Features" (feat n) b2 /\
    sectionOf numberToString "Fixes" (fix_ n) b3 /\
    sectionOf numberToString "Other Changes" (other n) b4 /\
    sectionOf numberToString "Unknown" (unknown n) b6 /\
    out = concat ([units ("# Release Notes for " ++ ref n ++ nl ++ nl)]
                  ++ b1 ++ b2 ++ b3 ++ b4
                  ++ map units (renderDocs numberToString (docs n)) ++ b6).
Proof.
  unfold renderNotes. intros H.
  destruct (renderSection numberToString "Breaking Changes" (breaks n)) as [b1|e] eqn:E1;
    [|discriminate].
  destruct (renderSection numberToString "Features" (feat n)) as [b2|e] eqn:E2;
    [|discriminate].
  destruct (renderSection numberToString "Fixes" (fix_ n)) as [b3|e] eqn:E3;
    [|discriminate].
  destruct (renderSection numberToString "Other Changes" (other n)) as [b4|e] eqn:E4;
    [|discriminate].
  destruct (renderSection numberToString "Unknown" (unknown n)) as [b6|e] eqn:E6;
    [|discriminate].
  simpl in H. inversion H.
  exists b1, b2, b3, b4, b6.
  repeat (split; [apply renderSection_sectionOf; assumption|]). reflexivity.
Qed.

End RenderSection.

End Rendering.

(* ================================================================== *)
(** * The script on the examples of its documentation *)
(* ================================================================== *)

Section Examples.
Import JS RegExp Notes Spec.

(** 'some description (#99999)' sets subject and pr; 'semantic: ...' sets
    the type. *)
Lemma example_suffix :
  parseCommitMessage "fix: foo (#12)" "electron" "electron" emptyCommit = Ok fooTwelve.
Proof. vm_compute. reflexivity. Qed.

(** 'Merge pull request #99999 from branchname' sets pr and its branch;
    the word 'fix' of the branch name gives the legacy type. *)
Lemma example_merge :
  parseCommitMessage "Merge pull request #42 from user/fix-thing" "electron" "electron"
    emptyCommit = Ok mergeRecord.
Proof. vm_compute. reflexivity. Qed.

(** The sentinel, fed back as a note, gives the sentinel. *)
Lemma example_sentinel : getNoteFromBody (val "Notes: No notes") = val NO_NOTES.
Proof. vm_compute. reflexivity. Qed.

(** A version bump is an uninteresting commit. *)
Lemma example_bump : test reBump "Bump v1.2.3" = true /\ test reBump "bump 1.2.3" = false.
Proof. split; vm_compute; reflexivity. Qed.

(** Two commits with the same rendered note make one bullet, with both
    links, sorted: "#12" comes before "#7". *)
Lemma example_one_bullet :
  renderSection decimal "Fixes" [somethingSeven; somethingTwelve] =
  Ok [ units ("## Fixes" ++ nl ++ nl); units (" * Something. #12, #7" ++ nl); units nl ].
Proof. vm_compute. reflexivity. Qed.

(** The capital of a note that starts with a letter beyond 'z': 233 is
    the e with acute accent, 223 the sharp s, 181 the micro sign and 255
    the y with diaeresis. *)
Lemma example_capitals :
  cleanUp (String "233" "lan vital") = 201%N :: units "lan vital." /\
  cleanUp (String "223" "x") = [83; 83; 120; 46]%N /\
  cleanUp (String "181" "m") = [924; 109; 46]%N /\
  cleanUp (String "255" "es") = 376%N :: units "es.".
Proof. repeat split; vm_compute; reflexivity. Qed.

Lemma section_groups_and_sorts_witness :
  exists b1 b2 b3 b4 b6 : list text,
    sectionOf decimal "Breaking Changes" (breaks twoFixes) b1 /\
    sectionOf decimal "Features" (feat twoFixes) b2 /\
    sectionOf decimal "Fixes" (fix_ twoFixes) b3 /\
    sectionOf decimal "Other Changes" (other twoFixes) b4 /\
    sectionOf decimal "Unknown" (unknown twoFixes) b6 /\
    units ("# Release Notes for v1.0.1" ++ nl ++ nl ++ "## Fixes" ++ nl ++ nl
           ++ " * Something. #12, #7" ++ nl ++ nl) =
    concat ([units ("# Release Notes for " ++ ref twoFixes ++ nl ++ nl)]
            ++ b1 ++ b2 ++ b3 ++ b4
            ++ map units (renderDocs decimal (docs twoFixes)) ++ b6).
Proof.
  apply (section_groups_and_sorts decimal twoFixes). vm_compute. reflexivity.
Defined.

End Examples.

(* ================================================================== *)
(** * The texts of a match *)
(* ================================================================== *)

Section MatcherTexts.
Import JS RegExp Notes Spec.

Lemma length_app (a b : string) :
  String.length (a ++ b) = String.length a + String.length b.
Proof. induction a as [|x a IH]; simpl; [reflexivity | rewrite IH; reflexivity]. Qed.

Lemma sliceTo_app (w t : string) :
  sliceTo (String.length (w ++ t) - String.length t) (w ++ t) = w.
Proof.
  replace (String.length (w ++ t) - String.length t) with (String.length w).
  - induction w as [|c w IH]; simpl.
    + destruct t; reflexivity.
    + rewrite IH. reflexivity.
  - rewrite length_app. lia.
Qed.

Lemma append_assoc (a b c : string) : ((a ++ b) ++ c = a ++ (b ++ c))%string.
Proof. induction a as [|x a IH]; simpl; [reflexivity | rewrite IH; reflexivity]. Qed.

Lemma append_nil_r (a : string) : (a ++ "" = a)%string.
Proof. induction a as [|x a IH]; simpl; [reflexivity | rewrite IH; reflexivity]. Qed.

(** Wherever a pattern hands over to its continuation, the text it has
    passed is one of the texts it can consume. *)
Lemma run_sound (r : regex) :
  forall k p res, run r k p = Some res ->
  exists q w, k q = Some res /\ rest p = (w ++ rest q)%string /\ matches r w.
Proof.
  assert (Stay : forall (r0 : regex) (k : pos -> option pos) (p res : pos),
             matches r0 EmptyString -> k p = Some res ->
             exists q w, k q = Some res /\ rest p = (w ++ rest q)%string /\ matches r0 w).
  { intros r0 k p res M H. exists p, EmptyString. auto. }
  assert (Step : forall (r0 : regex) (k : pos -> option pos) (p res : pos) d t,
             rest p = String d t -> matches r0 (String d EmptyString) ->
             k (advance d t p) = Some res ->
             exists q w, k q = Some res /\ rest p = (w ++ rest q)%string /\ matches r0 w).
  { intros r0 k p res d t R M H. exists (advance d t p), (String d EmptyString). auto. }
  induction r as [ |c|f|r1 IH1 r2 IH2|r1 IH1 r2 IH2|r1 IH1|i r1 IH1| | | ];
    intros k p res H;
    [simpl in H .. | rewrite run_Star in H | simpl in H | simpl in H | simpl in H | simpl in H].
  - apply Stay; [constructor | exact H].
  - destruct (rest p) as [|d t] eqn:R; [discriminate|].
    destruct (Ascii.eqb c d) eqn:E; [|discriminate]. apply Ascii.eqb_eq in E. subst d.
    rewrite <- R. eapply Step; eauto. constructor.
  - destruct (rest p) as [|d t] eqn:R; [discriminate|].
    destruct (f d) eqn:E; [|discriminate].
    rewrite <- R. eapply Step; eauto. constructor. exact E.
  - apply IH1 in H. destruct H as [q1 [w1 [H [R1 M1]]]].
    apply IH2 in H. destruct H as [q2 [w2 [H [R2 M2]]]].
    exists q2, (w1 ++ w2)%string. split; [exact H | split].
    + rewrite R1, R2, append_assoc. reflexivity.
    + constructor; assumption.
  - destruct (run r1 k p) as [x|] eqn:E.
    + inversion H; subst x. apply IH1 in E. destruct E as [q [w [E [R M]]]].
      exists q, w. split; [exact E | split; [exact R | apply matches_AltL; exact M]].
    + apply IH2 in H. destruct H as [q [w [E' [R M]]]].
      exists q, w. split; [exact E' | split; [exact R | apply matches_AltR; exact M]].
  - revert H. generalize (S (String.length (rest p))). intros n. revert p.
    induction n as [|n IHn]; intros p H; simpl in H.
    + apply Stay; [constructor | exact H].
    + destruct (run r1 _ p) as [x|] eqn:E.
      * inversion H; subst x. apply IH1 in E. destruct E as [q1 [w1 [E [R1 M1]]]].
        destruct (Nat.ltb _ _) eqn:Lt; [|discriminate].
        apply IHn in E. destruct E as [q [w [E [R M]]]].
        exists q, (w1 ++ w)%string. split; [exact E | split].
        -- rewrite R1, R, append_assoc. reflexivity.
        -- constructor; assumption.
      * apply Stay; [constructor | exact H].
  - apply IH1 in H. destruct H as [q [w [H [R M]]]].
    exists (capture i p q), w. split; [exact H | split; [exact R | constructor; exact M]].
  - destruct (before p); [discriminate|]. apply Stay; [constructor | exact H].
  - destruct (rest p) eqn:R; [|discriminate]. rewrite <- R. apply Stay; [constructor | exact H].
  - destruct (xorb _ _); [|discriminate]. apply Stay; [constructor | exact H].
Qed.

(** After a match, a group on the spine of the pattern holds a text its
    own pattern can consume. *)
Lemma run_group (r : regex) :
  forall i b, spine i r = Some b ->
  forall k p res, run r k p = Some res ->
  exists q, k q = Some res /\ matches b (lookupGroup i (caps q)).
Proof.
  induction r as [ |c|f|r1 IH1 r2 IH2|r1 IH1 r2 IH2|r1 IH1|j r1 IH1| | | ];
    intros i b Sp k p res H; simpl in Sp; try discriminate.
  - rewrite run_Cat in H.
    destruct (spine i r2) as [b2|] eqn:S2.
    + inversion Sp; subst b2.
      apply run_inv in H. destruct H as [q1 [H _]].
      eapply IH2; eauto.
    + destruct (existsb (Nat.eqb i) (groupIds r2)) eqn:G; [discriminate|].
      destruct (IH1 _ _ Sp _ _ _ H) as [q1 [H1 M1]].
      apply run_inv in H1. destruct H1 as [q [H2 [_ C]]].
      exists q. split; auto. rewrite C; auto.
      intros I. assert (existsb (Nat.eqb i) (groupIds r2) = true).
      { apply existsb_exists. exists i. split; auto. apply Nat.eqb_refl. }
      congruence.
  - rewrite run_Grp in H.
    destruct (Nat.eqb i j) eqn:E.
    + inversion Sp; subst b. apply Nat.eqb_eq in E. subst j.
      apply run_sound in H. destruct H as [q [w [H [R M]]]].
      exists (capture i p q). split; auto.
      simpl. rewrite Nat.eqb_refl, R, sliceTo_app. exact M.
    + destruct (IH1 _ _ Sp _ _ _ H) as [q [H1 M1]].
      exists (capture j p q). split; auto. simpl. rewrite E. exact M1.
Qed.

Lemma searchFrom_inv (r : regex) (s : string) :
  forall b i m, searchFrom r b s i = Some m ->
  exists b' s' q, matchAt r b' s' = Some q /\ groups m = caps q.
Proof.
  induction s as [|c t IH]; intros b i m H; simpl in H.
  - destruct (matchAt r b EmptyString) as [q|] eqn:E; [|discriminate].
    inversion H; subst m. exists b, EmptyString, q. auto.
  - destruct (matchAt r b (String c t)) as [q|] eqn:E.
    + inversion H; subst m. exists b, (String c t), q. auto.
    + eapply IH; eauto.
Qed.

(** The text of a group of a match. *)
Lemma exec_group (r b : regex) (i : nat) (s : string) (m : found) :
  spine i r = Some b -> exec r s = Some m -> matches b (group m i).
Proof.
  intros Sp H. unfold exec in H. apply searchFrom_inv in H.
  destruct H as [b' [s' [q [H G]]]]. unfold matchAt in H.
  destruct (run_group _ _ Sp _ _ H) as [q' [E M]].
  inversion E; subst q'. unfold group. rewrite G. exact M.
Qed.

Lemma allChars_app (f : ascii -> bool) (a b : string) :
  allChars f (a ++ b) = allChars f a && allChars f b.
Proof.
  induction a as [|c a IH]; simpl; [reflexivity|]. rewrite IH, andb_assoc. reflexivity.
Qed.

Lemma matches_Cls_inv (f : ascii -> bool) (w : string) :
  matches (Cls f) w -> String.length w = 1 /\ allChars f w = true.
Proof. intros H. inversion H; subst. simpl. rewrite H1. auto. Qed.

Lemma matches_Star_Cls (f : ascii -> bool) (w : string) :
  matches (Star (Cls f)) w -> allChars f w = true.
Proof.
  intros H. remember (Star (Cls f)) as r eqn:E. induction H; try discriminate.
  - reflexivity.
  - inversion E; subst r. apply matches_Cls_inv in H. destruct H as [_ H].
    rewrite allChars_app, H. simpl. apply IHmatches2. reflexivity.
Qed.

(** A group [(c+)] holds at least one character, all of them in the class. *)
Lemma matches_Plus_Cls (f : ascii -> bool) (w : string) :
  matches (Plus (Cls f)) w -> w <> EmptyString /\ allChars f w = true.
Proof.
  unfold Plus. intros H. inversion H; subst.
  apply matches_Star_Cls in H4. inversion H2; subst. simpl. rewrite H1, H4.
  split; [discriminate | reflexivity].
Qed.

(** A group [(c{n})] holds exactly [n] characters of the class. *)
Lemma matches_Rep_Cls (f : ascii -> bool) (n : nat) (w : string) :
  matches (Rep n (Cls f)) w -> String.length w = n /\ allChars f w = true.
Proof.
  revert w. induction n as [|n IH]; intros w H.
  - simpl in H. inversion H; subst. auto.
  - destruct n as [|n].
    + simpl in H. apply matches_Cls_inv. exact H.
    + change (Rep (S (S n)) (Cls f)) with (Cat (Cls f) (Rep (S n) (Cls f))) in H.
      inversion H; subst. apply matches_Cls_inv in H2. destruct H2 as [L1 A1].
      apply IH in H4. destruct H4 as [L2 A2].
      rewrite length_app, allChars_app, L1, L2, A1, A2. auto.
Qed.

End MatcherTexts.

(* ================================================================== *)
(** * More on the message parser *)
(* ================================================================== *)

Section ParserMore.
Import JS RegExp Notes Spec.

(** ** What a parse leaves alone *)

Lemma parse_Ok (m owner repo : string) (c c' : commit) :
  parseCommitMessage m owner repo c = Ok c' -> c' = parsed m owner repo c.
Proof.
  rewrite parse_eq. destruct (guards m owner repo); [|discriminate].
  intros H. inversion H. reflexivity.
Qed.

(** X2.  A parse that returns leaves [email], [hash], [owner], [repo] and
    [parentHashes] of the record as they are. *)
Theorem parse_keeps_identity (m owner repo : string) (c c' : commit) :
  parseCommitMessage m owner repo c = Ok c' ->
  email c' = email c /\ hash c' = hash c /\ Notes.owner c' = Notes.owner c /\
  Notes.repo c' = Notes.repo c /\ parentHashes c' = parentHashes c.
Proof.
  rewrite parse_eq. destruct (guards m owner repo); [|discriminate].
  intros H. inversion H; subst c'. apply parsed_identity.
Qed.

Lemma parse_keeps_identity_witness :
  email atTwo = email somethingOne /\ hash atTwo = hash somethingOne /\
  Notes.owner atTwo = Notes.owner somethingOne /\
  Notes.repo atTwo = Notes.repo somethingOne /\
  parentHashes atTwo = parentHashes somethingOne.
Proof.
  apply (@parse_keeps_identity ("a" ++ nl ++ nl ++ "Backport of #2") "electron" "electron"
           somethingOne atTwo).
  vm_compute. reflexivity.
Defined.

(** ** The subject *)

Lemma trimStart_head (s : string) :
  trimStart s = EmptyString \/
  exists c t, trimStart s = String c t /\ isSpace c = false.
Proof.
  induction s as [|c t IH]; simpl; [left; reflexivity|].
  destruct (isSpace c) eqn:E; [exact IH|]. right. exists c, t. auto.
Qed.

Lemma trimEnd_twice (s : string) : trimEnd (trimEnd s) = trimEnd s.
Proof.
  induction s as [|c t IH]; simpl; [reflexivity|].
  destruct (trimEnd t) as [|d t'] eqn:E.
  - destruct (isSpace c) eqn:Sp; simpl; [reflexivity|]. rewrite Sp. reflexivity.
  - change (trimEnd (String c (String d t'))) with
      (match trimEnd (String d t') with
       | EmptyString => if isSpace c then EmptyString else String c EmptyString
       | t'' => String c t''
       end).
    rewrite IH. reflexivity.
Qed.

Lemma trimEnd_head (c : ascii) (t : string) :
  isSpace c = false -> exists t', trimEnd (String c t) = String c t'.
Proof.
  intros E. simpl. destruct (trimEnd t); [rewrite E|]; eauto.
Qed.

(** Trimming a trimmed text changes nothing. *)
Lemma trim_twice (s : string) : trim (trim s) = trim s.
Proof.
  unfold trim. destruct (trimStart_head s) as [E|[c [t [E Sp]]]]; rewrite E.
  - reflexivity.
  - destruct (@trimEnd_head c t Sp) as [t' E']. rewrite E'.
    simpl trimStart. rewrite Sp. rewrite <- E'. apply trimEnd_twice.
Qed.

(** X3.  A parse that returns always sets [subject], to a text without white
    space at either end. *)
Theorem parse_sets_subject (m owner repo : string) (c c' : commit) :
  parseCommitMessage m owner repo c = Ok c' ->
  exists s, subject c' = Some s /\ trim s = s.
Proof.
  rewrite parse_eq. destruct (guards m owner repo); [|discriminate].
  intros H. inversion H; subst c'. rewrite parsed_subject.
  eexists. split; [reflexivity | apply trim_twice].
Qed.

Lemma parse_sets_subject_witness : exists s, subject fooTwelve = Some s /\ trim s = s.
Proof.
  apply (@parse_sets_subject "fix: foo (#12)" "electron" "electron" emptyCommit).
  vm_compute. reflexivity.
Defined.

(** ** A message without a body *)

(** X4.  When the message has no body (nothing but white space after the first
    line feed, or no line feed), a parse leaves [body], [note] and
    [revertHash] as they are. *)
Theorem parse_without_body (m owner repo : string) (c c' : commit) :
  snd (splitMessage m) = EmptyString ->
  parseCommitMessage m owner repo c = Ok c' ->
  body c' = body c /\ note c' = note c /\ revertHash c' = revertHash c.
Proof.
  intros B. rewrite parse_eq. destruct (guards m owner repo); [|discriminate].
  intros H. inversion H; subst c'.
  rewrite parsed_body, parsed_note, parsed_revertHash.
  unfold bodyOf. rewrite B. repeat split.
Qed.

Lemma parse_without_body_witness :
  body fooTwelve = body emptyCommit /\ note fooTwelve = note emptyCommit /\
  revertHash fooTwelve = revertHash emptyCommit.
Proof.
  apply (@parse_without_body "fix: foo (#12)" "electron" "electron"); vm_compute; reflexivity.
Defined.

(** ** The hash of a reverted commit *)

Lemma reRevert_sha (b : string) (m : found) :
  exec reRevert b = Some m ->
  String.length (group m 1) = 40 /\ allChars isHexLower (group m 1) = true.
Proof.
  intros H. apply matches_Rep_Cls.
  eapply exec_group; [|exact H]. reflexivity.
Qed.

(** X5.  A parse either leaves [revertHash] as it is or sets it to exactly 40
    characters, each of them a digit or a letter from a to f in lower
    case. *)
Theorem revertHash_is_sha (m owner repo : string) (c c' : commit) :
  parseCommitMessage m owner repo c = Ok c' ->
  revertHash c' = revertHash c \/
  exists h, revertHash c' = Some h /\ String.length h = 40 /\ allChars isHexLower h = true.
Proof.
  rewrite parse_eq. destruct (guards m owner repo); [|discriminate].
  intros H. inversion H; subst c'. rewrite parsed_revertHash. unfold revertFrom.
  destruct (exec reRevert (bodyOf m)) as [f|] eqn:E; [right | left; reflexivity].
  exists (group f 1). split; [reflexivity | apply (reRevert_sha _ E)].
Qed.

Lemma revertHash_is_sha_witness :
  revertHash reverting = revertHash emptyCommit \/
  exists h, revertHash reverting = Some h /\ String.length h = 40 /\
            allChars isHexLower h = true.
Proof.
  assert (E : parseCommitMessage revertMessage "electron" "electron"
                (mkCommit None (Some "89abcdef0123456789abcdef0123456789abcdef")
                   (Some "electron") (Some "electron") None None None undefined
                   undefined undefined None None None None) = Ok reverting)
    by (vm_compute; reflexivity).
  apply (revertHash_is_sha _ _ _ _ E).
Defined.

(** ** Where the type comes from *)

Lemma lowerChar_word (c : ascii) : isWord c = true -> isWord (lowerChar c) = true.
Proof.
  destruct c as [[] [] [] [] [] [] [] []]; vm_compute; intros H; try exact H; reflexivity.
Qed.

Lemma toLowerCase_word (s : string) :
  allChars isWord s = true -> allChars isWord (toLowerCase s) = true.
Proof.
  induction s as [|c t IH]; simpl; [reflexivity|].
  intros H. apply andb_true_iff in H. destruct H as [H1 H2].
  rewrite (lowerChar_word _ H1). simpl. apply IH. exact H2.
Qed.

(** The word of a semantic subject is made of letters, digits and
    underscores. *)
Lemma reSemantic_chars (s : string) (m : found) :
  exec reSemantic s = Some m -> allChars isWord (group m 1) = true.
Proof.
  intros H. apply (matches_Plus_Cls (f := isWord)).
  eapply exec_group; [|exact H]. reflexivity.
Qed.

Lemma reChoreScope_chars (s : string) (m : found) :
  exec reChoreScope s = Some m -> allChars isWord (group m 1) = true.
Proof.
  intros H. apply (matches_Plus_Cls (f := isWord)).
  eapply exec_group; [|exact H]. reflexivity.
Qed.

Lemma defaultFix_breaking (t : option string) :
  defaultFix t = Some "breaking-change" -> t = Some "breaking-change".
Proof.
  unfold defaultFix. destruct (negb (truthyText t)); [discriminate | auto].
Qed.

(** X7.  The type 'breaking-change' comes from a paragraph that starts with
    'BREAKING CHANGE' and from nowhere else: a record has it after a parse
    only if the message has such a paragraph or the record had the type
    before.  The word of a semantic prefix or of 'chore(word):' cannot
    hold the hyphen. *)
Theorem breaking_change_needs_paragraph (m owner repo : string) (c c' : commit) :
  parseCommitMessage m owner repo c = Ok c' ->
  type c' = Some "breaking-change" ->
  hasBreakingChange m = true \/ type c = Some "breaking-change".
Proof.
  rewrite parse_eq. destruct (guards m owner repo); [|discriminate].
  intros H. inversion H; subst c'. clear H. rewrite parsed_type.
  destruct (hasBreakingChange m) eqn:B; [left; reflexivity | right].
  revert H. unfold typeAfter, breakingType. rewrite B.
  set (t1 := semanticType (subject1 m) (type c)).
  set (t2 := issueType (subject2 m) t1).
  set (t3 := markdownType m _ t2).
  intros H.
  assert (H3 : t3 = Some "breaking-change").
  { revert H. unfold legacyType. destruct (negb (truthyText t3) || _); [|auto].
    destruct (exec reChoreScope (toLowerCase m)) as [f|] eqn:E.
    - destruct (has knownTypes (group f 1)); [|discriminate].
      intros H. inversion H as [G]. apply reChoreScope_chars in E. rewrite G in E.
      discriminate E.
    - destruct (test reFixWord _); [discriminate|].
      destruct (test reDocsTag _); [discriminate | auto]. }
  assert (H2 : t2 = Some "breaking-change").
  { revert H3. unfold t3, markdownType. destruct (markdownFires _ _); auto.
    apply defaultFix_breaking. }
  assert (H1 : t1 = Some "breaking-change").
  { revert H2. unfold t2, issueType. destruct (exec reIssue _); auto.
    apply defaultFix_breaking. }
  revert H1. unfold t1, semanticType.
  destruct (exec reSemantic (subject1 m)) as [f|] eqn:E; [|auto].
  intros H1. inversion H1 as [G]. apply reSemantic_chars, toLowerCase_word in E.
  rewrite G in E. discriminate E.
Qed.

Lemma breaking_change_needs_paragraph_witness :
  hasBreakingChange breakingChore = true \/ type emptyCommit = Some "breaking-change".
Proof.
  eapply (@breaking_change_needs_paragraph breakingChore "electron" "electron" emptyCommit);
    vm_compute; reflexivity.
Defined.

Lemma typeAfter_semantic (m : string) (i : option number) (t : option string) (f : found) :
  exec reSemantic (subject1 m) = Some f ->
  toLowerCase (group f 1) <> "chore" ->
  hasBreakingChange m = false ->
  typeAfter m i t = Some (toLowerCase (group f 1)).
Proof.
  intros E NC B.
  unfold typeAfter, breakingType, semanticType. rewrite B, E.
  pose proof (toLowerCase_truthy (reSemantic_word _ E)) as T.
  assert (K : truthyText (Some (toLowerCase (group f 1))) = true) by exact T.
  assert (I : issueType (subject2 m) (Some (toLowerCase (group f 1))) =
              Some (toLowerCase (group f 1))).
  { unfold issueType. destruct (exec reIssue _); [apply defaultFix_truthy; exact K | reflexivity]. }
  rewrite I.
  assert (M : forall j, markdownType m j (Some (toLowerCase (group f 1))) =
                        Some (toLowerCase (group f 1))).
  { intros j. unfold markdownType. destruct (markdownFires m j);
      [apply defaultFix_truthy; exact K | reflexivity]. }
  rewrite M. unfold legacyType. rewrite K. cbn [negb orb].
  destruct (String.eqb (toLowerCase (group f 1)) "chore") eqn:Q; [|reflexivity].
  apply String.eqb_eq in Q. contradiction.
Qed.

(** X8.  When the subject, without a '(#digits)' suffix, has a semantic prefix
    'word: ', the word is not 'chore' in any case and no paragraph starts
    with 'BREAKING CHANGE', the type after the parse is the word in lower
    case: the issue rules and the legacy rules leave it alone. *)
Theorem semantic_type_wins (m owner repo : string) (c c' : commit) (f : found) :
  parseCommitMessage m owner repo c = Ok c' ->
  exec reSemantic (subject1 m) = Some f ->
  toLowerCase (group f 1) <> "chore" ->
  hasBreakingChange m = false ->
  type c' = Some (toLowerCase (group f 1)).
Proof.
  intros H E NC B. apply parse_Ok in H. subst c'. rewrite parsed_type.
  apply typeAfter_semantic; assumption.
Qed.

Lemma semantic_type_wins_witness :
  type fooTwelve = Some (toLowerCase (group (mkFound 0 "" [(2, "foo"); (1, "fix")]) 1)).
Proof.
  apply (@semantic_type_wins "fix: foo (#12)" "electron" "electron" emptyCommit fooTwelve);
    [vm_compute; reflexivity | vm_compute; reflexivity | vm_compute; discriminate
    | vm_compute; reflexivity].
Defined.

(** ** Pull requests *)

Lemma wellFormed_null : wellFormed null.
Proof. intros p H. discriminate. Qed.

Lemma guardOk_wellFormed (p : pullRequest) :
  guardOk (Some p) = true -> wellFormed (val p).
Proof.
  unfold guardOk. intros H q E. inversion E; subst q.
  apply andb_true_iff in H. destruct H as [H N]. apply andb_true_iff in H.
  destruct H as [O R]. repeat split; auto.
  - intros Q. rewrite Q in O. discriminate.
  - intros Q. rewrite Q in R. discriminate.
Qed.

Lemma recordSt_wellFormed (call : option pullRequest) (st : prState) :
  guardOk call = true -> wellFormed (fst st) /\ wellFormed (snd st) ->
  wellFormed (fst (recordSt call st)) /\ wellFormed (snd (recordSt call st)).
Proof.
  intros G [W1 W2]. destruct st as [p o]. destruct call as [new|]; simpl in *; [|auto].
  split; [apply guardOk_wellFormed; exact G|].
  unfold firstOf. destruct (isSet o); [exact W2|].
  destruct (isSet p); [exact W1 | apply guardOk_wellFormed; exact G].
Qed.

Lemma clearSt_wellFormed (m : string) (i : option number) (st : prState) :
  wellFormed (fst st) /\ wellFormed (snd st) ->
  wellFormed (fst (clearSt m i st)) /\ wellFormed (snd (clearSt m i st)).
Proof.
  intros [W1 W2]. destruct st as [p o]. unfold clearSt, markdownClear, clearWith. simpl.
  destruct (markdownFires m i) as [n|]; [|auto].
  split.
  - destruct (isIssue p n); [apply wellFormed_null | exact W1].
  - destruct (isIssue o n); [apply wellFormed_null | exact W2].
Qed.

(** X6.  If [pr] and [originalPr] hold, when they are set, a non-empty owner, a
    non-empty repository and a truthy number, they still do after a parse
    that returns: the guard of [setPullRequest] lets no other pull request
    into a record. *)
Theorem pull_requests_well_formed (m owner repo : string) (c c' : commit) :
  parseCommitMessage m owner repo c = Ok c' ->
  wellFormed (pr c) -> wellFormed (originalPr c) ->
  wellFormed (pr c') /\ wellFormed (originalPr c').
Proof.
  rewrite parse_eq. destruct (guards m owner repo) eqn:G; [|discriminate].
  intros H W1 W2. inversion H; subst c'. clear H.
  unfold guards in G. repeat (apply andb_true_iff in G; destruct G as [G ?]).
  pose proof (parsed_prState m owner repo c) as E.
  assert (P1 : pr (parsed m owner repo c) =
               fst (prStateAfter m owner repo (issueNumber c) (pr c, originalPr c)))
    by (rewrite <- E; reflexivity).
  assert (P2 : originalPr (parsed m owner repo c) =
               snd (prStateAfter m owner repo (issueNumber c) (pr c, originalPr c)))
    by (rewrite <- E; reflexivity).
  rewrite P1, P2. unfold prStateAfter.
  do 2 (apply recordSt_wellFormed; [assumption|]).
  apply clearSt_wellFormed.
  do 3 (apply recordSt_wellFormed; [assumption|]).
  split; assumption.
Qed.

Lemma pull_requests_well_formed_witness :
  wellFormed (pr fooTwelve) /\ wellFormed (originalPr fooTwelve).
Proof.
  apply (@pull_requests_well_formed "fix: foo (#12)" "electron" "electron" emptyCommit);
    [vm_compute; reflexivity | intros p H; discriminate H | intros p H; discriminate H].
Defined.

(** ** Calls of setPullRequest in a row *)

Lemma last_cons (A : Type) (l : list A) (a d : A) : last (a :: l) d = last l a.
Proof.
  revert a d. induction l as [|b l IH]; intros a d; [reflexivity|].
  change (last (a :: b :: l) d) with (last (b :: l) d). rewrite !IH. reflexivity.
Qed.

Lemma setPullRequests_last (calls : list request) (first : request) (c c' : commit) :
  setPullRequests (first :: calls) c = Ok c' ->
  pr c' = val (requested (last calls first)) /\
  originalPr c' = firstOf (originalPr c) (pr c) (requested first).
Proof.
  revert first c. induction calls as [|next calls IH]; intros [[o r] n] c H.
  - change (setPullRequests [(o, r, n)] c)
      with (bind (setPullRequest c o r n) (fun c0 => Ok c0)) in H.
    rewrite setPullRequest_eq in H. cbv zeta in H.
    destruct (guardOk _); [|discriminate]. simpl bind in H. inversion H; subst c'.
    destruct c; split; reflexivity.
  - change (setPullRequests ((o, r, n) :: next :: calls) c)
      with (bind (setPullRequest c o r n) (setPullRequests (next :: calls))) in H.
    rewrite setPullRequest_eq in H. cbv zeta in H.
    destruct (guardOk _); [|discriminate]. simpl bind in H.
    apply IH in H. destruct H as [P O]. split.
    + rewrite P, last_cons. reflexivity.
    + rewrite O. destruct c as [? ? ? ? ? ? ? ? p0 o0 ? ? ? ?]. simpl.
      unfold firstOf. simpl. destruct o0; simpl; try reflexivity; destruct p0; reflexivity.
Qed.

(** X1.  After calls of [setPullRequest] in a row that all return, [pr] is the
    pull request of the last call, and [originalPr] is what it was before
    if it was set, else the [pr] the record had before if it was set, else
    the pull request of the first call. *)
Theorem setPullRequest_first_and_last (calls : list request) (first : request) (c c' : commit) :
  setPullRequests (first :: calls) c = Ok c' ->
  pr c' = val (requested (last calls first)) /\
  originalPr c' = (if isSet (originalPr c) then originalPr c
                   else if isSet (pr c) then pr c
                   else val (requested first)).
Proof. apply setPullRequests_last. Qed.

Lemma setPullRequest_first_and_last_witness :
  pr fooThirteen = val (requested (last [("electron", "electron", NumV (Num 13))]
                                        ("electron", "electron", NumV (Num 12)))) /\
  originalPr fooThirteen = val (requested ("electron", "electron", NumV (Num 12))).
Proof.
  apply (@setPullRequest_first_and_last [("electron", "electron", NumV (Num 13))]
           ("electron", "electron", NumV (Num 12))
           (mkCommit None None None None None (Some "fix: foo (#12)")
              (Some "Backport of #13") undefined undefined undefined (Some "fix") None None
              (Some "Bar"))).
  vm_compute. reflexivity.
Defined.

End ParserMore.

(* ================================================================== *)
(** * More on the pool *)
(* ================================================================== *)

Section PoolMore.
Import JS RegExp Notes Spec.

(** ** Which records the cancel-out pass writes to *)

Lemma set_note_twice (v : field string) (c : commit) :
  set_note v (set_note v c) = set_note v c.
Proof. destruct c; reflexivity. Qed.

Lemma cancelAt_exact (p : pool) (i k : nat) (c : commit) :
  nth_error (commits p) k = Some c ->
  nth_error (commits (cancelAt p i)) k =
  Some (if hits (commits p) k i then set_note (val NO_NOTES) c else c).
Proof.
  intros E. unfold cancelAt, hits, revertedBy.
  destruct (nth_error (commits p) i) as [x|]; [|exact E].
  destruct (revertHash x) as [h|]; [|exact E].
  destruct (truthyString h); [|exact E].
  destruct (findIndex _ (commits p)) as [j|]; [|exact E].
  simpl. rewrite !nth_error_updateAt, E.
  destruct (Nat.eqb i k), (Nat.eqb j k); simpl; rewrite ?set_note_twice; reflexivity.
Qed.

Lemma marked_revertedBy (l l' : list commit) (i : nat) :
  Forall2 marked l l' -> revertedBy l' i = revertedBy l i.
Proof.
  intros M. unfold revertedBy.
  destruct (nth_error l i) as [c|] eqn:E.
  - destruct (Forall2_nth i M E) as [c' [E' Mc]]. rewrite E', (marked_revertHash Mc).
    destruct (revertHash c) as [h|]; [|reflexivity].
    rewrite (marked_findIndex _ M). reflexivity.
  - assert (E' : nth_error l' i = None).
    { apply nth_error_None. rewrite <- (Forall2_length M). apply nth_error_None. exact E. }
    rewrite E'. reflexivity.
Qed.

Lemma existsb_same (A : Type) (f g : A -> bool) (l : list A) :
  (forall x, f x = g x) -> existsb f l = existsb g l.
Proof.
  intros H. induction l as [|x l IH]; simpl; [reflexivity|]. rewrite H, IH. reflexivity.
Qed.

Lemma cancel_exact (turns : list nat) :
  forall (p : pool) (k : nat) (c : commit),
  nth_error (commits p) k = Some c ->
  nth_error (commits (fold_left cancelAt turns p)) k =
  Some (if existsb (hits (commits p) k) turns then set_note (val NO_NOTES) c else c).
Proof.
  induction turns as [|i turns IH]; intros p k c E; simpl; [exact E|].
  rewrite (IH _ _ _ (@cancelAt_exact p i k c E)). f_equal.
  assert (Same : existsb (hits (commits (cancelAt p i)) k) turns =
                 existsb (hits (commits p) k) turns).
  { apply existsb_same. intros x. unfold hits.
    rewrite (@marked_revertedBy (commits p) (commits (cancelAt p i)) x (cancelAt_marked p i)).
    reflexivity. }
  rewrite Same.
  destruct (hits (commits p) k i), (existsb (hits (commits p) k) turns); simpl;
    rewrite ?set_note_twice; reflexivity.
Qed.

(** X18.  The cancel-out pass leaves the pool with as many records as it had,
    each at its index.  It sets the note of a record to the sentinel
    exactly when the commit reverts a hash that [find] finds in the pool,
    or is the commit that [find] returns for the hash some commit of the
    pool reverts; every other record is left as it is. *)
Theorem cancelReverts_exact (p : pool) :
  List.length (commits (cancelReverts p)) = List.length (commits p) /\
  forall k c,
    nth_error (commits p) k = Some c ->
    nth_error (commits (cancelReverts p)) k =
    Some (if cancels (commits p) k then set_note (val NO_NOTES) c else c).
Proof.
  split.
  - symmetry. apply (Forall2_length (cancel_marked (seq 0 (List.length (commits p))) p)).
  - intros k c E. unfold cancelReverts, cancels. apply cancel_exact. exact E.
Qed.

Lemma cancelReverts_exact_witness :
  List.length (commits (cancelReverts (mkPool [] [reverted; reverting; fooTwelve]))) = 3 /\
  nth_error (commits (cancelReverts (mkPool [] [reverted; reverting; fooTwelve]))) 2 =
  Some (if cancels [reverted; reverting; fooTwelve] 2
        then set_note (val NO_NOTES) fooTwelve else fooTwelve).
Proof.
  destruct (cancelReverts_exact (mkPool [] [reverted; reverting; fooTwelve])) as [L E].
  split; [exact L | apply (E 2 fooTwelve); reflexivity].
Defined.

(** ** Buckets *)

Ltac into_bucket :=
  repeat (etransitivity; [apply Permutation_middle | apply Permutation_app_head]);
  apply Permutation_refl.

Lemma classify_perm (l : list commit) (toRef : string) :
  Permutation l (allCommits (classify l toRef)).
Proof.
  unfold allCommits, classify. simpl.
  induction l as [|c l IH]; [constructor|].
  eapply perm_trans; [apply perm_skip; exact IH|].
  unfold inBucket. simpl filter.
  destruct (bucketOf c); simpl; into_bucket.
Qed.


End PoolMore.

(* ================================================================== *)
(** * From the log to the notes *)
(* ================================================================== *)

Section Pipeline.
Import JS RegExp Notes Spec.

Variable gitExec : string -> list string -> result string.
Variable semver_parse : string -> option SemVer.
Variable gitDir : string.
Variable vendorDir : string -> string.
Variable nodeDir : string.
Variable useGyp : bool.
Variable getGypSubmoduleRef : string -> string -> result string.
Variable getDepsVariable : string -> string -> result string.
Variable getPullRequest : value -> string -> string -> result (option response).

(** ** Properties of a record that every pass keeps *)

Lemma followOnce_kept (P : commit -> Prop) (p : pullRequest) (c : commit) :
  kept P -> P c ->
  match followOnce getPullRequest p c with
  | Ok (inl c') => P c'
  | Ok (inr (_, c')) => P c'
  | Throw _ => True
  end.
Proof.
  intros [Kn Kp] H. unfold followOnce.
  destruct (getPullRequest _ _ _) as [[[[d|]]|]|e]; simpl; auto.
  destruct (truthyNote _); [apply Kn; exact H|].
  destruct (parseCommitMessage _ _ _ _) as [c1|e] eqn:E; simpl; auto.
  destruct (pr c1); auto; eapply Kp; try exact E; apply Kn; exact H.
Qed.

Lemma followLoop_kept (P : commit -> Prop) (fuel : nat) :
  kept P ->
  forall cursor c c', P c -> followLoop getPullRequest fuel cursor c = Some (Ok c') -> P c'.
Proof.
  intros K. induction fuel as [|fuel IH]; intros cursor c c' H E; simpl in E.
  - destruct cursor; try (inversion E; subst; exact H).
    destruct (negb _); [discriminate | inversion E; subst; exact H].
  - destruct cursor as [| |p]; try (inversion E; subst; exact H).
    destruct (negb _); [|inversion E; subst; exact H].
    pose proof (@followOnce_kept P p c K H) as F.
    destruct (followOnce getPullRequest p c) as [[c1|[cur c1]]|e]; try discriminate.
    + inversion E; subst. exact F.
    + eapply IH; eauto.
Qed.

Lemma scrapeCommits_kept (P : commit -> Prop) (fuel : nat) (l l' : list commit) :
  kept P -> Forall P l -> scrapeCommits getPullRequest fuel l = Some (Ok l') -> Forall P l'.
Proof.
  intros K H. revert l'. induction H as [|c l Hc Hl IH]; intros l' E; simpl in E.
  - inversion E; subst. constructor.
  - destruct (scrapeCommit getPullRequest fuel c) as [[c'|]|] eqn:Ec; try discriminate.
    destruct (scrapeCommits getPullRequest fuel l) as [[l''|]|]; try discriminate.
    inversion E; subst. constructor; [|apply IH; reflexivity].
    unfold scrapeCommit in Ec. eapply followLoop_kept; eauto.
Qed.

Lemma marked_kept (P : commit -> Prop) (l l' : list commit) :
  kept P -> Forall2 marked l l' -> Forall P l -> Forall P l'.
Proof.
  intros [Kn _] M. induction M as [|c c' l l' Mc M IH]; intros H; [constructor|].
  inversion H; subst. constructor; auto.
  destruct Mc as [Q|Q]; subst; auto.
Qed.

Lemma logged_kept : kept logged.
Proof.
  split.
  - intros v c. destruct c. unfold logged. simpl. auto.
  - intros m owner repo c c' [O [R [H S]]] E.
    apply parse_Ok in E. subst c'.
    destruct (parsed_identity m owner repo c) as [_ [Hh [Ho [Hr _]]]].
    unfold logged. rewrite Ho, Hr, Hh, parsed_subject. repeat split; auto. discriminate.
Qed.

(** ** The walk of the repositories *)

Lemma commitDetails_logged (m : module) (s : string) (c : commit) :
  walked m -> commitDetails m s = Ok c -> logged c.
Proof.
  intros [O R] E. unfold commitDetails in E.
  destruct (map trim (firstn 4 (splitOn fieldSep s))) as [|h [|p [|e [|msg [|x t]]]]];
    try discriminate.
  apply parse_Ok in E. subst c.
  destruct (parsed_identity msg (module_owner m) (module_repo m)
              (mkCommit (Some e) (Some h) (Some (module_owner m)) (Some (module_repo m))
                 (Some [p]) None None undefined undefined undefined None None None None))
    as [_ [Hh [Ho [Hr _]]]].
  unfold logged. rewrite Ho, Hr, Hh, parsed_subject. simpl. rewrite O.
  repeat split; try discriminate.
  destruct R as [R|[R|R]]; rewrite R; auto.
Qed.

Lemma eachCommit_logged (m : module) (l : list string) (details : list commit) :
  walked m -> eachCommit m l = Ok details -> Forall logged details.
Proof.
  intros W. revert details. induction l as [|s l IH]; intros details E; simpl in E.
  - inversion E; subst. constructor.
  - destruct (negb (truthyString s)); [apply IH; exact E|].
    destruct (commitDetails m s) as [c|] eqn:Ec; [|discriminate]. simpl in E.
    destruct (eachCommit m l) as [d|]; [|discriminate]. simpl in E.
    inversion E; subst. constructor; [|apply IH; reflexivity].
    eapply commitDetails_logged; eauto.
Qed.

Lemma addRepoToPool_logged (p p' : pool) (repo : module) (from to : string) :
  walked repo -> Forall logged (commits p) ->
  addRepoToPool gitExec p repo from to = Ok p' -> Forall logged (commits p').
Proof.
  intros W H E. unfold addRepoToPool in E.
  destruct (getCommonAncestor gitExec (dir repo) from to) as [a|]; [|discriminate].
  simpl in E.
  destruct (getLocalCommitHashes gitExec (dir repo) from) as [hs|]; [|discriminate].
  simpl in E.
  destruct (getLocalCommitDetails gitExec repo a to) as [d|] eqn:D; [|discriminate].
  simpl in E. inversion E; subst p'. simpl. apply Forall_app. split; [exact H|].
  unfold getLocalCommitDetails in D.
  destruct (runGit gitExec _ _) as [out|]; [|discriminate]. simpl in D.
  eapply eachCommit_logged; eauto.
Qed.

Lemma addDependencies_logged (refOf : module -> string -> result string)
      (repos : list module) (fromRef toRef : string) :
  Forall walked repos ->
  forall p p', Forall logged (commits p) ->
               addDependencies gitExec refOf repos p fromRef toRef = Ok p' ->
               Forall logged (commits p').
Proof.
  induction 1 as [|repo repos W Ws IH]; intros p p' H E; simpl in E.
  - inversion E; subst. exact H.
  - destruct (refOf repo fromRef) as [from|]; [|discriminate]. simpl in E.
    destruct (refOf repo toRef) as [to|]; [|discriminate]. simpl in E.
    destruct (addRepoToPool gitExec p repo from to) as [p1|] eqn:A; [|discriminate].
    simpl in E. eapply IH; [|exact E]. eapply addRepoToPool_logged; eauto.
Qed.

Lemma walked_three (r d : string) :
  r = "electron" \/ r = "libchromiumcontent" \/ r = "node" -> walked (mkModule "electron" r d).
Proof. intros H. split; [reflexivity | exact H]. Qed.

Lemma gatherCommits_logged (fromRef toRef : string) (p : pool) :
  gatherCommits gitExec semver_parse gitDir vendorDir nodeDir useGyp getGypSubmoduleRef
    getDepsVariable fromRef toRef = Ok p ->
  Forall logged (commits p).
Proof.
  unfold gatherCommits. intros E.
  destruct (addRepoToPool gitExec (mkPool [] []) _ fromRef toRef) as [p0|] eqn:A;
    [|discriminate]. simpl in E.
  assert (H0 : Forall logged (commits p0)).
  { eapply addRepoToPool_logged; [| |exact A]; [apply walked_three; auto | constructor]. }
  destruct (includeDeps semver_parse fromRef toRef) as [[|]|]; simpl in E;
    try discriminate; [|inversion E; subst; exact H0].
  unfold getDependencyCommits, getDependencyCommitsGyp, getDependencyCommitsGN in E.
  destruct useGyp; (eapply addDependencies_logged; [|exact H0|exact E]);
    repeat (apply Forall_cons; [apply walked_three; auto|]); apply Forall_nil.
Qed.

(** ** What the filters leave *)

Lemma dropBumps_kept (l l' : list commit) (c : commit) :
  dropBumps l = Ok l' -> In c l' ->
  exists text, noteOrSubject c = Some text /\ test reBump text = false.
Proof.
  revert l'. induction l as [|x l IH]; intros l' H I; simpl in H.
  - inversion H; subst. contradiction.
  - destruct (noteOrSubject x) as [text|] eqn:T; [|discriminate].
    destruct (dropBumps l) as [l''|]; [|discriminate]. simpl in H.
    inversion H; subst. destruct (test reBump text) eqn:B.
    + eapply IH; eauto.
    + destruct I as [I|I]; [subst; eauto | eapply IH; eauto].
Qed.

Lemma dropBumps_total (l : list commit) :
  Forall (fun c => subject c <> None) l -> exists l', dropBumps l = Ok l'.
Proof.
  induction 1 as [|c l Hc Hl [l' IH]]; simpl; [eauto|].
  assert (T : exists text, noteOrSubject c = Some text).
  { unfold noteOrSubject. destruct (note c) as [| |s]; simpl.
    - destruct (subject c); [eauto | contradiction].
    - destruct (subject c); [eauto | contradiction].
    - destruct (truthyString s); [eauto|]. destruct (subject c); [eauto | contradiction]. }
  destruct T as [text T]. rewrite T, IH. simpl. eauto.
Qed.

(** The pool of [getNotes] after the pull-request loop. *)
Lemma getNotes_inv (fuel : nat) (fromRef toRef : string) (n : notes) :
  getNotes gitExec semver_parse gitDir vendorDir nodeDir useGyp getGypSubmoduleRef
    getDepsVariable getPullRequest fuel fromRef toRef = Some (Ok n) ->
  exists p l l',
    gatherCommits gitExec semver_parse gitDir vendorDir nodeDir useGyp getGypSubmoduleRef
      getDepsVariable fromRef toRef = Ok p /\
    scrapeCommits getPullRequest fuel (commits (cancelReverts (removeOldCommits p)))
      = Some (Ok l) /\
    removeUninteresting l = Ok l' /\ n = classify l' toRef.
Proof.
  unfold getNotes. intros E.
  destruct (gatherCommits _ _ _ _ _ _ _ _ _ _) as [p|] eqn:G; [|discriminate].
  destruct (scrapeCommits _ _ _) as [[l|]|] eqn:Sc; try discriminate.
  destruct (removeUninteresting l) as [l'|] eqn:R; [|discriminate].
  inversion E; subst. exists p, l, l'. repeat split; auto.
Qed.

Lemma allCommits_In (l : list commit) (toRef : string) (c : commit) :
  In c (allCommits (classify l toRef)) -> In c l.
Proof.
  intros I. eapply Permutation_in; [|exact I]. apply Permutation_sym, classify_perm.
Qed.

Lemma filter_Forall (A : Type) (P : A -> Prop) (f : A -> bool) (l : list A) :
  Forall P l -> Forall P (filter f l).
Proof.
  intros H. apply Forall_forall. intros x I. apply filter_In in I.
  destruct I as [I _]. revert x I. apply Forall_forall. exact H.
Qed.

(** A kept property of the commits of the pool holds of the commits of
    the notes. *)
Lemma getNotes_kept (P : commit -> Prop) (fuel : nat) (fromRef toRef : string)
      (p : pool) (n : notes) :
  kept P ->
  gatherCommits gitExec semver_parse gitDir vendorDir nodeDir useGyp getGypSubmoduleRef
    getDepsVariable fromRef toRef = Ok p ->
  Forall P (commits (removeOldCommits p)) ->
  getNotes gitExec semver_parse gitDir vendorDir nodeDir useGyp getGypSubmoduleRef
    getDepsVariable getPullRequest fuel fromRef toRef = Some (Ok n) ->
  forall c, In c (allCommits n) -> P c.
Proof.
  intros K G H E c I. apply getNotes_inv in E.
  destruct E as [p0 [l [l' [G0 [Sc [R N]]]]]]. rewrite G in G0. inversion G0; subst p0 n.
  apply allCommits_In in I. apply (@removeUninteresting_notes _ _ _ R) in I. destruct I as [I _].
  assert (F : Forall P l).
  { eapply scrapeCommits_kept; [exact K | | exact Sc].
    eapply marked_kept; [exact K | apply cancel_marked | exact H]. }
  revert c I. apply Forall_forall. exact F.
Qed.

(** X21.  Every commit of the notes has the owner 'electron', one of the three
    repositories, a hash and a subject. *)
Theorem getNotes_commits_logged (fuel : nat) (fromRef toRef : string) (n : notes) :
  getNotes gitExec semver_parse gitDir vendorDir nodeDir useGyp getGypSubmoduleRef
    getDepsVariable getPullRequest fuel fromRef toRef = Some (Ok n) ->
  forall c, In c (allCommits n) -> logged c.
Proof.
  intros E. destruct (@getNotes_inv _ _ _ _ E) as [p [l [l' [G _]]]].
  eapply getNotes_kept; [apply logged_kept | exact G | | exact E].
  apply filter_Forall. eapply gatherCommits_logged. exact G.
Qed.

(** X22.  No commit of the notes carries the sentinel as its note, and for none
    of them the note, or the subject when there is no note, starts with a
    version bump. *)
Theorem getNotes_drops_uninteresting (fuel : nat) (fromRef toRef : string) (n : notes) :
  getNotes gitExec semver_parse gitDir vendorDir nodeDir useGyp getGypSubmoduleRef
    getDepsVariable getPullRequest fuel fromRef toRef = Some (Ok n) ->
  forall c, In c (allCommits n) ->
            note c <> val NO_NOTES /\
            exists text, noteOrSubject c = Some text /\ test reBump text = false.
Proof.
  intros E c I. apply getNotes_inv in E.
  destruct E as [p [l [l' [G [Sc [R N]]]]]]. subst n.
  apply allCommits_In in I. split.
  - apply (@removeUninteresting_notes _ _ _ R I).
  - unfold removeUninteresting in R. eapply dropBumps_kept; eauto.
Qed.

(** X23.  The filter of uninteresting commits never throws in [getNotes]: every
    commit that reaches it has a subject. *)
Theorem getNotes_filter_total (fuel : nat) (fromRef toRef : string) (p : pool)
        (l : list commit) :
  gatherCommits gitExec semver_parse gitDir vendorDir nodeDir useGyp getGypSubmoduleRef
    getDepsVariable fromRef toRef = Ok p ->
  scrapeCommits getPullRequest fuel (commits (cancelReverts (removeOldCommits p)))
    = Some (Ok l) ->
  exists l', removeUninteresting l = Ok l'.
Proof.
  intros G Sc. unfold removeUninteresting. apply dropBumps_total.
  apply filter_Forall.
  assert (F : Forall logged l).
  { eapply scrapeCommits_kept; [apply logged_kept | | exact Sc].
    eapply marked_kept; [apply logged_kept | apply cancel_marked |].
    apply filter_Forall. eapply gatherCommits_logged. exact G. }
  eapply Forall_impl; [|exact F]. intros c [_ [_ [_ S]]]. exact S.
Qed.

(** ** Commits that were there before *)

Lemma fold_setAdd_keeps (hs : list string) (s : list (option string)) (x : option string) :
  setHas s x = true ->
  setHas (fold_left (fun set hash => setAdd (Some hash) set) hs s) x = true.
Proof.
  revert s. induction hs as [|h hs IH]; intros s H; simpl; auto using setAdd_keeps.
Qed.

Lemma fold_setAdd_has (hs : list string) (s : list (option string)) (h : string) :
  In h hs -> setHas (fold_left (fun set hash => setAdd (Some hash) set) hs s) (Some h) = true.
Proof.
  revert s. induction hs as [|h0 hs IH]; intros s I; simpl; [contradiction|].
  destruct I as [I|I]; [subst h0; apply fold_setAdd_keeps, setAdd_has | apply IH; exact I].
Qed.

(** A walk adds to the pool: the hashes of the log of [from], and the
    commits it finds, after the ones that are there. *)
Lemma addRepoToPool_grows (p p' : pool) (repo : module) (from to : string) :
  addRepoToPool gitExec p repo from to = Ok p' ->
  (forall x, setHas (processedHashes p) x = true -> setHas (processedHashes p') x = true) /\
  (forall hs h, getLocalCommitHashes gitExec (dir repo) from = Ok hs -> In h hs ->
                setHas (processedHashes p') (Some h) = true) /\
  exists details, commits p' = commits p ++ details.
Proof.
  unfold addRepoToPool. intros E.
  destruct (getCommonAncestor gitExec (dir repo) from to) as [a|]; [|discriminate].
  simpl in E.
  destruct (getLocalCommitHashes gitExec (dir repo) from) as [hs0|]; [|discriminate].
  simpl in E.
  destruct (getLocalCommitDetails gitExec repo a to) as [d|]; [|discriminate].
  simpl in E. inversion E; subst p'. simpl. repeat split.
  - intros x H. apply fold_setAdd_keeps. exact H.
  - intros hs h Q I. inversion Q; subst hs0. apply fold_setAdd_has. exact I.
  - exists d. reflexivity.
Qed.

Lemma addDependencies_grows (refOf : module -> string -> result string)
      (repos : list module) (fromRef toRef : string) :
  forall p p', addDependencies gitExec refOf repos p fromRef toRef = Ok p' ->
  forall x, setHas (processedHashes p) x = true -> setHas (processedHashes p') x = true.
Proof.
  induction repos as [|repo repos IH]; intros p p' E x H; simpl in E.
  - inversion E; subst. exact H.
  - destruct (refOf repo fromRef) as [from|]; [|discriminate]. simpl in E.
    destruct (refOf repo toRef) as [to|]; [|discriminate]. simpl in E.
    destruct (addRepoToPool gitExec p repo from to) as [p1|] eqn:A; [|discriminate].
    simpl in E. eapply IH; [exact E|]. apply (proj1 (addRepoToPool_grows _ _ _ _ A)). exact H.
Qed.

Lemma gatherCommits_old (fromRef toRef : string) (p : pool) (hs : list string) (h : string) :
  gatherCommits gitExec semver_parse gitDir vendorDir nodeDir useGyp getGypSubmoduleRef
    getDepsVariable fromRef toRef = Ok p ->
  getLocalCommitHashes gitExec gitDir fromRef = Ok hs -> In h hs ->
  setHas (processedHashes p) (Some h) = true.
Proof.
  unfold gatherCommits. intros E Q I.
  destruct (addRepoToPool gitExec (mkPool [] []) _ fromRef toRef) as [p0|] eqn:A;
    [|discriminate]. simpl in E.
  assert (H0 : setHas (processedHashes p0) (Some h) = true).
  { destruct (addRepoToPool_grows _ _ _ _ A) as [_ [H _]]. eapply H; eauto. }
  destruct (includeDeps semver_parse fromRef toRef) as [[|]|]; simpl in E;
    try discriminate; [|inversion E; subst; exact H0].
  unfold getDependencyCommits, getDependencyCommitsGyp, getDependencyCommitsGN in E.
  destruct useGyp; eapply addDependencies_grows; eauto.
Qed.

Lemma unprocessed_kept (s : list (option string)) :
  kept (fun c => setHas s (hash c) = false).
Proof.
  split.
  - intros v c H. destruct c; exact H.
  - intros m owner repo c c' H E. apply parse_Ok in E. subst c'.
    destruct (parsed_identity m owner repo c) as [_ [Hh _]]. rewrite Hh. exact H.
Qed.

(** X24.  No commit of the notes has a hash that the log of [fromRef] lists. *)
Theorem old_commits_left_out (fuel : nat) (fromRef toRef : string) (n : notes)
        (hs : list string) :
  getNotes gitExec semver_parse gitDir vendorDir nodeDir useGyp getGypSubmoduleRef
    getDepsVariable getPullRequest fuel fromRef toRef = Some (Ok n) ->
  getLocalCommitHashes gitExec gitDir fromRef = Ok hs ->
  forall c h, In c (allCommits n) -> In h hs -> hash c <> Some h.
Proof.
  intros E Q c h I Ih Hc.
  destruct (@getNotes_inv _ _ _ _ E) as [p [l [l' [G _]]]].
  assert (F : setHas (processedHashes p) (hash c) = false).
  { revert c I Hc. intros c I _. revert c I.
    eapply getNotes_kept with (P := fun c => setHas (processedHashes p) (hash c) = false);
      [apply unprocessed_kept | exact G | | exact E].
    apply Forall_forall. intros x Ix. unfold removeOldCommits in Ix. simpl in Ix.
    apply filter_In in Ix. destruct Ix as [_ Ix].
    destruct (setHas (processedHashes p) (hash x)); [discriminate | reflexivity]. }
  rewrite Hc in F. erewrite gatherCommits_old in F; eauto. discriminate.
Qed.

(** ** From the notes to the text *)

Section RenderAll.
Variable numberToString : number -> string.

Lemma renderCommits_total (l : list commit) :
  Forall (fun c => noteOrSubject c <> None) l ->
  exists ns, renderCommits numberToString l = Ok ns.
Proof.
  induction 1 as [|c l Hc Hl [ns IH]]; simpl; [eauto|].
  unfold renderCommit. destruct (noteOrSubject c) as [text|]; [|contradiction].
  simpl. rewrite IH. simpl. eauto.
Qed.

Lemma renderSection_total (title : string) (l : list commit) :
  Forall (fun c => noteOrSubject c <> None) l ->
  exists s, renderSection numberToString title l = Ok s.
Proof.
  intros H. unfold renderSection. destruct (Nat.eqb _ _); [eauto|].
  destruct (@renderCommits_total _ H) as [ns E]. rewrite E. simpl. eauto.
Qed.

(** X25.  [renderNotes] returns a text for all notes that [getNotes] returns. *)
Theorem getNotes_renders (fuel : nat) (fromRef toRef : string) (n : notes) :
  getNotes gitExec semver_parse gitDir vendorDir nodeDir useGyp getGypSubmoduleRef
    getDepsVariable getPullRequest fuel fromRef toRef = Some (Ok n) ->
  exists text, renderNotes numberToString n = Ok text.
Proof.
  intros E. apply getNotes_inv in E. destruct E as [p [l [l' [G [Sc [R N]]]]]].
  assert (T : forall k, Forall (fun c => noteOrSubject c <> None) (inBucket k l')).
  { intros k. apply Forall_forall. intros c I. apply inBucket_In in I.
    unfold removeUninteresting in R. destruct (@dropBumps_kept _ _ _ R I) as [text [T _]].
    rewrite T. discriminate. }
  subst n. unfold renderNotes, classify. simpl.
  destruct (@renderSection_total "Breaking Changes" _ (T Breaks)) as [s1 E1]. rewrite E1.
  destruct (@renderSection_total "Features" _ (T Feat)) as [s2 E2]. rewrite E2.
  destruct (@renderSection_total "Fixes" _ (T Fix)) as [s3 E3]. rewrite E3.
  destruct (@renderSection_total "Other Changes" _ (T Other)) as [s4 E4]. rewrite E4.
  destruct (@renderSection_total "Unknown" _ (T Unknown)) as [s6 E6]. rewrite E6.
  simpl. eauto.
Qed.

End RenderAll.

End Pipeline.

Section PipelineExample.
Import JS RegExp Notes Spec.

Lemma oneCommit_notes :
  getNotes oneCommitGit noVersions "" (fun _ => EmptyString) "" false noRef noRef notFound
    1 "v1.0.0" "v1.0.1" = Some (Ok (mkNotes [] [] [] [loggedTwelve] [] [] "v1.0.1")).
Proof. vm_compute. reflexivity. Qed.

Lemma getNotes_commits_logged_witness : logged loggedTwelve.
Proof.
  eapply getNotes_commits_logged with (1 := oneCommit_notes). simpl. auto.
Defined.

Lemma getNotes_drops_uninteresting_witness :
  note loggedTwelve <> val NO_NOTES /\
  exists text, noteOrSubject loggedTwelve = Some text /\ test reBump text = false.
Proof.
  eapply getNotes_drops_uninteresting with (1 := oneCommit_notes). simpl. auto.
Defined.

Lemma getNotes_filter_total_witness :
  exists l', removeUninteresting [loggedTwelve] = Ok l'.
Proof.
  apply (@getNotes_filter_total oneCommitGit noVersions "" (fun _ => EmptyString) "" false
           noRef noRef notFound 1 "v1.0.0" "v1.0.1" (mkPool [Some "base"] [loggedTwelve]));
    vm_compute; reflexivity.
Defined.

Lemma getNotes_renders_witness :
  exists text,
    renderNotes decimal (mkNotes [] [] [] [loggedTwelve] [] [] "v1.0.1") = Ok text.
Proof.
  eapply getNotes_renders with (1 := oneCommit_notes).
Defined.

Lemma old_commits_left_out_witness : hash loggedTwelve <> Some "base".
Proof.
  eapply old_commits_left_out with (1 := oneCommit_notes) (hs := ["base"]);
    [vm_compute; reflexivity | simpl; auto | simpl; auto].
Defined.

End PipelineExample.

(* ================================================================== *)
(** * Dependencies *)
(* ================================================================== *)

Section Dependencies.
Import JS RegExp Notes Spec.

Variable gitExec : string -> list string -> result string.
Variable semver_parse : string -> option SemVer.
Variable gitDir : string.
Variable vendorDir : string -> string.
Variable nodeDir : string.
Variable useGyp : bool.
Variable getGypSubmoduleRef : string -> string -> result string.
Variable getDepsVariable : string -> string -> result string.








End Dependencies.

Section DependenciesExample.
Import JS RegExp Notes Spec.



End DependenciesExample.

(* ================================================================== *)
(** * The walk of a repository *)
(* ================================================================== *)

Section Walk.
Import JS RegExp Notes Spec.

(** ** Splitting at a separator *)

Lemma prefix_other (x c : ascii) (s t : string) :
  Ascii.eqb c x = false -> prefix (String x s) (String c t) = false.
Proof.
  intros H. simpl. destruct (ascii_dec x c) as [E|E]; [|reflexivity].
  subst c. rewrite Ascii.eqb_refl in H. discriminate.
Qed.

Lemma prefix_same (x : ascii) (s t : string) :
  prefix (String x s) (String x t) = prefix s t.
Proof.
  simpl. destruct (ascii_dec x x) as [E|E]; [reflexivity | contradiction].
Qed.

Lemma prefix_nil (t : string) : prefix EmptyString t = true.
Proof. destruct t; reflexivity. Qed.

Lemma splitOn_piece (x : ascii) (w : string) :
  forall piece, without x w = true ->
  splitOnFrom (String x (String x EmptyString)) w 0 piece = [(piece ++ w)%string].
Proof.
  induction w as [|c w IH]; intros piece H.
  - simpl. rewrite append_nil_r. reflexivity.
  - change (negb (Ascii.eqb c x) && without x w = true) in H.
    apply andb_true_iff in H. destruct H as [Hc Hw]. apply negb_true_iff in Hc.
    cbn [splitOnFrom]. rewrite prefix_other by exact Hc.
    rewrite IH by exact Hw. rewrite append_assoc. reflexivity.
Qed.

Lemma splitOn_field (x : ascii) (w t : string) :
  forall piece, without x w = true ->
  splitOnFrom (String x (String x EmptyString)) (w ++ String x (String x t)) 0 piece =
  (piece ++ w)%string :: splitOnFrom (String x (String x EmptyString)) t 0 EmptyString.
Proof.
  induction w as [|c w IH]; intros piece H.
  - change (splitOnFrom (String x (String x EmptyString))
              (EmptyString ++ String x (String x t)) 0 piece)
      with (if prefix (String x (String x EmptyString)) (String x (String x t))
            then piece :: splitOnFrom (String x (String x EmptyString)) t 0 EmptyString
            else splitOnFrom (String x (String x EmptyString)) (String x t) 0
                   (piece ++ String x EmptyString)).
    rewrite !prefix_same, prefix_nil, append_nil_r. reflexivity.
  - change (negb (Ascii.eqb c x) && without x w = true) in H.
    apply andb_true_iff in H. destruct H as [Hc Hw]. apply negb_true_iff in Hc.
    cbn [append splitOnFrom]. rewrite prefix_other by exact Hc.
    rewrite IH by exact Hw. rewrite append_assoc. reflexivity.
Qed.

(** X11.  A log entry is cut into at most four fields at '||': what follows a
    '||' inside the commit message is dropped before the message is
    parsed. *)
Theorem commitDetails_truncates (m : module) (h p e msg tail : string) :
  without "|" h = true -> without "|" p = true -> without "|" e = true ->
  without "|" msg = true ->
  commitDetails m (h ++ "||" ++ p ++ "||" ++ e ++ "||" ++ msg ++ "||" ++ tail) =
  commitDetails m (h ++ "||" ++ p ++ "||" ++ e ++ "||" ++ msg) /\
  commitDetails m (h ++ "||" ++ p ++ "||" ++ e ++ "||" ++ msg) =
  parseCommitMessage (trim msg) (module_owner m) (module_repo m)
    (mkCommit (Some (trim e)) (Some (trim h)) (Some (module_owner m)) (Some (module_repo m))
       (Some [trim p]) None None undefined undefined undefined None None None None).
Proof.
  intros Hh Hp He Hm.
  assert (Long : firstn 4 (splitOn fieldSep
                   (h ++ "||" ++ p ++ "||" ++ e ++ "||" ++ msg ++ "||" ++ tail)) =
                 [h; p; e; msg]).
  { unfold splitOn, fieldSep. simpl append.
    rewrite splitOn_field by exact Hh. rewrite splitOn_field by exact Hp.
    rewrite splitOn_field by exact He. rewrite splitOn_field by exact Hm. reflexivity. }
  assert (Short : firstn 4 (splitOn fieldSep (h ++ "||" ++ p ++ "||" ++ e ++ "||" ++ msg)) =
                  [h; p; e; msg]).
  { unfold splitOn, fieldSep. simpl append.
    rewrite splitOn_field by exact Hh. rewrite splitOn_field by exact Hp.
    rewrite splitOn_field by exact He. rewrite splitOn_piece by exact Hm. reflexivity. }
  unfold commitDetails. rewrite Long, Short. split; reflexivity.
Qed.

Lemma commitDetails_truncates_witness :
  commitDetails (mkModule "electron" "electron" "")
    ("h1" ++ "||" ++ "h0" ++ "||" ++ "dev@example.com" ++ "||" ++ "fix: a " ++ "||" ++ " b") =
  commitDetails (mkModule "electron" "electron" "")
    ("h1" ++ "||" ++ "h0" ++ "||" ++ "dev@example.com" ++ "||" ++ "fix: a ") /\
  commitDetails (mkModule "electron" "electron" "")
    ("h1" ++ "||" ++ "h0" ++ "||" ++ "dev@example.com" ++ "||" ++ "fix: a ") =
  parseCommitMessage (trim "fix: a ") "electron" "electron"
    (mkCommit (Some (trim "dev@example.com")) (Some (trim "h1")) (Some "electron")
       (Some "electron") (Some [trim "h0"]) None None undefined undefined undefined
       None None None None).
Proof.
  apply (@commitDetails_truncates (mkModule "electron" "electron" "")
           "h1" "h0" "dev@example.com" "fix: a " " b"); reflexivity.
Defined.

(** ** The reference of a submodule *)

Lemma splitOn_line (w : string) :
  forall piece, without LF w = true -> splitOnFrom nl w 0 piece = [(piece ++ w)%string].
Proof.
  induction w as [|c w IH]; intros piece H.
  - simpl. rewrite append_nil_r. reflexivity.
  - change (negb (Ascii.eqb c LF) && without LF w = true) in H.
    apply andb_true_iff in H. destruct H as [Hc Hw]. apply negb_true_iff in Hc.
    cbn [splitOnFrom]. unfold nl at 1. rewrite prefix_other by exact Hc.
    rewrite IH by exact Hw. rewrite append_assoc. reflexivity.
Qed.

Lemma split_token (f : ascii -> bool) (w : string) (c : ascii) (t : string) :
  forall b piece,
  allChars (fun x => negb (f x)) w = true -> f c = true ->
  splitFrom (Cls f) b (w ++ String c t) 0 piece =
  (piece ++ w)%string :: splitFrom (Cls f) (Some c) t 0 EmptyString.
Proof.
  induction w as [|d w IH]; intros b piece H Fc.
  - cbn [append splitFrom]. unfold matchAt. rewrite run_Cls. cbn [rest]. rewrite Fc.
    cbn [advance rest].
    assert (Len : String.length (String c t) - String.length t = 1)
      by (cbn [String.length]; lia).
    rewrite Len, append_nil_r. reflexivity.
  - change (negb (f d) && allChars (fun x => negb (f x)) w = true) in H.
    apply andb_true_iff in H. destruct H as [Hd Hw]. apply negb_true_iff in Hd.
    cbn [append splitFrom]. unfold matchAt. rewrite run_Cls. cbn [rest]. rewrite Hd.
    rewrite IH by assumption. rewrite append_assoc. reflexivity.
Qed.

Lemma solid_without (s : string) : solid s = true -> without LF s = true.
Proof.
  induction s as [|c s IH]; [reflexivity|].
  intros H. change (negb (isSpace c) && solid s = true) in H.
  apply andb_true_iff in H. destruct H as [Hc Hs].
  change (negb (Ascii.eqb c LF) && without LF s = true).
  rewrite (IH Hs), andb_true_r. destruct (Ascii.eqb c LF) eqn:E; [|reflexivity].
  apply Ascii.eqb_eq in E. subst c. discriminate Hc.
Qed.

Lemma trimEnd_solid (s : string) : solid s = true -> trimEnd s = s.
Proof.
  induction s as [|c s IH]; [reflexivity|].
  intros H. change (negb (isSpace c) && solid s = true) in H.
  apply andb_true_iff in H. destruct H as [Hc Hs]. apply negb_true_iff in Hc.
  simpl. rewrite (IH Hs). destruct s; [rewrite Hc|]; reflexivity.
Qed.

Lemma trim_solid (s : string) : solid s = true -> trim s = s.
Proof.
  intros H. unfold trim.
  assert (E : trimStart s = s).
  { destruct s as [|c s]; [reflexivity|].
    change (negb (isSpace c) && solid s = true) in H.
    apply andb_true_iff in H. destruct H as [Hc _]. apply negb_true_iff in Hc.
    simpl. rewrite Hc. reflexivity. }
  rewrite E. apply trimEnd_solid. exact H.
Qed.

Section GypRef.
Variable gitExec : string -> list string -> result string.
Variable dirname : string -> string.
Variable basename : string -> string.

(** X15.  When git answers with the one line
    '160000 commit <sha><TAB><name>', the reference is the sha. *)
Theorem getGypSubmoduleRef_sha (dir point raw sha name : string) :
  gitExec (dirname dir) ["ls-tree"; "-t"; point; basename dir] = Ok raw ->
  trim raw = ("160000 commit " ++ sha ++ String TAB name)%string ->
  solid sha = true -> without LF name = true ->
  getGypSubmoduleRef gitExec dirname basename dir point = Ok (val sha).
Proof.
  intros G T Hs Hn. unfold getGypSubmoduleRef, runGit. rewrite G. simpl bind. rewrite T.
  assert (L : splitOn nl ("160000 commit " ++ sha ++ String TAB name) =
              ["160000 commit " ++ sha ++ String TAB name]%string).
  { unfold splitOn. rewrite splitOn_line; [reflexivity|].
    unfold without. rewrite !allChars_app.
    change (allChars (fun c => negb (Ascii.eqb c LF)) sha) with (without LF sha).
    rewrite (solid_without _ Hs). simpl. exact Hn. }
  rewrite L. cbn [find].
  assert (P : startsWith ("160000 commit " ++ sha ++ String TAB name) "160000" = true)
    by reflexivity.
  rewrite P. cbn [truthyString append].
  assert (Tk : exists more,
             split Space ("160000 commit " ++ sha ++ String TAB name) =
             "160000" :: "commit" :: sha :: more).
  { change (split Space ("160000 commit " ++ sha ++ String TAB name))
      with (splitFrom (Cls isSpace) None
              ("160000" ++ String " " ("commit" ++ String " " (sha ++ String TAB name)))
              0 EmptyString).
    rewrite (@split_token isSpace "160000" " " _ None EmptyString) by reflexivity.
    rewrite (@split_token isSpace "commit" " " _ (Some " "%char) EmptyString) by reflexivity.
    rewrite (@split_token isSpace sha TAB name (Some " "%char) EmptyString);
      [|exact Hs | reflexivity].
    eexists. reflexivity. }
  destruct Tk as [more Tk]. cbn [append] in Tk. cbn [append]. rewrite Tk.
  cbn [map List.length Nat.leb nth_error]. rewrite (trim_solid _ Hs). reflexivity.
Qed.

(** X16.  When no line of the answer of git starts with '160000', the reference
    is null. *)
Theorem getGypSubmoduleRef_missing (dir point raw : string) :
  gitExec (dirname dir) ["ls-tree"; "-t"; point; basename dir] = Ok raw ->
  (forall line, In line (splitOn nl (trim raw)) -> startsWith line "160000" = false) ->
  getGypSubmoduleRef gitExec dirname basename dir point = Ok null.
Proof.
  intros G H. unfold getGypSubmoduleRef, runGit. rewrite G. simpl bind.
  destruct (find _ (splitOn nl (trim raw))) as [line|] eqn:F; [|reflexivity].
  apply find_some in F. destruct F as [I S]. rewrite (H _ I) in S. discriminate.
Qed.

End GypRef.

Lemma getGypSubmoduleRef_sha_witness :
  getGypSubmoduleRef lsTree (fun d => d) (fun d => d) "vendor/libchromiumcontent" "v3.0.0" =
  Ok (val "028b0af83076cec898f4ebce208b7fadb715656e").
Proof.
  apply (@getGypSubmoduleRef_sha lsTree (fun d => d) (fun d => d) "vendor/libchromiumcontent"
           "v3.0.0" lsTreeAnswer "028b0af83076cec898f4ebce208b7fadb715656e"
           "libchromiumcontent");
    reflexivity.
Defined.

Lemma getGypSubmoduleRef_missing_witness :
  getGypSubmoduleRef (fun _ _ => Ok EmptyString) (fun d => d) (fun d => d) "vendor/node" "v3.0.0"
  = Ok null.
Proof.
  apply (@getGypSubmoduleRef_missing (fun _ _ => Ok EmptyString) (fun d => d) (fun d => d)
           "vendor/node" "v3.0.0" EmptyString); [reflexivity|].
  intros line [H|[]]. subst line. reflexivity.
Defined.

End Walk.

(* ================================================================== *)
(** * The cache of pull requests *)
(* ================================================================== *)

Section CacheProps.
Import JS RegExp Notes Spec.

Variable resolve : string -> string.
Variable JSON_stringify : response -> string.
Variable JSON_parse : string -> result response.
Variable numberToString : number -> string.

Lemma readFile_written (fs : files) (filename content : string) :
  readFile (writeFile fs filename content) filename = Some content.
Proof. simpl. rewrite String.eqb_refl. reflexivity. Qed.

(** X12.  When the cache has no file for a pull request and GitHub answers, the
    answer is returned and written to the cache; from then on the same
    request is answered from the file, whatever GitHub would say. *)
Theorem fetched_once (get : value -> string -> string -> answer)
        (number : value) (owner repo : string) (fs : files) (r : response) :
  existsSync fs (resolve (cacheName numberToString number owner repo)) = false ->
  get number owner repo = Got r ->
  JSON_parse (JSON_stringify r) = Ok r ->
  exists fs',
    getPullRequest resolve JSON_stringify JSON_parse numberToString get number owner repo fs
    = (Ok (Some r), fs') /\
    forall get',
      getPullRequest resolve JSON_stringify JSON_parse numberToString get' number owner repo fs'
      = (Ok (Some r), fs').
Proof.
  intros Miss G RT. unfold getPullRequest, checkCache. rewrite Miss, G.
  eexists. split; [reflexivity|]. intros get'.
  unfold existsSync. rewrite readFile_written, RT. reflexivity.
Qed.

(** X13.  When the cache has no file and GitHub fails, nothing is written: a 404
    gives undefined, any other failure is thrown on. *)
Theorem failures_not_cached (get : value -> string -> string -> answer)
        (number : value) (owner repo : string) (fs : files) (code : N) (message : string) :
  existsSync fs (resolve (cacheName numberToString number owner repo)) = false ->
  get number owner repo = Failed code message ->
  getPullRequest resolve JSON_stringify JSON_parse numberToString get number owner repo fs
  = (if (code =? 404)%N then Ok None else Throw message, fs).
Proof.
  intros Miss G. unfold getPullRequest, checkCache. rewrite Miss, G.
  destruct (code =? 404)%N; reflexivity.
Qed.

End CacheProps.

Section CacheNames.
Import JS RegExp Notes Spec.

Variable numberToString : number -> string.

Lemma append_inj_at (x : ascii) (a a' t t' : string) :
  without x a = true -> without x a' = true ->
  (a ++ String x t = a' ++ String x t')%string -> a = a' /\ t = t'.
Proof.
  revert a'. induction a as [|c a IH]; intros [|c' a'] Ha Ha' E; simpl in E.
  - inversion E. split; reflexivity.
  - inversion E; subst c'.
    change (negb (Ascii.eqb x x) && without x a' = true) in Ha'.
    rewrite Ascii.eqb_refl in Ha'. discriminate.
  - inversion E; subst c.
    change (negb (Ascii.eqb x x) && without x a = true) in Ha.
    rewrite Ascii.eqb_refl in Ha. discriminate.
  - inversion E; subst c'.
    change (negb (Ascii.eqb c x) && without x a = true) in Ha.
    change (negb (Ascii.eqb c x) && without x a' = true) in Ha'.
    apply andb_true_iff in Ha. apply andb_true_iff in Ha'.
    destruct Ha as [_ Ha]. destruct Ha' as [_ Ha'].
    destruct (IH a' Ha Ha' H1) as [Q1 Q2]. subst. split; reflexivity.
Qed.

Lemma append_inj_l (p a b : string) : (p ++ a = p ++ b)%string -> a = b.
Proof. induction p as [|c p IH]; simpl; intros H; [exact H | inversion H; apply IH; assumption]. Qed.

(** X14.  Two pull requests share a cache file only if they have the same owner,
    the same repository and numbers that are spliced alike, as long as no
    owner and no repository holds a hyphen. *)
Theorem cacheName_injective (n1 n2 : value) (o1 o2 r1 r2 : string) :
  without "-" o1 = true -> without "-" o2 = true ->
  without "-" r1 = true -> without "-" r2 = true ->
  cacheName numberToString n1 o1 r1 = cacheName numberToString n2 o2 r2 ->
  o1 = o2 /\ r1 = r2 /\ splicedValue numberToString n1 = splicedValue numberToString n2.
Proof.
  intros Ho1 Ho2 Hr1 Hr2 E. unfold cacheName in E.
  change (o1 ++ String "-" (r1 ++ "-pull-" ++ splicedValue numberToString n1) =
          o2 ++ String "-" (r2 ++ "-pull-" ++ splicedValue numberToString n2))%string in E.
  apply append_inj_at in E; [|assumption|assumption]. destruct E as [Eo E].
  change (r1 ++ String "-" ("pull-" ++ splicedValue numberToString n1) =
          r2 ++ String "-" ("pull-" ++ splicedValue numberToString n2))%string in E.
  apply append_inj_at in E; [|assumption|assumption]. destruct E as [Er E].
  apply append_inj_l in E. split; [exact Eo | split; [exact Er | exact E]].
Qed.

End CacheNames.

Section CacheExamples.
Import JS RegExp Notes Spec.

Lemma fetched_once_witness :
  exists fs',
    getPullRequest (fun name => name) writeTwelve readTwelve decimal onlyTwelve
      (NumV (Num 12)) "electron" "electron" [] = (Ok (Some answerTwelve), fs') /\
    forall get',
      getPullRequest (fun name => name) writeTwelve readTwelve decimal get'
        (NumV (Num 12)) "electron" "electron" fs' = (Ok (Some answerTwelve), fs').
Proof.
  apply fetched_once; reflexivity.
Defined.

Lemma failures_not_cached_witness :
  getPullRequest (fun name => name) writeTwelve readTwelve decimal onlyTwelve
    (NumV (Num 13)) "electron" "electron" []
  = (if (404 =? 404)%N then Ok None else Throw "Not Found", []).
Proof.
  apply failures_not_cached; reflexivity.
Defined.

Lemma cacheName_injective_witness :
  "electron" = "electron" /\ "node" = "node" /\
  splicedValue decimal (NumV (Num 12)) = splicedValue decimal (StrV "12").
Proof.
  apply (@cacheName_injective decimal (NumV (Num 12)) (StrV "12") "electron" "electron"
           "node" "node"); reflexivity.
Defined.

End CacheExamples.

(* ================================================================== *)
(** * The note of a rendered commit *)
(* ================================================================== *)

Section Verbs.
Import JS RegExp Notes Spec.

#[local] Arguments useVerb : simpl never.
#[local] Arguments useVerbs : simpl never.

Lemma useVerb_miss (key : string) (note : text) (value : string) :
  Text.startsWith note (units (value ++ " ")) = false -> useVerb key note value = note.
Proof. intros H. unfold useVerb. rewrite H. reflexivity. Qed.

Lemma useVerb_hit (key : string) (note : text) (value : string) :
  Text.startsWith note (units (value ++ " ")) = true ->
  useVerb key note value =
  units (key ++ " ") ++ skipn (List.length (units (value ++ " "))) note.
Proof. intros H. unfold useVerb. rewrite H. reflexivity. Qed.

Lemma fold_values (key : string) (values : list string) (note : text) :
  fold_left (useVerb key) values note =
  fold_left (fun n pair => useVerb (fst pair) n (snd pair))
            (map (fun value => (key, value)) values) note.
Proof.
  revert note. induction values as [|v values IH]; intros note; [reflexivity|].
  cbn [fold_left map fst snd]. apply IH.
Qed.

Lemma fold_entries (table : list (string * list string)) (note : text) :
  fold_left (fun n entry => fold_left (useVerb (fst entry)) (snd entry) n) table note =
  fold_left (fun n pair => useVerb (fst pair) n (snd pair))
            (flat_map (fun entry => map (fun value => (fst entry, value)) (snd entry)) table)
            note.
Proof.
  revert note. induction table as [|entry table IH]; intros note; [reflexivity|].
  cbn [fold_left flat_map]. rewrite fold_left_app, <- fold_values. apply IH.
Qed.

Lemma useVerbs_pairs (note : text) :
  useVerbs note = fold_left (fun n pair => useVerb (fst pair) n (snd pair)) verbPairs note.
Proof. unfold useVerbs, verbPairs. apply fold_entries. Qed.

(** ** Capitals *)

Lemma code_of (c : ascii) (u : N) : code c = u -> c = ascii_of_N u.
Proof. intros E. rewrite <- E. symmetry. apply ascii_N_embedding. Qed.

Lemma isCapital_capital (u : N) : isCapital u = true -> capital u.
Proof.
  unfold isCapital. intros H c E.
  destruct (N.ltb_spec u 256) as [L|L].
  - apply andb_true_iff in H. destruct H as [H1 H2].
    apply negb_true_iff in H1. apply text_eqb_eq in H2.
    apply code_of in E. subst c. split; assumption.
  - pose proof (N_ascii_bounded c) as B. unfold code in E. lia.
Qed.

(** The capital of a character that is not white space starts with a
    capital. *)
Lemma upperChar_capital (c : ascii) :
  isSpace c = false -> exists u t, upperChar c = u :: t /\ capital u.
Proof.
  intros Sp.
  assert (H : match upperChar c with u :: _ => isCapital u | [] => false end = true).
  { destruct c as [[] [] [] [] [] [] [] []];
      solve [reflexivity | vm_compute in Sp; discriminate Sp]. }
  destruct (upperChar c) as [|u t]; [discriminate|].
  exists u, t. split; [reflexivity | apply isCapital_capital; exact H].
Qed.

(** A note that starts with a past tense of the table is plain. *)
Lemma past_plain (pair : string * string) (rest : text) :
  In pair verbPairs -> plain (units (fst pair ++ " ") ++ rest) = true.
Proof.
  intros H. vm_compute in H.
  repeat (destruct H as [H|H]; [subst pair; vm_compute; reflexivity|]). contradiction.
Qed.

Lemma past_capital (pair : string * string) :
  In pair verbPairs -> exists u t, units (fst pair ++ " ") = u :: t /\ capital u.
Proof.
  intros H. vm_compute in H.
  repeat (destruct H as [H|H];
          [subst pair; eexists; eexists;
           split; [reflexivity | apply isCapital_capital; vm_compute; reflexivity]|]).
  contradiction.
Qed.

Lemma prefix_split (p s : string) :
  prefix p s = true -> s = (p ++ sliceFrom (String.length p) s)%string.
Proof.
  revert s. induction p as [|c p IH]; intros s H; [destruct s; reflexivity|].
  destruct s as [|d s]; [discriminate|]. simpl in H.
  destruct (ascii_dec c d) as [E|E]; [|discriminate]. subst d.
  simpl. f_equal. apply IH. exact H.
Qed.

Lemma startsWith_split (t p : text) :
  Text.startsWith t p = true -> t = p ++ skipn (List.length p) t.
Proof.
  revert t. induction p as [|a p IH]; intros t H; [reflexivity|].
  destruct t as [|b t]; [discriminate|]. simpl in H.
  apply andb_true_iff in H. destruct H as [E H]. apply N.eqb_eq in E. subst b.
  simpl. f_equal. apply IH. exact H.
Qed.

Lemma startsWith_app (p rest : text) : Text.startsWith (p ++ rest) p = true.
Proof.
  induction p as [|a p IH]; simpl; [reflexivity|]. rewrite N.eqb_refl. exact IH.
Qed.

Lemma fold_plain (l : list (string * string)) (note : text) :
  forallb (fun pair => negb (Text.startsWith note (units (snd pair ++ " ")))) l = true ->
  fold_left (fun n pair => useVerb (fst pair) n (snd pair)) l note = note.
Proof.
  induction l as [|pair l IH]; intros H; [reflexivity|].
  cbn [forallb] in H. apply andb_true_iff in H. destruct H as [H1 H2].
  apply negb_true_iff in H1.
  cbn [fold_left]. rewrite (useVerb_miss _ _ _ H1). apply IH. exact H2.
Qed.

Lemma forallb_incl (A : Type) (f : A -> bool) (l l' : list A) :
  incl l l' -> forallb f l' = true -> forallb f l = true.
Proof.
  intros I H. apply forallb_forall. intros x Ix.
  rewrite forallb_forall in H. apply H, I, Ix.
Qed.

Lemma fold_cases (l : list (string * string)) (note : text) :
  incl l verbPairs ->
  (forallb (fun pair => negb (Text.startsWith note (units (snd pair ++ " ")))) l = true /\
   fold_left (fun n pair => useVerb (fst pair) n (snd pair)) l note = note) \/
  exists pair rest,
    In pair verbPairs /\ note = units (snd pair ++ " ") ++ rest /\
    fold_left (fun n pair => useVerb (fst pair) n (snd pair)) l note =
    units (fst pair ++ " ") ++ rest.
Proof.
  induction l as [|pair l IH]; intros I; [left; split; reflexivity|].
  assert (Il : incl l verbPairs) by (intros x Hx; apply I; right; exact Hx).
  assert (Ip : In pair verbPairs) by (apply I; left; reflexivity).
  cbn [fold_left forallb].
  destruct (Text.startsWith note (units (snd pair ++ " "))) eqn:E.
  - right. exists pair, (skipn (List.length (units (snd pair ++ " "))) note).
    split; [exact Ip | split].
    + apply startsWith_split. exact E.
    + rewrite (useVerb_hit _ _ _ E).
      apply fold_plain. eapply forallb_incl; [exact Il|]. apply past_plain. exact Ip.
  - rewrite (useVerb_miss _ _ _ E).
    destruct (IH Il) as [[H1 H2]|H]; [left | right; exact H].
    split; [rewrite H1; reflexivity | exact H2].
Qed.

(** The verbs loop replaces at most one verb, the first of the table that
    starts the note. *)
Lemma useVerbs_cases (note : text) :
  (plain note = true /\ useVerbs note = note) \/
  exists pair rest,
    In pair verbPairs /\ note = units (snd pair ++ " ") ++ rest /\
    useVerbs note = units (fst pair ++ " ") ++ rest.
Proof.
  rewrite useVerbs_pairs. apply fold_cases. intros x H. exact H.
Qed.

(** ** The end of a note *)

Lemma lastChar_app (a b : string) :
  lastChar (a ++ b) = match lastChar b with Some c => Some c | None => lastChar a end.
Proof.
  induction a as [|x a IH]; simpl.
  - destruct (lastChar b); reflexivity.
  - rewrite IH. destruct (lastChar b); reflexivity.
Qed.

Lemma trimEnd_fixed (s : string) (d : ascii) :
  lastChar s = Some d -> isSpace d = false -> trimEnd s = s.
Proof.
  induction s as [|c s IH]; intros L Sp; [discriminate|].
  simpl in L. simpl. destruct (lastChar s) as [x|] eqn:Ls.
  - rewrite (IH L Sp). destruct s; [discriminate | reflexivity].
  - destruct s as [|y s]; [|simpl in Ls; destruct (lastChar s); discriminate].
    inversion L; subst c. simpl. rewrite Sp. reflexivity.
Qed.

Lemma lastUnit_app (a b : text) :
  lastUnit (a ++ b) = match lastUnit b with Some u => Some u | None => lastUnit a end.
Proof.
  induction a as [|x a IH]; simpl.
  - destruct (lastUnit b); reflexivity.
  - rewrite IH. destruct (lastUnit b); reflexivity.
Qed.

Lemma lastUnit_rev (t : text) :
  match rev t with b :: _ => Some b | [] => None end = lastUnit t.
Proof.
  induction t as [|u t IH]; simpl; [reflexivity|].
  rewrite <- IH. destruct (rev t); reflexivity.
Qed.

Lemma endsWith_period (t : text) :
  Text.endsWith t (units ".") = true <-> lastUnit t = Some 46%N.
Proof.
  unfold Text.endsWith. change (rev (units ".")) with [46%N].
  rewrite <- lastUnit_rev. destruct (rev t) as [|b l].
  - split; discriminate.
  - change (Text.startsWith (b :: l) [46%N]) with ((46 =? b)%N && true).
    rewrite andb_true_r. split; intros H.
    + apply N.eqb_eq in H. subst b. reflexivity.
    + inversion H. reflexivity.
Qed.

Lemma lastUnit_units (s : string) : lastUnit (units s) = option_map code (lastChar s).
Proof.
  induction s as [|c s IH]; [reflexivity|].
  change (units (String c s)) with (code c :: units s). simpl.
  rewrite IH. destruct (lastChar s); reflexivity.
Qed.

Lemma lastUnit_blank (value : string) : lastUnit (units (value ++ " ")) = Some 32%N.
Proof. rewrite lastUnit_units, lastChar_app. reflexivity. Qed.

(** ** The note of a rendered commit *)

Lemma rendered_fixed (r : string) : rendered (units r) -> cleanUp r = units r.
Proof.
  intros [[u [t [E C]]] [L P]].
  destruct r as [|c s]; [discriminate|].
  change (units (String c s)) with (code c :: units s) in E. inversion E; subst u t.
  destruct (C c eq_refl) as [Sp Up].
  apply endsWith_period in L. rewrite lastUnit_units in L.
  destruct (lastChar (String c s)) as [d|] eqn:Ld; [|discriminate].
  assert (D : d = "."%char) by (inversion L as [Q]; apply (@code_of d 46%N Q)).
  subst d.
  assert (T : trim (String c s) = String c s).
  { unfold trim.
    assert (S1 : trimStart (String c s) = String c s) by (simpl; rewrite Sp; reflexivity).
    rewrite S1. eapply trimEnd_fixed; [exact Ld | reflexivity]. }
  unfold cleanUp. rewrite T. cbn [String.length Nat.eqb negb capitalize].
  rewrite Up. change ([code c] ++ units s) with (units (String c s)).
  assert (L' : Text.endsWith (units (String c s)) (units ".") = true).
  { apply endsWith_period. rewrite lastUnit_units, Ld. reflexivity. }
  rewrite L'. cbn [negb].
  destruct (useVerbs_cases (units (String c s))) as [[_ U]|[pair [rest [I [N _]]]]];
    [exact U|].
  exfalso. unfold plain in P. rewrite forallb_forall in P. specialize (P pair I).
  apply negb_true_iff in P. rewrite N, startsWith_app in P. discriminate.
Qed.

Lemma cleanUp_rendered (note : string) :
  trim note <> EmptyString -> rendered (cleanUp note).
Proof.
  intros NE. unfold cleanUp.
  destruct (trim note) as [|c0 t0] eqn:T; [contradiction|].
  cbn [String.length Nat.eqb negb capitalize].
  assert (Sp0 : isSpace c0 = false).
  { unfold trim in T. destruct (trimStart_head note) as [E|[c [t [E Sp]]]]; rewrite E in T.
    - discriminate.
    - destruct (@trimEnd_head c t Sp) as [t' E']. rewrite E' in T. inversion T; subst.
      exact Sp. }
  destruct (@upperChar_capital c0 Sp0) as [u0 [w0 [Up C0]]]. rewrite Up.
  set (n0 := (u0 :: w0) ++ units t0).
  set (n1 := if negb (Text.endsWith n0 (units ".")) then n0 ++ units "." else n0).
  assert (H1 : exists t, n1 = u0 :: t).
  { unfold n1, n0. destruct (negb _); simpl; eauto. }
  assert (L1 : lastUnit n1 = Some 46%N).
  { unfold n1. destruct (Text.endsWith n0 (units ".")) eqn:E; cbn [negb].
    - apply endsWith_period. exact E.
    - rewrite lastUnit_app. reflexivity. }
  destruct H1 as [t1 H1].
  destruct (useVerbs_cases n1) as [[P U]|[pair [rest [I [N U]]]]]; rewrite U.
  - split; [|split].
    + exists u0, t1. split; assumption.
    + apply endsWith_period. exact L1.
    + exact P.
  - split; [|split].
    + destruct (past_capital I) as [u [t [E C]]]. rewrite E. simpl. eauto.
    + apply endsWith_period. rewrite N, lastUnit_app in L1. rewrite lastUnit_app.
      destruct (lastUnit rest) as [x|]; [exact L1|].
      rewrite lastUnit_blank in L1. discriminate.
    + apply past_plain. exact I.
Qed.

(** X26.  The note of a rendered commit ends with a period, unless the text it
    is made of is blank. *)
Theorem cleanUp_period (note : string) :
  trim note <> EmptyString -> Text.endsWith (cleanUp note) (units ".") = true.
Proof.
  intros H. apply cleanUp_rendered. exact H.
Qed.

Lemma cleanUp_blank (note : string) : trim note = EmptyString -> cleanUp note = [].
Proof. intros H. unfold cleanUp. rewrite H. reflexivity. Qed.

(** X27.  The note of a rendered commit never starts with a present tense of the
    table of verbs followed by a blank. *)
Theorem cleanUp_past_tense (note key value : string) (values : list string) :
  In (key, values) commonVerbs -> In value values ->
  Text.startsWith (cleanUp note) (units (value ++ " ")) = false.
Proof.
  intros Ik Iv.
  assert (I : In (key, value) verbPairs).
  { unfold verbPairs. apply in_flat_map. exists (key, values). split; [exact Ik|].
    apply in_map_iff. exists value. split; [reflexivity | exact Iv]. }
  assert (P : plain (cleanUp note) = true).
  { destruct (trim note) as [|c t] eqn:T.
    - rewrite (@cleanUp_blank note T). reflexivity.
    - apply cleanUp_rendered. rewrite T. discriminate. }
  unfold plain in P. rewrite forallb_forall in P. specialize (P _ I).
  apply negb_true_iff in P. exact P.
Qed.

(** X28.  Cleaning up a cleaned-up note changes nothing, when that note is a
    string: no code unit of it is above 255. *)
Theorem cleanUp_idempotent (note r : string) :
  cleanUp note = units r -> cleanUp r = units r.
Proof.
  intros E. destruct (trim note) as [|c t] eqn:T.
  - rewrite (@cleanUp_blank note T) in E. destruct r; [reflexivity | discriminate].
  - apply rendered_fixed. rewrite <- E. apply cleanUp_rendered. rewrite T. discriminate.
Qed.

Lemma cleanUp_period_witness :
  Text.endsWith (cleanUp " fix the thing ") (units ".") = true.
Proof. apply cleanUp_period. vm_compute. discriminate. Defined.

Lemma cleanUp_past_tense_witness :
  Text.startsWith (cleanUp "fixes a crash") (units ("Fixes" ++ " ")) = false.
Proof.
  apply (@cleanUp_past_tense "fixes a crash" "Fixed" "Fixes" ["Fix"; "Fixes"]);
    simpl; auto 20.
Defined.

Lemma cleanUp_idempotent_witness : cleanUp "Fixed a crash." = units "Fixed a crash.".
Proof. apply (@cleanUp_idempotent "fixes a crash" "Fixed a crash."). vm_compute. reflexivity. Defined.

End Verbs.

(* ================================================================== *)
(** * The map of legacy pull requests, documentation, and a failing loop *)
(* ================================================================== *)

Section SemanticMap.
Import JS RegExp Notes Spec.

Lemma mapGet_mapSet (m : list (string * string)) (key value k : string) :
  mapGet (mapSet m key value) k = if String.eqb key k then Some value else mapGet m k.
Proof.
  induction m as [|[k0 v0] m IH]; simpl; [reflexivity|].
  destruct (String.eqb k0 key) eqn:E; simpl.
  - apply String.eqb_eq in E. subst k0. destruct (String.eqb key k); reflexivity.
  - rewrite IH. destruct (String.eqb k0 k) eqn:E0; [|reflexivity].
    apply String.eqb_eq in E0. subst k0. rewrite String.eqb_sym in E. rewrite String.eqb_sym.
    rewrite String.eqb_sym in E. rewrite E. reflexivity.
Qed.

Lemma addLine_binding (m : list (string * string)) (line k : string) :
  mapGet (addLine m line) k =
  match binding line with
  | Some (key, value) => if String.eqb key k then Some value else mapGet m k
  | None => mapGet m k
  end.
Proof.
  unfold addLine, binding.
  destruct line as [|c line]; [reflexivity|]. cbn [truthyString negb].
  destruct (splitOn "," (String c line)) as [|a [|b [|x bits]]]; try reflexivity.
  cbn [List.length Nat.eqb negb]. apply mapGet_mapSet.
Qed.

Lemma fold_addLine (lines : list string) (m : list (string * string)) (k : string) :
  mapGet (fold_left addLine lines m) k =
  match lastBound lines k with Some value => Some value | None => mapGet m k end.
Proof.
  revert m. induction lines as [|line lines IH]; intros m; [reflexivity|].
  cbn [fold_left lastBound]. rewrite IH.
  destruct (lastBound lines k); [reflexivity|].
  rewrite addLine_binding. destruct (binding line) as [[key value]|]; [|reflexivity].
  destruct (String.eqb key k); reflexivity.
Qed.

(** X17.  What [semanticMap] holds for a key is the value of the last line of the
    file that has exactly two fields and that key; lines with another
    number of fields do not count. *)
Theorem semanticMap_last_line_wins (csv key : string) :
  mapGet (semanticMapOf csv) key = lastBound (splitOn nl csv) key.
Proof.
  unfold semanticMapOf. rewrite fold_addLine.
  destruct (lastBound (splitOn nl csv) key); reflexivity.
Qed.

End SemanticMap.

Section Documentation.
Import JS RegExp Notes Spec.

Variable numberToString : number -> string.

(** X29.  The documentation section, when there is a documentation commit, is
    its title, one bullet with a link for every commit, sorted, and an
    empty line. *)
Theorem documentation_links_sorted (l : list commit) :
  l <> [] ->
  exists links,
    renderDocs numberToString l =
    [ ("## Documentation" ++ nl ++ nl)%string;
      (" * Documentation changes: " ++ join ", " links ++ nl)%string; nl ] /\
    Permutation links (map (docLink numberToString) l) /\ Sorted lexLe links.
Proof.
  intros H. exists (sort (map (docLink numberToString) l)). split; [|split].
  - unfold renderDocs. destruct l; [contradiction | reflexivity].
  - apply sort_perm.
  - apply sort_sorted.
Qed.

End Documentation.

Section FollowMore.
Import JS RegExp Notes Spec.

Variable getPullRequest : value -> string -> string -> result (option response).

(** X19.  When the text of a followed pull request makes the parse clear
    [commit.pr], the test [pr.number !== commit.pr.number] throws a
    TypeError. *)
Theorem follow_throws_without_pr (fuel : nat) (c c1 : commit) (p : pullRequest)
        (d : pullData) :
  pr c = val p -> truthyNote (note c) = false ->
  getPullRequest (pr_number p) (pr_owner p) (pr_repo p) = Ok (Some (mkResponse (Some d))) ->
  truthyNote (getNoteFromBody (pull_body d)) = false ->
  parseCommitMessage (title d ++ nl ++ nl ++ spliced (pull_body d)) (pr_owner p) (pr_repo p)
    (set_note (getNoteFromBody (pull_body d)) c) = Ok c1 ->
  pr c1 = null ->
  scrapeCommit getPullRequest (S fuel) c = Some (Throw "TypeError: cannot read property number").
Proof.
  intros P N G Nd E P1. unfold scrapeCommit. rewrite P. cbn [followLoop]. rewrite N.
  cbn [negb]. unfold followOnce. rewrite G. cbn [bind].
  assert (Nn : truthyNote (note (set_note (getNoteFromBody (pull_body d)) c)) = false)
    by (destruct c; exact Nd).
  rewrite Nn, E. cbn [bind]. rewrite P1. reflexivity.
Qed.

End FollowMore.

Section MoreExamples.
Import JS RegExp Notes Spec.

Lemma documentation_links_sorted_witness :
  exists links,
    renderDocs decimal [somethingTwelve; somethingSeven] =
    [ ("## Documentation" ++ nl ++ nl)%string;
      (" * Documentation changes: " ++ join ", " links ++ nl)%string; nl ] /\
    Permutation links (map (docLink decimal) [somethingTwelve; somethingSeven]) /\
    Sorted lexLe links.
Proof. apply documentation_links_sorted. discriminate. Defined.

Lemma follow_throws_without_pr_witness :
  scrapeCommit closesItself 1 nodeCommit =
  Some (Throw "TypeError: cannot read property number").
Proof.
  eapply (@follow_throws_without_pr closesItself 0 nodeCommit);
    [reflexivity | reflexivity | reflexivity | reflexivity | vm_compute; reflexivity
    | reflexivity].
Defined.

End MoreExamples.

(* ================================================================== *)
(** * Messages the parser recognizes *)
(* ================================================================== *)

Section Recognition.
Import JS RegExp Notes Spec.

Lemma starLoop_0 (step : (pos -> option pos) -> pos -> option pos) (k : pos -> option pos)
      (p : pos) :
  starLoop step k 0 p = k p.
Proof. reflexivity. Qed.

Lemma starLoop_S (step : (pos -> option pos) -> pos -> option pos) (k : pos -> option pos)
      (n : nat) (p : pos) :
  starLoop step k (S n) p =
  match step (fun q => if Nat.ltb (String.length (rest q)) (String.length (rest p))
                       then starLoop step k n q else None) p with
  | Some q => Some q
  | None => k p
  end.
Proof. reflexivity. Qed.

(** A starred class passes all the characters of the class that follow,
    if the rest of the pattern matches after them. *)
Lemma star_all (f : ascii -> bool) (k : pos -> option pos) (w : string) :
  forall n b rest' gs res,
  allChars f w = true -> String.length w <= n -> stops f rest' = true ->
  k (mkPos (walk b w) rest' gs) = Some res ->
  starLoop (run (Cls f)) k n (mkPos b (w ++ rest') gs) = Some res.
Proof.
  induction w as [|c w IH]; intros n b rest' gs res A L St K.
  - cbn [append walk] in *. destruct n as [|n]; [exact K|].
    rewrite starLoop_S, run_Cls. cbn [rest].
    destruct rest' as [|d t]; [exact K|]. cbn [stops] in St.
    apply negb_true_iff in St. rewrite St. exact K.
  - change (f c && allChars f w = true) in A. apply andb_true_iff in A.
    destruct A as [Fc A]. destruct n as [|n]; [simpl in L; lia|].
    rewrite starLoop_S, run_Cls. cbn [append rest]. rewrite Fc.
    unfold advance; cbn [rest caps].
    assert (Lt : Nat.ltb (String.length (w ++ rest')) (String.length (String c (w ++ rest')))
                 = true) by (apply Nat.ltb_lt; simpl; lia).
    rewrite Lt. rewrite (IH n (Some c) rest' gs res); auto.
    simpl in L. lia.
Qed.

(** A starred pattern gives way when the rest of the pattern matches
    nowhere further on. *)
Lemma star_back (f : ascii -> bool) (k : pos -> option pos) (n : nat) :
  forall w b gs,
  (forall a t, w = (a ++ t)%string -> a <> EmptyString ->
               k (mkPos (walk b a) t gs) = None) ->
  starLoop (run (Cls f)) k n (mkPos b w gs) = k (mkPos b w gs).
Proof.
  induction n as [|n IH]; intros w b gs Far; [reflexivity|].
  rewrite starLoop_S, run_Cls. cbn [rest].
  destruct w as [|c w]; [reflexivity|].
  destruct (f c); [|reflexivity]. unfold advance; cbn [rest caps].
  destruct (Nat.ltb _ _); [|reflexivity].
  rewrite IH.
  - assert (F : k (mkPos (walk b (String c EmptyString)) w gs) = None)
      by (apply Far; [reflexivity | discriminate]).
    cbn [walk] in F. rewrite F. reflexivity.
  - intros a t E Ne. apply (Far (String c a) t); [rewrite E; reflexivity | discriminate].
Qed.

(** A starred class stops where the rest of the pattern matches, when it
    matches nowhere further on. *)
Lemma star_upto (f : ascii -> bool) (k : pos -> option pos) (w : string) :
  forall n b tail gs res,
  allChars f w = true -> String.length w <= n ->
  (forall a t, tail = (a ++ t)%string -> a <> EmptyString ->
               k (mkPos (walk (walk b w) a) t gs) = None) ->
  k (mkPos (walk b w) tail gs) = Some res ->
  starLoop (run (Cls f)) k n (mkPos b (w ++ tail) gs) = Some res.
Proof.
  induction w as [|c w IH]; intros n b tail gs res A L Far K.
  - cbn [append walk] in *. rewrite star_back; [exact K | exact Far].
  - change (f c && allChars f w = true) in A. apply andb_true_iff in A.
    destruct A as [Fc A]. destruct n as [|n]; [simpl in L; lia|].
    rewrite starLoop_S, run_Cls. cbn [append rest]. rewrite Fc.
    unfold advance; cbn [rest caps].
    assert (Lt : Nat.ltb (String.length (w ++ tail)) (String.length (String c (w ++ tail)))
                 = true) by (apply Nat.ltb_lt; simpl; lia).
    rewrite Lt. rewrite (IH n (Some c) tail gs res); auto.
    simpl in L. lia.
Qed.

Lemma allChars_impl (f g : ascii -> bool) (s : string) :
  (forall c, f c = true -> g c = true) -> allChars f s = true -> allChars g s = true.
Proof.
  intros H. induction s as [|c s IH]; [reflexivity|].
  intros A. change (f c && allChars f s = true) in A. apply andb_true_iff in A.
  destruct A as [Fc A]. change (g c && allChars g s = true).
  rewrite (H _ Fc), (IH A). reflexivity.
Qed.

Lemma isDigit_dot (c : ascii) : isDigit c = true -> negb (isLineTerminator c) = true.
Proof.
  destruct c as [[] [] [] [] [] [] [] []]; vm_compute; intros H; try exact H; reflexivity.
Qed.

Lemma isDigit_solid (c : ascii) : isDigit c = true -> negb (isSpace c) = true.
Proof.
  destruct c as [[] [] [] [] [] [] [] []]; vm_compute; intros H; try exact H; reflexivity.
Qed.

Lemma allChars_suffix (f : ascii -> bool) (a t : string) :
  allChars f (a ++ t) = true -> allChars f t = true.
Proof. rewrite allChars_app. intros H. apply andb_true_iff in H. tauto. Qed.

(** ** A subject that ends in a pull-request number *)

Lemma rePrSuffix_match (s ds : string) :
  oneLine s = true -> allChars isDigit ds = true -> ds <> EmptyString ->
  exec rePrSuffix (s ++ " (#" ++ ds ++ ")") = Some (mkFound 0 EmptyString [(2, ds); (1, s)]).
Proof.
  intros Hs Hd Ne.
  unfold rePrSuffix. simpl Seq. rewrite exec_Bol. unfold matchAt.
  rewrite run_Cat, run_Bol. cbn [before]. rewrite run_Cat, run_Grp. unfold Dot at 1.
  rewrite run_Star. 
  set (tail := (" (#" ++ ds ++ ")")%string).
  set (p0 := mkPos None (s ++ tail) []).
  set (K := fun q : pos => run _ _ (capture 1 p0 q)).
  assert (Fin : K (mkPos (walk None s) tail []) =
                Some (mkPos (Some ")"%char) EmptyString [(2, ds); (1, s)])).
  { unfold K, capture, p0. cbn [before rest caps].
    rewrite sliceTo_app. unfold tail. cbn [append].
    rewrite run_Cat. unfold Space at 1. rewrite run_Cls. unfold advance; cbn [rest caps].
    change (isSpace " ") with true. cbv iota.
    cbn [Lit]. rewrite !run_Cat. cbn [run rest]; unfold advance; cbn [rest caps].
    change (Ascii.eqb "(" "(") with true. cbv iota. unfold advance; cbn [rest caps].
    change (Ascii.eqb "#" "#") with true. cbv iota.
    destruct ds as [|d ds]; [contradiction|].
    change (isDigit d && allChars isDigit ds = true) in Hd. apply andb_true_iff in Hd.
    destruct Hd as [Hd1 Hd2].
    unfold Plus, Digit. rewrite run_Cat, run_Cls.
    cbn [append rest]. rewrite Hd1. unfold advance. rewrite run_Star. cbn [rest caps].
    erewrite star_all; [reflexivity | exact Hd2 | rewrite length_app; lia | reflexivity |].
    unfold capture. cbn [before rest caps].
    change (Ascii.eqb ")" ")") with true. cbv iota.
    change (String d (ds ++ ")")) with (String d ds ++ ")")%string.
    rewrite sliceTo_app. reflexivity. }
  cbn [rest p0]. unfold p0.
  rewrite star_upto with (res := mkPos (Some ")"%char) EmptyString [(2, ds); (1, s)]);
    [reflexivity | exact Hs | rewrite length_app; lia | | exact Fin].
  intros a t E Na. unfold K, capture. cbn [before rest caps].
  rewrite run_Cat. unfold Space at 1. rewrite run_Cls. cbn [rest].
  destruct a as [|x a]; [contradiction|]. unfold tail in E. cbn [append] in E.
  inversion E as [[Ex Et]].
  assert (St : allChars (fun c => negb (isSpace c)) t = true).
  { apply allChars_suffix with (a := a). rewrite <- Et.
    change (allChars (fun c => negb (isSpace c)) ("(#" ++ ds ++ ")") = true).
    cbn [append allChars]. rewrite allChars_app.
    rewrite (@allChars_impl isDigit (fun c => negb (isSpace c)) ds isDigit_solid Hd).
    reflexivity. }
  destruct t as [|y t]; [reflexivity|].
  change (negb (isSpace y) && allChars (fun c => negb (isSpace c)) t = true) in St.
  apply andb_true_iff in St. destruct St as [Sy _]. apply negb_true_iff in Sy.
  rewrite Sy. reflexivity.
Qed.

(** ** A subject that starts with a type *)

Lemma sliceTo_all (s : string) : sliceTo (String.length s - 0) s = s.
Proof.
  rewrite Nat.sub_0_r. induction s as [|c s IH]; simpl; [reflexivity|].
  rewrite IH. reflexivity.
Qed.

Lemma run_Chr (c : ascii) (k : pos -> option pos) (p : pos) :
  run (Chr c) k p =
  match rest p with
  | String d t => if Ascii.eqb c d then k (advance d t p) else None
  | EmptyString => None
  end.
Proof. reflexivity. Qed.

Lemma run_Eol (k : pos -> option pos) (p : pos) :
  run Eol k p = match rest p with EmptyString => k p | String _ _ => None end.
Proof. reflexivity. Qed.

Lemma reSemantic_match (w text : string) (sp : ascii) :
  allChars isWord w = true -> w <> EmptyString -> isSpace sp = true -> oneLine text = true ->
  exec reSemantic (w ++ ":" ++ String sp text) =
  Some (mkFound 0 EmptyString [(2, text); (1, w)]).
Proof.
  intros Hw Ne Hsp Hr.
  unfold reSemantic. simpl Seq. rewrite exec_Bol. unfold matchAt.
  rewrite run_Cat, run_Bol. cbn [before]. rewrite run_Cat, run_Grp.
  destruct w as [|c w]; [contradiction|].
  change (isWord c && allChars isWord w = true) in Hw. apply andb_true_iff in Hw.
  destruct Hw as [Hc Hw].
  unfold Plus, Word. rewrite run_Cat, run_Cls. cbn [append rest]. rewrite Hc.
  unfold advance. rewrite run_Star. cbn [rest caps].
  rewrite star_all
    with (res := mkPos (walk (Some sp) text) EmptyString [(2, text); (1, String c w)]);
    [reflexivity | exact Hw | rewrite length_app; lia | reflexivity |].
  unfold capture. cbn [before rest caps].
  change (String c (w ++ String ":" (String sp text)))
    with (String c w ++ String ":" (String sp text))%string.
  rewrite sliceTo_app.
  rewrite run_Cat, run_Chr. cbn [rest]. change (Ascii.eqb ":" ":") with true. cbv iota.
  unfold advance. cbn [rest caps].
  rewrite run_Cat. unfold Space at 1. rewrite run_Cls. cbn [rest]. rewrite Hsp.
  unfold advance. cbn [rest caps].
  rewrite run_Cat, run_Grp. unfold Dot. rewrite run_Star. cbn [rest].
  assert (E : text = (text ++ EmptyString)%string) by (rewrite append_nil_r; reflexivity).
  rewrite E at 2.
  rewrite star_all
    with (res := mkPos (walk (Some sp) text) EmptyString [(2, text); (1, String c w)]);
    [reflexivity | exact Hr | lia | reflexivity |].
  rewrite run_Eol. unfold capture. cbn [before rest caps]. rewrite sliceTo_all. reflexivity.
Qed.

(** ** Messages on one line *)

Lemma oneLine_without (s : string) : oneLine s = true -> without LF s = true.
Proof.
  apply allChars_impl. intros c H. apply negb_true_iff in H. apply negb_true_iff.
  destruct (Ascii.eqb c LF) eqn:E; [|reflexivity].
  apply Ascii.eqb_eq in E. subst c. discriminate H.
Qed.

Lemma index_without (s : string) : without LF s = true -> String.index 0 nl s = None.
Proof.
  induction s as [|c s IH]; intros H; [reflexivity|].
  change (negb (Ascii.eqb c LF) && without LF s = true) in H.
  apply andb_true_iff in H. destruct H as [Hc Hs]. apply negb_true_iff in Hc.
  change (String.index 0 nl (String c s))
    with (if prefix nl (String c s) then Some 0
          else match String.index 0 nl s with Some n => Some (S n) | None => None end).
  unfold nl at 1. rewrite prefix_other by exact Hc. rewrite (IH Hs). reflexivity.
Qed.

Lemma splitMessage_oneLine (m : string) :
  oneLine m = true -> splitMessage m = (m, EmptyString).
Proof.
  intros H. unfold splitMessage, indexOf. rewrite index_without; [reflexivity|].
  apply oneLine_without. exact H.
Qed.

Lemma suffixed_oneLine (s ds : string) :
  oneLine s = true -> allChars isDigit ds = true -> oneLine (s ++ " (#" ++ ds ++ ")") = true.
Proof.
  intros Hs Hd. unfold oneLine in *. rewrite allChars_app, Hs.
  change (" (#" ++ ds ++ ")")%string with (String " " (String "(" (String "#" (ds ++ ")")))).
  cbn [allChars andb].
  change (negb (isLineTerminator " ")) with true.
  change (negb (isLineTerminator "(")) with true.
  change (negb (isLineTerminator "#")) with true. cbn [andb].
  rewrite allChars_app.
  rewrite (@allChars_impl isDigit (fun c => negb (isLineTerminator c)) ds isDigit_dot Hd).
  reflexivity.
Qed.

Lemma suffixed_subject (s ds owner repo : string) :
  oneLine s = true -> allChars isDigit ds = true -> ds <> EmptyString ->
  subject1 (s ++ " (#" ++ ds ++ ")") = s /\
  suffixCall (s ++ " (#" ++ ds ++ ")") owner repo =
  Some (mkPullRequest owner repo (NumV (parseInt ds)) None).
Proof.
  intros Hs Hd Ne. unfold subject1, suffixCall, subject0.
  rewrite splitMessage_oneLine by (apply suffixed_oneLine; assumption).
  cbn [fst]. rewrite rePrSuffix_match by assumption. split; reflexivity.
Qed.

(** X9.  A message on one line that ends in ' (#digits)' names a pull request:
    on a record without [pr] and [originalPr], and unless the message
    holds a markdown 'Fixes' link with the same number, [originalPr] after
    the parse is the pull request of that number in the repository the
    message is parsed under. *)
Theorem suffix_names_pull_request (owner repo s ds : string) (c c' : commit) :
  oneLine s = true -> allChars isDigit ds = true -> ds <> EmptyString ->
  isSet (originalPr c) = false -> isSet (pr c) = false ->
  fixesIssue (s ++ " (#" ++ ds ++ ")")
             (mkPullRequest owner repo (NumV (parseInt ds)) None) = false ->
  parseCommitMessage (s ++ " (#" ++ ds ++ ")") owner repo c = Ok c' ->
  originalPr c' = val (mkPullRequest owner repo (NumV (parseInt ds)) None).
Proof.
  intros Hs Hd Ne Ho Hp Fx E.
  set (m := (s ++ " (#" ++ ds ++ ")")%string) in *.
  set (new := mkPullRequest owner repo (NumV (parseInt ds)) None) in *.
  apply parse_Ok in E. subst c'.
  pose proof (parsed_prState m owner repo c) as St.
  assert (O : originalPr (parsed m owner repo c) =
              snd (prStateAfter m owner repo (issueNumber c) (pr c, originalPr c)))
    by (rewrite <- St; reflexivity).
  rewrite O. unfold prStateAfter.
  destruct (@suffixed_subject s ds owner repo Hs Hd Ne) as [_ Call]. fold m in Call.
  rewrite Call. fold new.
  assert (First : recordSt (Some new) (pr c, originalPr c) = (val new, val new)).
  { unfold recordSt, prAfter, origAfter, firstOf. cbn [fst snd]. rewrite Ho, Hp. reflexivity. }
  rewrite First.
  unfold recordSt, clearSt. cbn [fst snd]. rewrite !origAfter_set.
  assert (K : markdownClear m (issueFrom (subject2 m) (issueNumber c)) (val new) = val new).
  { unfold markdownClear, clearWith, markdownFires. unfold fixesIssue in Fx.
    destruct (negb _); [|reflexivity].
    destruct (exec reMarkdownFixes m); [|reflexivity].
    rewrite Fx. reflexivity. }
  rewrite K, !origAfter_set. reflexivity.
Qed.

(** ** A message with a type, a subject and a pull-request number *)

Lemma matches_paragraphs (w : string) : matches reParagraphs w -> without LF w = false.
Proof.
  unfold reParagraphs. simpl Seq. intros H.
  inversion H as [| | |r1 r2 w1 w2 H1 H2| | | | | | | |]; subst.
  inversion H2 as [| | |r1 r2 w3 w4 H3 H4| | | | | | | |]; subst.
  inversion H3; subst.
  unfold without. rewrite allChars_app. cbn [append allChars].
  change (negb (Ascii.eqb LF LF)) with false. cbn [andb]. apply andb_false_r.
Qed.

Lemma matchAt_paragraphs (b : option ascii) (s : string) :
  without LF s = true -> matchAt reParagraphs b s = None.
Proof.
  intros H. destruct (matchAt reParagraphs b s) as [q|] eqn:E; [|reflexivity].
  unfold matchAt in E. apply run_sound in E. destruct E as [q' [w [_ [R M]]]].
  cbn [rest] in R. apply matches_paragraphs in M.
  rewrite R in H. unfold without in H. rewrite allChars_app in H.
  apply andb_true_iff in H. destruct H as [H _]. unfold without in M. congruence.
Qed.

Lemma splitFrom_paragraph (s : string) :
  forall b piece, without LF s = true ->
  splitFrom reParagraphs b s 0 piece = [(piece ++ s)%string].
Proof.
  induction s as [|c s IH]; intros b piece H.
  - simpl. rewrite append_nil_r. reflexivity.
  - cbn [splitFrom]. rewrite matchAt_paragraphs by exact H.
    change (negb (Ascii.eqb c LF) && without LF s = true) in H.
    apply andb_true_iff in H. destruct H as [_ Hs].
    rewrite IH by exact Hs. rewrite append_assoc. reflexivity.
Qed.

(** A text without a line feed is one paragraph. *)
Lemma paragraphs_oneLine (c : ascii) (s : string) :
  without LF (String c s) = true -> paragraphs (String c s) = [trim (String c s)].
Proof.
  intros H. unfold paragraphs, split. rewrite splitFrom_paragraph by exact H. reflexivity.
Qed.

Lemma first_other (f : ascii -> bool) (a : string) :
  forall a' x x' t t',
  allChars f a = true -> allChars f a' = true -> f x = false -> f x' = false ->
  (a ++ String x t = a' ++ String x' t')%string -> x = x'.
Proof.
  induction a as [|c a IH]; intros [|c' a'] x x' t t' A A' X X' E; simpl in E.
  - inversion E. reflexivity.
  - inversion E; subst c'. change (f x && allChars f a' = true) in A'.
    rewrite X in A'. discriminate.
  - inversion E; subst c. change (f x' && allChars f a = true) in A.
    rewrite X' in A. discriminate.
  - inversion E; subst c'.
    change (f c && allChars f a = true) in A. change (f c && allChars f a' = true) in A'.
    apply andb_true_iff in A. apply andb_true_iff in A'.
    destruct A as [_ A]. destruct A' as [_ A']. eapply IH; eauto.
Qed.

Lemma isWord_dot (c : ascii) : isWord c = true -> negb (isLineTerminator c) = true.
Proof.
  destruct c as [[] [] [] [] [] [] [] []]; vm_compute; intros H; try exact H; reflexivity.
Qed.

Lemma isWord_solid (c : ascii) : isWord c = true -> isSpace c = false.
Proof.
  destruct c as [[] [] [] [] [] [] [] []]; vm_compute; intros H; try discriminate H;
    reflexivity.
Qed.

(** A message that starts with a word and a colon has no paragraph that
    starts with 'BREAKING CHANGE' when it is on one line. *)
Lemma typed_not_breaking (w tail : string) :
  allChars isWord w = true -> w <> EmptyString ->
  startsWith (w ++ String ":" tail) "BREAKING CHANGE" = false.
Proof.
  intros Hw Ne. unfold startsWith.
  destruct (prefix "BREAKING CHANGE" (w ++ String ":" tail)) eqn:P; [|reflexivity].
  apply prefix_split in P.
  assert (Q : ":"%char = " "%char).
  { eapply (@first_other isWord w "BREAKING" ":" " " tail); try reflexivity; try exact Hw.
    exact P. }
  discriminate Q.
Qed.

(** X10.  The message 'word: text (#digits)' on one line, with a word other than
    'chore': the type after the parse is the word in lower case and the
    subject is the text, trimmed. *)
Theorem conventional_message (owner repo w text ds : string) (c c' : commit) :
  allChars isWord w = true -> w <> EmptyString -> toLowerCase w <> "chore" ->
  oneLine text = true -> allChars isDigit ds = true -> ds <> EmptyString ->
  parseCommitMessage (w ++ ": " ++ text ++ " (#" ++ ds ++ ")") owner repo c = Ok c' ->
  type c' = Some (toLowerCase w) /\ subject c' = Some (trim text).
Proof.
  intros Hw Nw Nc Ht Hd Nd E.
  assert (M : (w ++ ": " ++ text ++ " (#" ++ ds ++ ")" =
               (w ++ ": " ++ text) ++ " (#" ++ ds ++ ")")%string).
  { rewrite !append_assoc. reflexivity. }
  assert (Hs : oneLine (w ++ ": " ++ text) = true).
  { unfold oneLine in *. rewrite allChars_app.
    rewrite (@allChars_impl isWord (fun x => negb (isLineTerminator x)) w isWord_dot Hw).
    change (": " ++ text)%string with (String ":" (String " " text)).
    cbn [allChars andb]. exact Ht. }
  assert (Hm : oneLine (w ++ ": " ++ text ++ " (#" ++ ds ++ ")") = true).
  { rewrite M. apply suffixed_oneLine; assumption. }
  destruct (@suffixed_subject (w ++ ": " ++ text) ds owner repo Hs Hd Nd) as [S1 _].
  rewrite <- M in S1.
  assert (Sem : exec reSemantic (subject1 (w ++ ": " ++ text ++ " (#" ++ ds ++ ")")) =
                Some (mkFound 0 EmptyString [(2, text); (1, w)])).
  { rewrite S1. apply (@reSemantic_match w text " "); auto. }
  assert (B : hasBreakingChange (w ++ ": " ++ text ++ " (#" ++ ds ++ ")") = false).
  { unfold hasBreakingChange.
    destruct w as [|x w]; [contradiction|].
    change (String x w ++ ": " ++ text ++ " (#" ++ ds ++ ")")%string
      with (String x (w ++ ": " ++ text ++ " (#" ++ ds ++ ")")).
    rewrite paragraphs_oneLine
      by (apply oneLine_without; exact Hm).
    cbn [existsb]. rewrite orb_false_r.
    assert (T : trim (String x (w ++ ": " ++ text ++ " (#" ++ ds ++ ")")) =
                String x (w ++ ": " ++ text ++ " (#" ++ ds ++ ")")).
    { unfold trim.
      change (isWord x && allChars isWord w = true) in Hw. apply andb_true_iff in Hw.
      destruct Hw as [Hx _]. cbn [trimStart]. rewrite (isWord_solid _ Hx).
      apply trimEnd_fixed with (d := ")"%char); [|reflexivity].
      replace (String x (w ++ ": " ++ text ++ " (#" ++ ds ++ ")"))
        with ((String x w ++ ": " ++ text ++ " (#" ++ ds) ++ ")")%string
        by (rewrite !append_assoc; reflexivity).
      rewrite lastChar_app. reflexivity. }
    rewrite T. apply (@typed_not_breaking (String x w)); [exact Hw | discriminate]. }
  apply parse_Ok in E. subst c'. split.
  - rewrite parsed_type.
    rewrite (@typeAfter_semantic _ _ _ _ Sem); [reflexivity | exact Nc | exact B].
  - rewrite parsed_subject. unfold subject2. rewrite Sem. reflexivity.
Qed.

Lemma suffix_names_pull_request_witness :
  originalPr fooTwelve = val (mkPullRequest "electron" "electron" (NumV (parseInt "12")) None).
Proof.
  apply (@suffix_names_pull_request "electron" "electron" "fix: foo" "12" emptyCommit);
    try reflexivity; discriminate.
Defined.

Lemma conventional_message_witness :
  type fooTwelve = Some (toLowerCase "fix") /\ subject fooTwelve = Some (trim "foo").
Proof.
  apply (@conventional_message "electron" "electron" "fix" "foo" "12" emptyCommit);
    try reflexivity; discriminate.
Defined.

End Recognition.

(* ================================================================== *)
(** * The order of the commits *)
(* ================================================================== *)

Section Order.
Import JS RegExp Notes Spec.

(** ** The order of strings *)

Lemma ascii_compare_lt_trans (a b c : ascii) :
  Ascii.compare a b = Lt -> Ascii.compare b c = Lt -> Ascii.compare a c = Lt.
Proof.
  unfold Ascii.compare. rewrite !N.compare_lt_iff. apply N.lt_trans.
Qed.

Lemma compare_le_trans (s : string) :
  forall t u, String.compare s t <> Gt -> String.compare t u <> Gt -> String.compare s u <> Gt.
Proof.
  induction s as [|a s IH]; intros [|b t] [|c u] H1 H2; simpl in *; try congruence.
  destruct (Ascii.compare a b) eqn:Eab; try congruence.
  - apply Ascii.compare_eq_iff in Eab. subst b.
    destruct (Ascii.compare a c); try congruence. eapply IH; eauto.
  - destruct (Ascii.compare b c) eqn:Ebc; try congruence.
    + apply Ascii.compare_eq_iff in Ebc. subst c. rewrite Eab. congruence.
    + rewrite (ascii_compare_lt_trans _ _ _ Eab Ebc). congruence.
Qed.

Lemma lexLe_trans (a b c : string) : lexLe a b -> lexLe b c -> lexLe a c.
Proof.
  unfold lexLe, String.leb. intros H1 H2.
  pose proof (@compare_le_trans a b c) as T.
  destruct (String.compare a b); destruct (String.compare b c);
    destruct (String.compare a c); try reflexivity; try discriminate;
    exfalso; apply T; congruence.
Qed.

Lemma sorted_unique (l : list string) :
  forall l', StronglySorted lexLe l -> StronglySorted lexLe l' -> Permutation l l' -> l = l'.
Proof.
  induction l as [|x xs IH]; intros l' S S' P.
  - apply Permutation_nil in P. auto.
  - destruct l' as [|y ys]; [apply Permutation_sym, Permutation_nil in P; discriminate|].
    inversion S as [|? ? Sx Fx]; subst. inversion S' as [|? ? Sy Fy]; subst.
    assert (E : x = y).
    { assert (Ix : In x (y :: ys)) by (eapply Permutation_in; [exact P | left; reflexivity]).
      assert (Iy : In y (x :: xs))
        by (eapply Permutation_in; [apply Permutation_sym; exact P | left; reflexivity]).
      destruct Ix as [Q|Ix]; [auto|]. destruct Iy as [Q|Iy]; [auto|].
      rewrite Forall_forall in Fx, Fy. apply String.leb_antisym; [apply Fx | apply Fy]; auto. }
    subst y. f_equal. apply IH; auto. eapply Permutation_cons_inv. exact P.
Qed.

(** Sorting does not depend on the order of what is sorted. *)
Lemma sort_permuted (a b : list string) : Permutation a b -> sort a = sort b.
Proof.
  intros P. apply sorted_unique.
  - apply Sorted_StronglySorted; [intros x y z; apply lexLe_trans | apply sort_sorted].
  - apply Sorted_StronglySorted; [intros x y z; apply lexLe_trans | apply sort_sorted].
  - rewrite !sort_perm. exact P.
Qed.

Lemma lines_unique (l : list text) :
  forall l', StronglySorted textLe l -> StronglySorted textLe l' -> Permutation l l' -> l = l'.
Proof.
  induction l as [|x xs IH]; intros l' S S' P.
  - apply Permutation_nil in P. auto.
  - destruct l' as [|y ys]; [apply Permutation_sym, Permutation_nil in P; discriminate|].
    inversion S as [|? ? Sx Fx]; subst. inversion S' as [|? ? Sy Fy]; subst.
    assert (E : x = y).
    { assert (Ix : In x (y :: ys)) by (eapply Permutation_in; [exact P | left; reflexivity]).
      assert (Iy : In y (x :: xs))
        by (eapply Permutation_in; [apply Permutation_sym; exact P | left; reflexivity]).
      destruct Ix as [Q|Ix]; [auto|]. destruct Iy as [Q|Iy]; [auto|].
      rewrite Forall_forall in Fx, Fy. apply text_leb_antisym; [apply Fx | apply Fy]; auto. }
    subst y. f_equal. apply IH; auto. eapply Permutation_cons_inv. exact P.
Qed.

Lemma sortLines_permuted (a b : list text) : Permutation a b -> sortLines a = sortLines b.
Proof.
  intros P. apply lines_unique.
  - apply Sorted_StronglySorted; [intros x y z; apply text_leb_trans | apply sortLines_sorted].
  - apply Sorted_StronglySorted; [intros x y z; apply text_leb_trans | apply sortLines_sorted].
  - rewrite !sortLines_perm. exact P.
Qed.

Lemma filter_permuted (A : Type) (f : A -> bool) (l l' : list A) :
  Permutation l l' -> Permutation (filter f l) (filter f l').
Proof.
  induction 1 as [|x l l' P IH|x y l|l1 l2 l3 P1 IH1 P2 IH2]; simpl.
  - constructor.
  - destruct (f x); [constructor|]; exact IH.
  - destruct (f x), (f y); try reflexivity. apply perm_swap.
  - eapply perm_trans; eauto.
Qed.

Lemma existsb_permuted (A : Type) (f : A -> bool) (l l' : list A) :
  Permutation l l' -> existsb f l = existsb f l'.
Proof.
  induction 1 as [|x l l' P IH|x y l|l1 l2 l3 P1 IH1 P2 IH2]; simpl.
  - reflexivity.
  - rewrite IH. reflexivity.
  - destruct (f x), (f y); reflexivity.
  - congruence.
Qed.

(** ** Sections *)

Lemma bulletFor_permuted (ns ns' : list renderedCommit) (key : text) :
  Permutation ns ns' -> bulletFor ns key = bulletFor ns' key.
Proof.
  intros P. unfold bulletFor.
  assert (E : sort (linksOf key ns) = sort (linksOf key ns')).
  { apply sort_permuted. unfold linksOf. apply Permutation_map, filter_permuted. exact P. }
  rewrite E. reflexivity.
Qed.

Lemma noteTexts_permuted (ns ns' : list renderedCommit) :
  Permutation ns ns' -> Permutation (noteTexts ns) (noteTexts ns').
Proof.
  intros P. unfold noteTexts. apply NoDup_Permutation; try apply NoDup_nodup.
  intros key. rewrite !nodup_In. split; apply Permutation_in.
  - apply Permutation_map. exact P.
  - apply Permutation_map, Permutation_sym. exact P.
Qed.

Lemma sectionLines_permuted (ns ns' : list renderedCommit) :
  Permutation ns ns' -> sectionLines ns = sectionLines ns'.
Proof.
  intros P. unfold sectionLines. apply sortLines_permuted.
  rewrite (bullets_of_collected (fold_collected ns)).
  rewrite (bullets_of_collected (fold_collected ns')).
  rewrite (noteTexts_permuted P).
  replace (map (bulletFor ns) (noteTexts ns')) with (map (bulletFor ns') (noteTexts ns')).
  - reflexivity.
  - apply map_ext. intros key. symmetry. apply bulletFor_permuted. exact P.
Qed.

Section WithNumbers.
Variable numberToString : number -> string.

Lemma renderCommits_all (l : list commit) :
  renderCommits numberToString l =
  if existsb textless l then Throw "TypeError: cannot read property trim"
  else Ok (map (fun c => mkRendered (cleanUp (match noteOrSubject c with
                                              | Some note => note
                                              | None => EmptyString
                                              end))
                                    (linkOf numberToString c)) l).
Proof.
  induction l as [|c l IH]; [reflexivity|].
  cbn [renderCommits existsb map]. unfold renderCommit, textless at 1.
  destruct (noteOrSubject c) as [note|]; [|reflexivity].
  cbn [bind orb]. rewrite IH. destruct (existsb textless l); reflexivity.
Qed.

Lemma renderSection_permuted (title : string) (l l' : list commit) :
  Permutation l l' ->
  renderSection numberToString title l = renderSection numberToString title l'.
Proof.
  intros P. unfold renderSection. rewrite (Permutation_length P).
  destruct (Nat.eqb _ _); [reflexivity|].
  rewrite !renderCommits_all, (existsb_permuted textless P).
  destruct (existsb textless l'); [reflexivity|]. cbn [bind].
  rewrite (@sectionLines_permuted _ _ (Permutation_map _ P)). reflexivity.
Qed.

(** X30.  The text of the notes does not depend on the order of the commits
    within the buckets. *)
Theorem renderNotes_order_independent (n n' : notes) :
  sameBuckets n n' -> renderNotes numberToString n = renderNotes numberToString n'.
Proof.
  intros [B [D [F [X [O [U R]]]]]]. unfold renderNotes.
  rewrite (renderSection_permuted "Breaking Changes" B).
  rewrite (renderSection_permuted "Features" F).
  rewrite (renderSection_permuted "Fixes" X).
  rewrite (renderSection_permuted "Other Changes" O).
  rewrite (renderSection_permuted "Unknown" U).
  assert (Dc : renderDocs numberToString (docs n) = renderDocs numberToString (docs n')).
  { unfold renderDocs. rewrite (Permutation_length D).
    rewrite (@sort_permuted _ _ (Permutation_map (docLink numberToString) D)). reflexivity. }
  rewrite Dc, R. reflexivity.
Qed.

End WithNumbers.

Lemma renderNotes_order_independent_witness :
  renderNotes decimal (mkNotes [] [] [] [somethingSeven; fooTwelve] [] [] "v1.0.1") =
  renderNotes decimal (mkNotes [] [] [] [fooTwelve; somethingSeven] [] [] "v1.0.1").
Proof.
  apply renderNotes_order_independent.
  unfold sameBuckets. cbn [breaks docs feat fix_ other unknown ref].
  repeat split; try apply Permutation_refl. apply perm_swap.
Defined.

End Order.
